(** * Snowman decompiler: pipeline controller and liveness analysis

    A shallow embedding of
      - [nc/core/ir/liveness/LivenessAnalyzer.cpp] (module [Liveness]),
      - [MasterAnalyzer::pickFunctionName] (module [Naming]),
      - [MasterAnalyzer::decompile] and its phases (module [Pipeline]),
    followed by the properties proved about them.

    Pointers are identities into an arena ([nat] keys of a [gmap]); a
    nullable pointer is an [option].  [void] member functions become
    transformers of the analyzer's mutable members in an error monad whose
    failures are the ways the C++ can stop: a failed [assert], and the
    dereference of a pointer to no object. *)

From Stdlib Require Import ZArith NArith Ascii.
From Stdlib Require HexString.
From stdpp Require Import base option list gmap sets sorting strings.

(* ================================================================== *)
(** * Liveness analysis: [LivenessAnalyzer.cpp]                        *)
(* ================================================================== *)

Module Liveness.

(** ** The IR as the analyzer sees it *)

(** [MemoryLocation]: a (domain, address, size) triple. *)
Record MemoryLocation := {
  domain : Z;
  addr : Z;
  size : Z
}.

(** [Term::AccessType].  [propagateLiveness] tests [isRead()] and then
    [else if (isWrite())], so a third value is kept. *)
Inductive AccessType := READ | WRITE | KILL.

(** The classes of terms, one constructor per [Term::kind()] with the
    sub-term pointers the analyzer reads; [OtherTerm] is any kind the
    [switch] statements send to [default:]. *)
Inductive TermClass :=
| IntConst
| Intrinsic
| Undefined
| MemoryLocationAccess (memoryLocation : MemoryLocation)
| Dereference (address : option nat)
| UnaryOperator (operand : option nat)
| BinaryOperator (left right : option nat)
| Choice (preferredTerm defaultTerm : option nat)
| OtherTerm (kind : nat).

Record Term := {
  termClass : TermClass;
  accessType : AccessType;
  source : option nat
}.

Definition isRead (t : Term) : bool :=
  match accessType t with READ => true | _ => false end.

Definition isWrite (t : Term) : bool :=
  match accessType t with WRITE => true | _ => false end.

(** [JumpTarget]: only its optional address term matters here. *)
Record JumpTarget := {
  targetAddress : option nat
}.

(** The classes of statements, one constructor per [Statement::kind()];
    [OtherStatement] is any kind sent to [default:]. *)
Inductive Statement :=
| Comment
| InlineAssembly
| Assignment
| Kill
| Jump (condition : option nat) (thenTarget elseTarget : JumpTarget)
| Call (target : option nat)
| Return
| OtherStatement (kind : nat).

(** [calling::Signature]. *)
Record Signature := {
  arguments : list MemoryLocation;
  returnValue : option MemoryLocation
}.

Record CallHook := {
  getArgumentTerm : MemoryLocation -> option nat
}.

Record ReturnHook := {
  getReturnValueTerm : MemoryLocation -> option nat
}.

(** [calling::Hooks], for one function: the three lookups [analyze] and
    [computeLiveness] make. *)
Record Hooks := {
  getCalleeIdOfFunction : option nat;
  getCalleeId : nat -> option nat;
  getCallHook : nat -> option CallHook;
  getReturnHook : nat -> option ReturnHook
}.

(** [dflow::ReachingDefinitions]: a sequence of chunks, each with the
    terms defining it. *)
Record Chunk := {
  chunkLocation : MemoryLocation;
  definitions : list (option nat)
}.

(** [dflow::Dataflow], read-only here.  [getDefinitions] is keyed by the
    pointer value it is given, which for a [Choice] is the unchecked
    [preferredTerm()]. *)
Record Dataflow := {
  getMemoryLocation : nat -> option MemoryLocation;
  getDefinitions : option nat -> list Chunk;
  isConcrete : nat -> bool
}.

(** [cflow::Graph]: nodes are basic nodes or regions; a [Switch] region
    may have a bounds-check node, whose basic block may end in a jump. *)
Record BasicBlock := {
  getJump : option nat
}.

Record BasicNode := {
  basicBlock : BasicBlock
}.

Inductive Region :=
| Switch (boundsCheckNode : option BasicNode)
| OtherRegion (regionKind : nat).

Inductive Node :=
| NodeBasic (b : BasicNode)
| NodeRegion (r : Region).

(** [ir::Function] with the result of running [misc::CensusVisitor] over
    it: the arenas of its terms and statements, the census sequences and
    the list of its [Return] statements. *)
Record Function := {
  terms : gmap nat Term;
  statements : gmap nat Statement;
  censusStatements : list nat;
  censusTerms : list nat;
  getReturns : list nat
}.

(** The members of [LivenessAnalyzer] that [analyze] only reads. *)
Record LivenessAnalyzer := {
  function : Function;
  dataflow : Dataflow;
  isGlobalMemory : MemoryLocation -> bool;
  regionGraph : list Node;
  hooks : Hooks;
  signatures : gmap nat Signature
}.

(** The members it writes: the [Liveness] set, [deadJumps_], and the
    messages given to [ncWarning]. *)
Record State := {
  liveness : gset nat;
  deadJumps_ : list (option nat);
  warnings : list string
}.

(** How a call ends. *)
Inductive Outcome :=
| Done (st : State)
| AssertionFailed
| InvalidPointer
| OutOfFuel.

Definition M := State -> Outcome.

Definition skip : M := Done.

Definition seq (a b : M) : M :=
  fun st => match a st with Done st' => b st' | e => e end.

Notation "a ;> b" := (seq a b) (at level 62, right associativity).

Fixpoint foreach {A : Type} (l : list A) (body : A -> M) : M :=
  match l with
  | [] => skip
  | x :: l' => body x ;> foreach l' body
  end.

Definition ncWarning (msg : string) : M :=
  fun st => Done {| liveness := liveness st;
                    deadJumps_ := deadJumps_ st;
                    warnings := warnings st ++ [msg] |}.

(** [Liveness::makeLive]: insertion into the set. *)
Definition insertLive (t : nat) : M :=
  fun st => Done {| liveness := {[t]} ∪ liveness st;
                    deadJumps_ := deadJumps_ st;
                    warnings := warnings st |}.

(** ** [std::sort] and [std::binary_search] on pointers *)

(** The address a pointer compares by: null is 0. *)
Definition addressOf (p : option nat) : nat :=
  match p with None => 0 | Some n => S n end.

Definition ptr_le (p q : option nat) : Prop := addressOf p <= addressOf q.

#[global] Instance ptr_le_dec : RelDecision ptr_le.
Proof. intros p q. unfold ptr_le. apply _. Defined.

Definition ptr_ltb (p q : option nat) : bool := addressOf p <? addressOf q.

Definition sort (l : list (option nat)) : list (option nat) :=
  merge_sort ptr_le l.

(** [std::lower_bound] over the range [first, first + count). *)
Fixpoint lower_bound (fuel : nat) (l : list (option nat)) (first count : nat)
    (value : option nat) : nat :=
  match fuel with
  | O => first
  | S fuel' =>
    if count =? 0 then first
    else
      let step := count / 2 in
      let it := first + step in
      match l !! it with
      | None => first
      | Some x =>
        if ptr_ltb x value
        then lower_bound fuel' l (S it) (count - (step + 1)) value
        else lower_bound fuel' l first step value
      end
  end.

Definition binary_search (l : list (option nat)) (value : option nat) : bool :=
  let first := lower_bound (length l) l 0 (length l) value in
  match l !! first with
  | None => false
  | Some x => negb (ptr_ltb value x)
  end.

(** ** The analyzer *)

Section Analyzer.

(** The build flag [NC_PREFER_CONSTANTS_TO_EXPRESSIONS]. *)
Variable NC_PREFER_CONSTANTS_TO_EXPRESSIONS : bool.

Variable self : LivenessAnalyzer.

(** [propagateLiveness] (lines 183-255), with the [makeLive] it calls
    back as argument.  The test before the [switch] is the code under
    [#ifdef NC_PREFER_CONSTANTS_TO_EXPRESSIONS]. *)
Definition propagateLiveness (makeLive : option nat -> M) (term : option nat) : M :=
  fun st =>
  match term with
  | None => AssertionFailed
  | Some t =>
    match terms (function self) !! t with
    | None => InvalidPointer
    | Some tm =>
      if NC_PREFER_CONSTANTS_TO_EXPRESSIONS && isRead tm
         && isConcrete (dataflow self) t
      then Done st
      else
        match termClass tm with
        | IntConst => Done st
        | Intrinsic => Done st
        | Undefined => Done st
        | MemoryLocationAccess _ =>
          if isRead tm then
            foreach (getDefinitions (dataflow self) (Some t)) (fun chunk =>
              foreach (definitions chunk) makeLive) st
          else if isWrite tm then
            match source tm with
            | Some s => makeLive (Some s) st
            | None => Done st
            end
          else Done st
        | Dereference address =>
          ((if isRead tm then
              foreach (getDefinitions (dataflow self) (Some t)) (fun chunk =>
                foreach (definitions chunk) makeLive)
            else if isWrite tm then
              match source tm with
              | Some s => makeLive (Some s)
              | None => skip
              end
            else skip) ;>
           (match getMemoryLocation (dataflow self) t with
            | None => makeLive address
            | Some _ => skip
            end)) st
        | UnaryOperator operand => makeLive operand st
        | BinaryOperator l r => (makeLive l ;> makeLive r) st
        | Choice preferredTerm defaultTerm =>
          match getDefinitions (dataflow self) preferredTerm with
          | _ :: _ => makeLive preferredTerm st
          | [] => makeLive defaultTerm st
          end
        | OtherTerm _ =>
          ncWarning "Was called for unsupported kind of term."%string st
        end
    end
  end.

(** [makeLive] (lines 257-263); the recursion through
    [propagateLiveness] is cut by [fuel]. *)
Fixpoint makeLive_ (fuel : nat) (term : option nat) : M :=
  fun st =>
  match term with
  | None => AssertionFailed
  | Some t =>
    if decide (t ∈ liveness st) then Done st
    else
      match fuel with
      | O => OutOfFuel
      | S fuel' =>
        (insertLive t ;> propagateLiveness (makeLive_ fuel') (Some t)) st
      end
  end.

(** Each call of [makeLive] that goes on marks a term of the function not
    yet live, so one more than the number of terms is fuel enough
    ([makeLive_fuel_enough] below). *)
Definition makeLive (term : option nat) : M :=
  makeLive_ (S (base.size (terms (function self)))) term.

(** [computeLiveness], the overload for a [Statement] (lines 94-143). *)
Definition computeLivenessStatement (statement : nat) : M :=
  fun st =>
  match statements (function self) !! statement with
  | None => InvalidPointer
  | Some s =>
    match s with
    | Comment => Done st
    | InlineAssembly => Done st
    | Assignment => Done st
    | Kill => Done st
    | Jump condition thenTarget elseTarget =>
      if negb (binary_search (deadJumps_ st) (Some statement)) then
        ((match condition with
          | Some c => makeLive (Some c)
          | None => skip
          end) ;>
         (match targetAddress thenTarget with
          | Some a => makeLive (Some a)
          | None => skip
          end) ;>
         (match targetAddress elseTarget with
          | Some a => makeLive (Some a)
          | None => skip
          end)) st
      else Done st
    | Call target =>
      (makeLive target ;>
       match getCalleeId (hooks self) statement with
       | Some calleeId =>
         match signatures self !! calleeId with
         | Some signature =>
           match getCallHook (hooks self) statement with
           | Some callHook =>
             foreach (arguments signature) (fun memoryLocation =>
               makeLive (getArgumentTerm callHook memoryLocation))
           | None => skip
           end
         | None => skip
         end
       | None => skip
       end) st
    | Return => Done st
    | OtherStatement _ =>
      ncWarning "Was called for unsupported kind of statement."%string st
    end
  end.

(** [computeLiveness], the overload for a [Term] (lines 145-181). *)
Definition computeLivenessTerm (term : nat) : M :=
  fun st =>
  match terms (function self) !! term with
  | None => InvalidPointer
  | Some tm =>
    match termClass tm with
    | IntConst => Done st
    | Intrinsic => Done st
    | Undefined => Done st
    | MemoryLocationAccess memoryLocation =>
      if isWrite tm then
        if isGlobalMemory self memoryLocation then makeLive (Some term) st
        else Done st
      else Done st
    | Dereference _ =>
      if isWrite tm then
        match getMemoryLocation (dataflow self) term with
        | None => makeLive (Some term) st
        | Some memoryLocation =>
          if isGlobalMemory self memoryLocation then makeLive (Some term) st
          else Done st
        end
      else Done st
    | UnaryOperator _ => Done st
    | BinaryOperator _ _ => Done st
    | Choice _ _ => Done st
    | OtherTerm _ =>
      ncWarning "Was called for unsupported kind of term."%string st
    end
  end.

(** The first loop of [analyze] (lines 59-67): [deadJumps_.push_back]
    for each switch with a bounds-check node. *)
Definition pushDeadJump (node : Node) : M :=
  fun st =>
  match node with
  | NodeRegion (Switch (Some boundsCheckNode)) =>
    Done {| liveness := liveness st;
            deadJumps_ := deadJumps_ st ++ [getJump (basicBlock boundsCheckNode)];
            warnings := warnings st |}
  | _ => Done st
  end.

Definition clearDeadJumps : M :=
  fun st => Done {| liveness := liveness st;
                    deadJumps_ := [];
                    warnings := warnings st |}.

Definition sortDeadJumps : M :=
  fun st => Done {| liveness := liveness st;
                    deadJumps_ := sort (deadJumps_ st);
                    warnings := warnings st |}.

(** The last block of [analyze] (lines 81-91): the return values of a
    function with a signature. *)
Definition seedReturnValues : M :=
  match getCalleeIdOfFunction (hooks self) with
  | Some calleeId =>
    match signatures self !! calleeId with
    | Some signature =>
      match returnValue signature with
      | Some rv =>
        foreach (getReturns (function self)) (fun ret =>
          match getReturnHook (hooks self) ret with
          | Some returnHook => makeLive (getReturnValueTerm returnHook rv)
          | None => skip
          end)
      | None => skip
      end
    | None => skip
    end
  | None => skip
  end.

(** [LivenessAnalyzer::analyze] (lines 56-92). *)
Definition analyze : M :=
  clearDeadJumps ;>
  foreach (regionGraph self) pushDeadJump ;>
  sortDeadJumps ;>
  foreach (censusStatements (function self)) computeLivenessStatement ;>
  foreach (censusTerms (function self)) computeLivenessTerm ;>
  seedReturnValues.

End Analyzer.

(** A new [Liveness], as [MasterAnalyzer::livenessAnalysis] makes one per
    function before it runs [analyze]. *)
Definition newState : State :=
  {| liveness := ∅; deadJumps_ := []; warnings := [] |}.

End Liveness.

(* ================================================================== *)
(** * Function names: [MasterAnalyzer::pickFunctionName]               *)
(* ================================================================== *)

Module Naming.

(** The entry [BasicBlock]: its optional [ByteAddr] address, a 64-bit
    integer. *)
Record BasicBlock := {
  address : option Z
}.

(** [ir::Function] as the name picker sees it.  [identity] is the
    address of the object, [reinterpret_cast<std::uintptr_t>(function)];
    [comment] is the sequence of texts appended so far. *)
Record Function := {
  identity : N;
  entry : option BasicBlock;
  name : string;
  comment : list string
}.

(** [core::Module]: the symbol name at an address (empty when there is
    none) and the demangler. *)
Record CoreModule := {
  getName : Z -> string;
  demangle : string -> string
}.

(** Lowercase hexadecimal digits of a number, most significant first, no
    leading zero: what [QString::arg(n, 0, 16)] substitutes for [%1]. *)
Definition hex (n : N) : string :=
  match n with
  | N0 => "0"%string
  | Npos p => HexString.Raw.of_pos p ""%string
  end.

(** For base 16 [QString::arg] reads a 64-bit integer as unsigned. *)
Definition hexOfAddress (a : Z) : string :=
  hex (Z.to_N (a mod 2 ^ 64)).

(** [QString::contains(QChar)]. *)
Fixpoint contains (s : string) (c : Ascii.ascii) : bool :=
  match s with
  | EmptyString => false
  | String c' s' => if decide (c' = c) then true else contains s' c
  end.

Definition isEmpty (s : string) : bool :=
  match s with EmptyString => true | _ => false end.

Definition setName (f : Function) (n : string) : Function :=
  {| identity := identity f; entry := entry f; name := n; comment := comment f |}.

Definition appendComment (f : Function) (text : string) : Function :=
  {| identity := identity f; entry := entry f; name := name f;
     comment := comment f ++ [text] |}.

Section PickFunctionName.

(** [likec::Tree::cleanName]. *)
Variable cleanName : string -> string.

(** [context.module()]. *)
Variable module : CoreModule.

(** [MasterAnalyzer::pickFunctionName] (lines 98-125).  The first branch
    is taken when [function->entry()] is not null and its [address()]
    holds a value. *)
Definition pickFunctionName (function : Function) : Function :=
  match entry function with
  | Some (Build_BasicBlock (Some a)) =>
    let name := getName module a in
    if negb (isEmpty name) then
      let cleanName := cleanName name in
      let function := setName function cleanName in
      let function :=
        if decide (name ≠ cleanName) then appendComment function name
        else function in
      let demangledName := demangle module name in
      if contains demangledName "("%char
      then appendComment function demangledName
      else function
    else
      setName function ("func_" +:+ hexOfAddress a)
  | _ =>
    setName function ("func_noentry_" +:+ hex (identity function))
  end.

End PickFunctionName.

End Naming.

(* ================================================================== *)
(** * The pipeline controller: [MasterAnalyzer.cpp]                    *)
(* ================================================================== *)

Module Pipeline.

(** The artifact slots of [Context] that the controller sets. *)
Inductive Slot :=
| Program | Functions | Conventions | Signatures | Hooks | Dataflows
| Variables | Graphs | Livenesses | Types | Tree | TermToFunction.

#[global] Instance Slot_eq_dec : EqDecision Slot.
Proof. solve_decision. Defined.

(** The collaborators the controller constructs and runs. *)
Inductive Analyzer :=
| IRGenerator | FunctionsGenerator | DataflowAnalyzer | SignatureAnalyzer
| VariableAnalyzer | GraphBuilder | StructureAnalyzer | LivenessAnalyzer
| TypeAnalyzer | CodeGenerator | TreeChecker.

(** What the controller does that can be seen from outside, in order:
    messages to the log token, polls of the cancellation token, calls of
    [Context::setX] with the object installed, and runs of a
    collaborator (for one function, or for all). *)
Inductive Event :=
| Log (message : string)
| Poll
| Set_ (slot : Slot) (object : nat)
| Run (analyzer : Analyzer) (function : option N).

(** [calling::Hooks] holds references to the [Conventions] and
    [Signatures] it was constructed with. *)
Record HooksObject := {
  hooksId : nat;
  conventionsRef : nat;
  signaturesRef : nat
}.

(** [ir::Functions]: the list of functions. *)
Record FunctionsObject := {
  functionsId : nat;
  list_ : list Naming.Function
}.

(** [Dataflows], [Graphs], [Livenesses]: a map from function (pointer)
    to the object made for it. *)
Record PerFunction := {
  mapId : nat;
  entries : gmap N nat
}.

(** [core::Context]: one [unique_ptr] per slot, null when unset.  The
    module is taken as given: [decompile] is run on a context with its
    module set. *)
Record Context := {
  module : Naming.CoreModule;
  program : option nat;
  functions : option FunctionsObject;
  conventions : option nat;
  signatures : option nat;
  hooks : option HooksObject;
  dataflows : option PerFunction;
  variables : option nat;
  graphs : option PerFunction;
  livenesses : option PerFunction;
  types : option nat;
  tree : option nat;
  termToFunction : option nat
}.

(** What a run depends on besides the [Context]: the functions that
    [FunctionsGenerator] finds, [likec::Tree::cleanName], the build flag
    [NC_TREE_CHECKS], and the cancellation token, which another thread
    may set at any time: [cancelled n] tells whether it is found set
    when [n] events have happened. *)
Record Environment := {
  makeFunctions : list Naming.Function;
  cleanName : string -> string;
  NC_TREE_CHECKS : bool;
  cancelled : nat -> bool
}.

Record PState := {
  context : Context;
  nextObject : nat;
  trace : list Event
}.

(** A [CancellationException], the dereference of a null [unique_ptr],
    or the [std::out_of_range] of [at()]. *)
Inductive Error := Cancelled | NullPointer | OutOfRange.

Inductive Res (A : Type) :=
| Ok (a : A) (s : PState)
| Raise (e : Error) (s : PState).

Arguments Ok {A} a s.
Arguments Raise {A} e s.

Definition M (A : Type) : Type := PState -> Res A.

#[global] Instance M_ret : MRet M := fun A a s => Ok a s.

#[global] Instance M_bind : MBind M := fun A B f m s =>
  match m s with
  | Ok a s' => f a s'
  | Raise e s' => Raise e s'
  end.

Definition final {A} (r : Res A) : PState :=
  match r with Ok _ s => s | Raise _ s => s end.

Definition emit (e : Event) : M unit :=
  fun s => Ok tt {| context := context s; nextObject := nextObject s;
                    trace := trace s ++ [e] |}.

Definition raise {A} (e : Error) : M A := fun s => Raise e s.

Definition getContext : M Context := fun s => Ok (context s) s.

Definition modifyContext (f : Context -> Context) : M unit :=
  fun s => Ok tt {| context := f (context s); nextObject := nextObject s;
                    trace := trace s |}.

(** [new] / [std::make_unique]: an object no other is identical to. *)
Definition new : M nat :=
  fun s => Ok (nextObject s)
              {| context := context s; nextObject := S (nextObject s);
                 trace := trace s |}.

(** [*ptr] and [ptr->] on a slot. *)
Definition deref {A} (slot : Context -> option A) : M A :=
  c ← getContext;
  match slot c with
  | Some a => mret a
  | None => raise NullPointer
  end.

(** [map->at(function)]. *)
Definition at_ (m : PerFunction) (function : N) : M nat :=
  match entries m !! function with
  | Some a => mret a
  | None => raise OutOfRange
  end.

(** [map->emplace(function, object)]: no effect on a key already there. *)
Definition emplace (m : PerFunction) (function : N) (object : nat) : PerFunction :=
  match entries m !! function with
  | Some _ => m
  | None => {| mapId := mapId m; entries := <[function := object]> (entries m) |}
  end.

Fixpoint foreach {A : Type} (l : list A) (body : A -> M unit) : M unit :=
  match l with
  | [] => mret tt
  | x :: l' => body x;; foreach l' body
  end.

Definition logToken (message : string) : M unit := emit (Log message).

(** The setters of [Context]. *)
Definition setProgram (o : nat) : M unit :=
  modifyContext (fun c =>
    {| module := module c; program := Some o; functions := functions c;
       conventions := conventions c; signatures := signatures c;
       hooks := hooks c; dataflows := dataflows c; variables := variables c;
       graphs := graphs c; livenesses := livenesses c; types := types c;
       tree := tree c; termToFunction := termToFunction c |});;
  emit (Set_ Program o).

Definition setFunctions (o : FunctionsObject) : M unit :=
  modifyContext (fun c =>
    {| module := module c; program := program c; functions := Some o;
       conventions := conventions c; signatures := signatures c;
       hooks := hooks c; dataflows := dataflows c; variables := variables c;
       graphs := graphs c; livenesses := livenesses c; types := types c;
       tree := tree c; termToFunction := termToFunction c |});;
  emit (Set_ Functions (functionsId o)).

Definition setConventions (o : nat) : M unit :=
  modifyContext (fun c =>
    {| module := module c; program := program c; functions := functions c;
       conventions := Some o; signatures := signatures c;
       hooks := hooks c; dataflows := dataflows c; variables := variables c;
       graphs := graphs c; livenesses := livenesses c; types := types c;
       tree := tree c; termToFunction := termToFunction c |});;
  emit (Set_ Conventions o).

Definition setSignatures (o : nat) : M unit :=
  modifyContext (fun c =>
    {| module := module c; program := program c; functions := functions c;
       conventions := conventions c; signatures := Some o;
       hooks := hooks c; dataflows := dataflows c; variables := variables c;
       graphs := graphs c; livenesses := livenesses c; types := types c;
       tree := tree c; termToFunction := termToFunction c |});;
  emit (Set_ Signatures o).

Definition setHooks (o : HooksObject) : M unit :=
  modifyContext (fun c =>
    {| module := module c; program := program c; functions := functions c;
       conventions := conventions c; signatures := signatures c;
       hooks := Some o; dataflows := dataflows c; variables := variables c;
       graphs := graphs c; livenesses := livenesses c; types := types c;
       tree := tree c; termToFunction := termToFunction c |});;
  emit (Set_ Hooks (hooksId o)).

(** The [Dataflows] the slot points to becomes [o]: what a change made
    through the pointer ([emplace]) does, and the first half of
    [setDataflows].  Likewise for [Graphs] and [Livenesses] below. *)
Definition putDataflows (o : PerFunction) : M unit :=
  modifyContext (fun c =>
    {| module := module c; program := program c; functions := functions c;
       conventions := conventions c; signatures := signatures c;
       hooks := hooks c; dataflows := Some o; variables := variables c;
       graphs := graphs c; livenesses := livenesses c; types := types c;
       tree := tree c; termToFunction := termToFunction c |}).

Definition setDataflows (o : PerFunction) : M unit :=
  putDataflows o;; emit (Set_ Dataflows (mapId o)).

Definition setVariables (o : nat) : M unit :=
  modifyContext (fun c =>
    {| module := module c; program := program c; functions := functions c;
       conventions := conventions c; signatures := signatures c;
       hooks := hooks c; dataflows := dataflows c; variables := Some o;
       graphs := graphs c; livenesses := livenesses c; types := types c;
       tree := tree c; termToFunction := termToFunction c |});;
  emit (Set_ Variables o).

Definition putGraphs (o : PerFunction) : M unit :=
  modifyContext (fun c =>
    {| module := module c; program := program c; functions := functions c;
       conventions := conventions c; signatures := signatures c;
       hooks := hooks c; dataflows := dataflows c; variables := variables c;
       graphs := Some o; livenesses := livenesses c; types := types c;
       tree := tree c; termToFunction := termToFunction c |}).

Definition setGraphs (o : PerFunction) : M unit :=
  putGraphs o;; emit (Set_ Graphs (mapId o)).

Definition putLivenesses (o : PerFunction) : M unit :=
  modifyContext (fun c =>
    {| module := module c; program := program c; functions := functions c;
       conventions := conventions c; signatures := signatures c;
       hooks := hooks c; dataflows := dataflows c; variables := variables c;
       graphs := graphs c; livenesses := Some o; types := types c;
       tree := tree c; termToFunction := termToFunction c |}).

Definition setLivenesses (o : PerFunction) : M unit :=
  putLivenesses o;; emit (Set_ Livenesses (mapId o)).

Definition setTypes (o : nat) : M unit :=
  modifyContext (fun c =>
    {| module := module c; program := program c; functions := functions c;
       conventions := conventions c; signatures := signatures c;
       hooks := hooks c; dataflows := dataflows c; variables := variables c;
       graphs := graphs c; livenesses := livenesses c; types := Some o;
       tree := tree c; termToFunction := termToFunction c |});;
  emit (Set_ Types o).

Definition setTree (o : nat) : M unit :=
  modifyContext (fun c =>
    {| module := module c; program := program c; functions := functions c;
       conventions := conventions c; signatures := signatures c;
       hooks := hooks c; dataflows := dataflows c; variables := variables c;
       graphs := graphs c; livenesses := livenesses c; types := types c;
       tree := Some o; termToFunction := termToFunction c |});;
  emit (Set_ Tree o).

Definition setTermToFunction (o : nat) : M unit :=
  modifyContext (fun c =>
    {| module := module c; program := program c; functions := functions c;
       conventions := conventions c; signatures := signatures c;
       hooks := hooks c; dataflows := dataflows c; variables := variables c;
       graphs := graphs c; livenesses := livenesses c; types := types c;
       tree := tree c; termToFunction := Some o |});;
  emit (Set_ TermToFunction o).

Section MasterAnalyzer.

Variable env : Environment.

(** The test of the token: a [CancellationException] when it is set. *)
Definition throwIfCancelled : M unit :=
  fun s => if cancelled env (length (trace s)) then Raise Cancelled s
           else Ok tt s.

(** [context.cancellationToken().poll()]. *)
Definition poll : M unit :=
  emit Poll;; throwIfCancelled.

(** A collaborator at work: the controller sees that it was run.  What
    goes on inside it is not the controller's: an assertion of its own
    that stops it (as in [LivenessAnalyzer::analyze]) is not a result
    this model gives. *)
Definition run (a : Analyzer) (function : option N) : M unit :=
  emit (Run a function).

(** A collaborator that is given the cancellation token polls it at its
    own points and lets the exception through. *)
Definition runCancellable (a : Analyzer) (function : option N) : M unit :=
  emit (Run a function);; throwIfCancelled.

(** [createProgram] (lines 73-82). *)
Definition createProgram : M unit :=
  logToken "Creating intermediate representation of the program.";;
  program ← new;
  runCancellable IRGenerator None;;
  setProgram program.

(** [createFunctions] (lines 84-96): the loop over the functions picks
    their names and does not poll. *)
Definition createFunctions : M unit :=
  logToken "Creating functions.";;
  functions ← new;
  _ ← deref program;
  run FunctionsGenerator None;;
  c ← getContext;
  setFunctions
    {| functionsId := functions;
       list_ := Naming.pickFunctionName (cleanName env) (module c)
                  <$> makeFunctions env |}.

(** [dataflowAnalysis] for one function (lines 154-163). *)
Definition dataflowAnalysisOf (function : Naming.Function) : M unit :=
  logToken ("Dataflow analysis of " +:+ Naming.name function +:+ ".");;
  dataflow ← new;
  runCancellable DataflowAnalyzer (Some (Naming.identity function));;
  dataflows ← deref dataflows;
  putDataflows (emplace dataflows (Naming.identity function) dataflow).

(** [dataflowAnalysis] (lines 131-152).  The convention detector given
    to the new [Hooks] calls [detectCallingConvention], which does
    nothing (lines 127-129). *)
Definition dataflowAnalysis : M unit :=
  logToken "Dataflow analysis.";;
  c ← getContext;
  (if signatures c is None then s ← new; setSignatures s else mret tt);;
  c ← getContext;
  (if conventions c is None then s ← new; setConventions s else mret tt);;
  h ← new;
  conventions ← deref conventions;
  signatures ← deref signatures;
  setHooks {| hooksId := h; conventionsRef := conventions;
              signaturesRef := signatures |};;
  d ← new;
  setDataflows {| mapId := d; entries := ∅ |};;
  functions ← deref functions;
  foreach (list_ functions) (fun function =>
    dataflowAnalysisOf function;;
    poll).

(** [reconstructSignatures] (lines 165-174): the analyzer fills a new
    [Signatures], which is then installed. *)
Definition reconstructSignatures : M unit :=
  logToken "Reconstructing function signatures.";;
  signatures ← new;
  _ ← deref dataflows;
  _ ← deref hooks;
  runCancellable SignatureAnalyzer None;;
  setSignatures signatures.

(** [reconstructVariables] (lines 176-184). *)
Definition reconstructVariables : M unit :=
  logToken "Reconstructing variables.";;
  variables ← new;
  _ ← deref dataflows;
  run VariableAnalyzer None;;
  setVariables variables.

(** [livenessAnalysis] for one function (lines 196-207). *)
Definition livenessAnalysisOf (function : Naming.Function) : M unit :=
  logToken ("Liveness analysis of " +:+ Naming.name function +:+ ".");;
  liveness ← new;
  dataflows ← deref dataflows;
  _ ← at_ dataflows (Naming.identity function);
  graphs ← deref graphs;
  _ ← at_ graphs (Naming.identity function);
  _ ← deref hooks;
  _ ← deref signatures;
  run LivenessAnalyzer (Some (Naming.identity function));;
  livenesses ← deref livenesses;
  putLivenesses (emplace livenesses (Naming.identity function) liveness).

(** [livenessAnalysis] (lines 186-194). *)
Definition livenessAnalysis : M unit :=
  logToken "Liveness analysis.";;
  l ← new;
  setLivenesses {| mapId := l; entries := ∅ |};;
  functions ← deref functions;
  foreach (list_ functions) (fun function =>
    livenessAnalysisOf function).

(** [reconstructTypes] (lines 209-220). *)
Definition reconstructTypes : M unit :=
  logToken "Reconstructing types.";;
  types ← new;
  _ ← deref functions;
  _ ← deref dataflows;
  _ ← deref variables;
  _ ← deref livenesses;
  _ ← deref hooks;
  _ ← deref signatures;
  runCancellable TypeAnalyzer None;;
  setTypes types.

(** [structuralAnalysis] for one function (lines 233-242). *)
Definition structuralAnalysisOf (function : Naming.Function) : M unit :=
  logToken ("Structural analysis of " +:+ Naming.name function +:+ ".");;
  graph ← new;
  run GraphBuilder (Some (Naming.identity function));;
  dataflows ← deref dataflows;
  _ ← at_ dataflows (Naming.identity function);
  run StructureAnalyzer (Some (Naming.identity function));;
  graphs ← deref graphs;
  putGraphs (emplace graphs (Naming.identity function) graph).

(** [structuralAnalysis] (lines 222-231). *)
Definition structuralAnalysis : M unit :=
  logToken "Structural analysis.";;
  g ← new;
  setGraphs {| mapId := g; entries := ∅ |};;
  functions ← deref functions;
  foreach (list_ functions) (fun function =>
    structuralAnalysisOf function;;
    poll).

(** [generateTree] (lines 244-255). *)
Definition generateTree : M unit :=
  logToken "Generating AST.";;
  tree ← new;
  _ ← deref functions;
  _ ← deref hooks;
  _ ← deref signatures;
  _ ← deref dataflows;
  _ ← deref variables;
  _ ← deref graphs;
  _ ← deref livenesses;
  _ ← deref types;
  runCancellable CodeGenerator None;;
  setTree tree.

(** [checkTree] (lines 258-302), compiled under [NC_TREE_CHECKS]: it
    reads the functions and the tree and sets nothing.  The visitor it
    runs over the tree, with the asserts of lines 275-283, is the
    collaborator [TreeChecker]. *)
Definition checkTree : M unit :=
  logToken "Checking AST.";;
  _ ← deref functions;
  _ ← deref tree;
  run TreeChecker None.

(** [computeTermToFunctionMapping] (lines 305-310). *)
Definition computeTermToFunctionMapping : M unit :=
  logToken "Computing term to function mapping.";;
  t ← new;
  setTermToFunction t.

(** [decompile] (lines 312-354). *)
Definition decompile : M unit :=
  logToken "Decompiling.";;
  createProgram;; poll;;
  createFunctions;; poll;;
  dataflowAnalysis;; poll;;
  reconstructSignatures;; poll;;
  dataflowAnalysis;; poll;;
  reconstructVariables;; poll;;
  structuralAnalysis;; poll;;
  livenessAnalysis;; poll;;
  reconstructTypes;; poll;;
  generateTree;; poll;;
  (if NC_TREE_CHECKS env then checkTree;; poll else mret tt);;
  computeTermToFunctionMapping;; poll;;
  logToken "Decompilation completed.".

End MasterAnalyzer.

(** A [Context] with only its module set, as [decompile] expects it. *)
Definition newContext (m : Naming.CoreModule) : Context :=
  {| module := m; program := None; functions := None; conventions := None;
     signatures := None; hooks := None; dataflows := None;
     variables := None; graphs := None; livenesses := None; types := None;
     tree := None; termToFunction := None |}.

Definition start (c : Context) : PState :=
  {| context := c; nextObject := 0; trace := [] |}.

(** The number of times [setX] was called for a slot. *)
Definition isSet (slot : Slot) (e : Event) : bool :=
  match e with
  | Set_ slot' _ => bool_decide (slot' = slot)
  | _ => false
  end.

Definition writes (slot : Slot) (t : list Event) : nat :=
  length (filter (fun e => isSet slot e = true) t).

End Pipeline.


(* ================================================================== *)
(** * Example inputs                                                   *)
(* ================================================================== *)

Module Examples.

Import Liveness.

Definition register (n : Z) : MemoryLocation :=
  {| domain := 1; addr := n; size := 32 |}.

Definition global (n : Z) : MemoryLocation :=
  {| domain := 0; addr := n; size := 32 |}.

Definition term (c : TermClass) (a : AccessType) (s : option nat) : Term :=
  {| termClass := c; accessType := a; source := s |}.

(** A function with a store through an unresolved pointer, a store to
    global memory, a conditional jump, a call with one argument, a
    return, and the bounds check of a switch:
<<
    1: const            2: *[3] := [1]       3: read r1 (defined by 4)
    4: r1 := [5]        5: const             6: [7] < [8]
    7: read r2          8: const             9: call target
   10: argument, read r3 (defined by 11)    11: r3 := [12]
   12: -[13]           13: const            14: choice([15], [16])
   15: read r4         16: const            17: global := [14]
   18: a term of a kind unknown to the analyzer
   20: [21] < [22], the condition of the bounds check
   21: read r5         22: const            23: r6 := [20]
   24: read r6 (defined by 23)              25: r7 := [24]
>>
*)
Definition exampleTerms : gmap nat Term :=
  list_to_map [
    (1, term IntConst READ None);
    (2, term (Dereference (Some 3)) WRITE (Some 1));
    (3, term (MemoryLocationAccess (register 1)) READ None);
    (4, term (MemoryLocationAccess (register 1)) WRITE (Some 5));
    (5, term IntConst READ None);
    (6, term (BinaryOperator (Some 7) (Some 8)) READ None);
    (7, term (MemoryLocationAccess (register 2)) READ None);
    (8, term IntConst READ None);
    (9, term IntConst READ None);
    (10, term (MemoryLocationAccess (register 3)) READ None);
    (11, term (MemoryLocationAccess (register 3)) WRITE (Some 12));
    (12, term (UnaryOperator (Some 13)) READ None);
    (13, term IntConst READ None);
    (14, term (Choice (Some 15) (Some 16)) READ None);
    (15, term (MemoryLocationAccess (register 4)) READ None);
    (16, term IntConst READ None);
    (17, term (MemoryLocationAccess (global 4096)) WRITE (Some 14));
    (18, term (OtherTerm 1000) READ None);
    (20, term (BinaryOperator (Some 21) (Some 22)) READ None);
    (21, term (MemoryLocationAccess (register 5)) READ None);
    (22, term IntConst READ None);
    (23, term (MemoryLocationAccess (register 6)) WRITE (Some 20));
    (24, term (MemoryLocationAccess (register 6)) READ None);
    (25, term (MemoryLocationAccess (register 7)) WRITE (Some 24))
  ].

Definition exampleStatements : gmap nat Statement :=
  list_to_map [
    (100, Jump (Some 6) {| targetAddress := Some 8 |} {| targetAddress := None |});
    (101, Call (Some 9));
    (102, Return);
    (103, Jump (Some 20) {| targetAddress := None |} {| targetAddress := None |});
    (104, OtherStatement 99);
    (105, Assignment)
  ].

Definition exampleFunction : Function :=
  {| terms := exampleTerms;
     statements := exampleStatements;
     censusStatements := [100; 101; 102; 103; 104; 105];
     censusTerms := [1; 2; 3; 4; 5; 6; 7; 8; 9; 10; 11; 12; 13; 14; 15; 16;
                     17; 18; 20; 21; 22; 23; 24; 25];
     getReturns := [102] |}.

Definition exampleDataflow : Dataflow :=
  {| getMemoryLocation := fun t =>
       match t with
       | 2 => None
       | _ => Some (register 0)
       end;
     getDefinitions := fun p =>
       match p with
       | Some 3 => [{| chunkLocation := register 1; definitions := [Some 4] |}]
       | Some 10 => [{| chunkLocation := register 3; definitions := [Some 11] |}]
       | Some 24 => [{| chunkLocation := register 6; definitions := [Some 23] |}]
       | _ => []
       end;
     isConcrete := fun _ => false |}.

Definition exampleHooks : Hooks :=
  {| getCalleeIdOfFunction := Some 1;
     getCalleeId := fun s => match s with 101 => Some 2 | _ => None end;
     getCallHook := fun s =>
       match s with
       | 101 => Some {| getArgumentTerm := fun _ => Some 10 |}
       | _ => None
       end;
     getReturnHook := fun s =>
       match s with
       | 102 => Some {| getReturnValueTerm := fun _ => Some 14 |}
       | _ => None
       end |}.

Definition exampleSignatures : gmap nat Signature :=
  list_to_map [
    (1, {| arguments := []; returnValue := Some (register 0) |});
    (2, {| arguments := [register 3]; returnValue := None |})
  ].

Definition exampleGraph : list Node :=
  [ NodeBasic {| basicBlock := {| getJump := Some 100 |} |};
    NodeRegion (Switch (Some {| basicBlock := {| getJump := Some 103 |} |}));
    NodeRegion (OtherRegion 2);
    NodeRegion (Switch None) ].

Definition exampleAnalyzer : LivenessAnalyzer :=
  {| function := exampleFunction;
     dataflow := exampleDataflow;
     isGlobalMemory := fun l => bool_decide (domain l = 0%Z);
     regionGraph := exampleGraph;
     hooks := exampleHooks;
     signatures := exampleSignatures |}.

(** The same function with term 25 a store to global memory: its value
    comes, through 24 and 23, from the condition of the bounds check. *)
Definition storingFunction : Function :=
  {| terms :=
       <[25 := term (MemoryLocationAccess (global 8192)) WRITE (Some 24)]>
         exampleTerms;
     statements := exampleStatements;
     censusStatements := censusStatements exampleFunction;
     censusTerms := censusTerms exampleFunction;
     getReturns := [102] |}.

Definition storingAnalyzer : LivenessAnalyzer :=
  {| function := storingFunction;
     dataflow := exampleDataflow;
     isGlobalMemory := fun l => bool_decide (domain l = 0%Z);
     regionGraph := exampleGraph;
     hooks := exampleHooks;
     signatures := exampleSignatures |}.

(** And with a dataflow in which the value read by term 24 is concrete. *)
Definition concreteDataflow : Dataflow :=
  {| getMemoryLocation := getMemoryLocation exampleDataflow;
     getDefinitions := getDefinitions exampleDataflow;
     isConcrete := fun t => match t with 24 => true | _ => false end |}.

Definition concreteAnalyzer : LivenessAnalyzer :=
  {| function := storingFunction;
     dataflow := concreteDataflow;
     isGlobalMemory := fun l => bool_decide (domain l = 0%Z);
     regionGraph := exampleGraph;
     hooks := exampleHooks;
     signatures := exampleSignatures |}.

(** The example with a dataflow in which the value read by term 18, a
    term of a kind unknown to the analyzer, is concrete. *)
Definition unknownConcreteAnalyzer : LivenessAnalyzer :=
  {| function := exampleFunction;
     dataflow :=
       {| getMemoryLocation := getMemoryLocation exampleDataflow;
          getDefinitions := getDefinitions exampleDataflow;
          isConcrete := fun t => match t with 18 => true | _ => false end |};
     isGlobalMemory := fun l => bool_decide (domain l = 0%Z);
     regionGraph := exampleGraph;
     hooks := exampleHooks;
     signatures := exampleSignatures |}.

(** A function whose only statement is a call with a null target. *)
Definition nullTargetAnalyzer : LivenessAnalyzer :=
  {| function :=
       {| terms := ∅;
          statements := {[ 100 := Call None ]};
          censusStatements := [100];
          censusTerms := [];
          getReturns := [] |};
     dataflow := exampleDataflow;
     isGlobalMemory := fun _ => false;
     regionGraph := [];
     hooks := exampleHooks;
     signatures := ∅ |}.

(** The [Liveness] and the other members after [analyze], when it
    returns. *)
Definition result (o : Outcome) : State :=
  match o with Done st => st | _ => newState end.


(** ** A module, two functions and two runs of the pipeline *)

(** A module that knows the symbol at one address. *)
Definition exampleModule : Naming.CoreModule :=
  {| Naming.getName := fun a =>
       if decide (a = 4198400%Z) then "_Z3fooi"%string else ""%string;
     Naming.demangle := fun s =>
       if decide (s = "_Z3fooi"%string) then "foo(int)"%string else s |}.

(** A function at address [0xff] with no symbol, one with no entry
    address, and one at [0x401000], where the symbol is. *)
Definition functionAt255 : Naming.Function :=
  {| Naming.identity := 4096;
     Naming.entry := Some {| Naming.address := Some 255%Z |};
     Naming.name := ""; Naming.comment := [] |}.

Definition functionNoEntry : Naming.Function :=
  {| Naming.identity := 8192;
     Naming.entry := None;
     Naming.name := ""; Naming.comment := [] |}.

Definition functionFoo : Naming.Function :=
  {| Naming.identity := 12288;
     Naming.entry := Some {| Naming.address := Some 4198400%Z |};
     Naming.name := ""; Naming.comment := [] |}.

(** [cleanName] that replaces nothing. *)
Definition keepName (s : string) : string := s.

(** A run that is never cancelled. *)
Definition exampleEnvironment : Pipeline.Environment :=
  {| Pipeline.makeFunctions := [functionAt255; functionNoEntry];
     Pipeline.cleanName := keepName;
     Pipeline.NC_TREE_CHECKS := false;
     Pipeline.cancelled := fun _ => false |}.

(** The run up to the end of structural analysis: the state in which
    liveness analysis starts. *)
Definition beforeLiveness : Pipeline.PState :=
  Pipeline.final
    ((Pipeline.createProgram exampleEnvironment;;
      Pipeline.createFunctions exampleEnvironment;;
      Pipeline.dataflowAnalysis exampleEnvironment;;
      Pipeline.reconstructSignatures exampleEnvironment;;
      Pipeline.dataflowAnalysis exampleEnvironment;;
      Pipeline.reconstructVariables;;
      Pipeline.structuralAnalysis exampleEnvironment : Pipeline.M unit)
       (Pipeline.start (Pipeline.newContext exampleModule))).

(** The state in which structural analysis starts, and the token set
    once it has started. *)
Definition beforeStructure : Pipeline.PState :=
  Pipeline.final
    ((Pipeline.createProgram exampleEnvironment;;
      Pipeline.createFunctions exampleEnvironment;;
      Pipeline.dataflowAnalysis exampleEnvironment;;
      Pipeline.reconstructSignatures exampleEnvironment;;
      Pipeline.dataflowAnalysis exampleEnvironment;;
      Pipeline.reconstructVariables : Pipeline.M unit)
       (Pipeline.start (Pipeline.newContext exampleModule))).

Definition cancelledDuringStructure : Pipeline.Environment :=
  {| Pipeline.makeFunctions := [functionAt255; functionNoEntry];
     Pipeline.cleanName := keepName;
     Pipeline.NC_TREE_CHECKS := false;
     Pipeline.cancelled := fun n =>
       bool_decide (length (Pipeline.trace beforeStructure) < n) |}.

(** The state after signature reconstruction. *)
Definition afterReconstruction : Pipeline.PState :=
  Pipeline.final
    ((Pipeline.createProgram exampleEnvironment;;
      Pipeline.createFunctions exampleEnvironment;;
      Pipeline.dataflowAnalysis exampleEnvironment;;
      Pipeline.reconstructSignatures exampleEnvironment : Pipeline.M unit)
       (Pipeline.start (Pipeline.newContext exampleModule))).
End Examples.
Module LivenessProofs.

Import Liveness.

(** ** Sequencing and loops *)

Lemma seq_Done (a b : M) st st' :
  (a ;> b) st = Done st' <-> exists st1, a st = Done st1 /\ b st1 = Done st'.
Proof.
  unfold seq. split.
  - destruct (a st) eqn:E; try discriminate. eauto.
  - intros (st1 & -> & H). exact H.
Qed.

Lemma foreach_app {A} (l1 l2 : list A) (body : A -> M) st :
  foreach (l1 ++ l2) body st = (foreach l1 body ;> foreach l2 body) st.
Proof.
  revert st. induction l1 as [|x l1 IH]; intros st; simpl.
  - reflexivity.
  - unfold seq. destruct (body x st); try reflexivity.
    rewrite IH. reflexivity.
Qed.

Lemma foreach_concat {A B} (f : A -> list B) (l : list A) (body : B -> M) st :
  foreach (concat (map f l)) body st
  = foreach l (fun x => foreach (f x) body) st.
Proof.
  revert st. induction l as [|x l IH]; intros st; simpl.
  - reflexivity.
  - rewrite foreach_app. unfold seq. destruct (foreach (f x) body st); try reflexivity.
    apply IH.
Qed.

(** An action that only adds to the liveness set and leaves [deadJumps_]
    alone. *)
Definition Extends (m : M) : Prop :=
  forall st st', m st = Done st' ->
    liveness st ⊆ liveness st' /\ deadJumps_ st' = deadJumps_ st.

(** An action that never runs out of fuel. *)
Definition Fuelled (m : M) : Prop := forall st, m st <> OutOfFuel.

Lemma Extends_skip : Extends skip.
Proof. intros st st' [= <-]. done. Qed.

Lemma Extends_Done : Extends Done.
Proof. intros st st' [= <-]. done. Qed.

Lemma Extends_ncWarning msg : Extends (ncWarning msg).
Proof. intros st st' [= <-]. done. Qed.

Lemma Extends_seq a b : Extends a -> Extends b -> Extends (a ;> b).
Proof.
  intros Ha Hb st st' (st1 & H1 & H2)%seq_Done.
  destruct (Ha _ _ H1) as [? E1], (Hb _ _ H2) as [? E2].
  split; [set_solver | congruence].
Qed.

Lemma Extends_foreach {A} (l : list A) body :
  (forall x, x ∈ l -> Extends (body x)) -> Extends (foreach l body).
Proof.
  induction l as [|x l IH]; intros H; simpl.
  - apply Extends_skip.
  - apply Extends_seq; [apply H; left | apply IH; intros; apply H; by right].
Qed.

Lemma Fuelled_skip : Fuelled skip.
Proof. intros st. discriminate. Qed.

Lemma Fuelled_Done : Fuelled Done.
Proof. intros st. discriminate. Qed.

Lemma Fuelled_ncWarning msg : Fuelled (ncWarning msg).
Proof. intros st. discriminate. Qed.

Lemma Fuelled_seq a b : Fuelled a -> Fuelled b -> Fuelled (a ;> b).
Proof.
  intros Ha Hb st. unfold seq. specialize (Ha st).
  destruct (a st); [apply Hb | done..].
Qed.

Lemma Fuelled_foreach {A} (l : list A) body :
  (forall x, Fuelled (body x)) -> Fuelled (foreach l body).
Proof.
  intros H. induction l as [|x l IH]; simpl.
  - apply Fuelled_skip.
  - by apply Fuelled_seq.
Qed.

(** ** [std::sort] and [std::binary_search] *)

#[local] Instance ptr_le_total : Total ptr_le.
Proof. intros p q. unfold ptr_le. lia. Qed.

#[local] Instance ptr_le_trans : Transitive ptr_le.
Proof. intros p q r. unfold ptr_le. lia. Qed.

Lemma addressOf_inj p q : addressOf p = addressOf q -> p = q.
Proof. destruct p, q; simpl; intros; try lia; f_equal; lia. Qed.

Lemma sort_Sorted l : Sorted ptr_le (sort l).
Proof. apply Sorted_merge_sort, _. Qed.

Lemma sort_Permutation l : sort l ≡ₚ l.
Proof. apply merge_sort_Permutation. Qed.

Lemma sorted_lookup_le l i j x y :
  Sorted ptr_le l -> l !! i = Some x -> l !! j = Some y -> i <= j ->
  ptr_le x y.
Proof.
  intros Hs%Sorted_StronglySorted; [|apply _].
  revert i j. induction Hs as [|a l Hs IH Hall]; intros i j Hi Hj Hle.
  - done.
  - destruct i as [|i], j as [|j]; simpl in *.
    + simplify_eq. unfold ptr_le. lia.
    + simplify_eq. rewrite Forall_forall in Hall. apply Hall.
      eapply list_elem_of_lookup_2. eassumption.
    + lia.
    + eapply IH; eauto. lia.
Qed.

(** What [lower_bound] keeps true: everything before [first] is below
    [value], nothing from [first + count] on is. *)
Lemma lower_bound_spec fuel l first count value :
  Sorted ptr_le l ->
  count <= fuel -> first + count <= length l ->
  (forall i x, i < first -> l !! i = Some x -> ptr_ltb x value = true) ->
  (forall i x, first + count <= i -> l !! i = Some x -> ptr_ltb x value = false) ->
  let r := lower_bound fuel l first count value in
  r <= length l /\
  (forall i x, i < r -> l !! i = Some x -> ptr_ltb x value = true) /\
  (forall i x, r <= i -> l !! i = Some x -> ptr_ltb x value = false).
Proof.
  intros Hs. revert first count.
  induction fuel as [|fuel IH]; intros first count Hf Hlen Hlo Hhi;
    cbn [lower_bound]; cbv zeta.
  - assert (count = 0) by lia. subst. split; [lia|]. split; [done|].
    intros i x ? ?. apply (Hhi i); [lia | done].
  - destruct (Nat.eqb_spec count 0) as [->|Hc].
    + split; [lia|]. split; [done|]. intros i x ? ?. apply (Hhi i); [lia|done].
    + assert (Hstep : count / 2 < count) by (apply Nat.div_lt; lia).
      destruct (l !! (first + count / 2)) as [x|] eqn:Ex.
      2:{ apply lookup_ge_None in Ex. lia. }
      destruct (ptr_ltb x value) eqn:Elt.
      * apply (IH (S (first + count / 2)) (count - (count / 2 + 1))); [lia | lia | | ].
        -- intros i y Hi Hy.
           assert (ptr_le y x) by (eapply (sorted_lookup_le l i (first + count / 2)); eauto; lia).
           unfold ptr_ltb, ptr_le in *. apply Nat.ltb_lt. apply Nat.ltb_lt in Elt. lia.
        -- intros i y Hi Hy. apply (Hhi i); [lia | done].
      * apply (IH first (count / 2)); [lia | lia | done | ].
        intros i y Hi Hy.
        assert (ptr_le x y) by (eapply (sorted_lookup_le l (first + count / 2) i); eauto; lia).
        unfold ptr_ltb, ptr_le in *. apply Nat.ltb_ge. apply Nat.ltb_ge in Elt. lia.
Qed.

(** On a sorted sequence [std::binary_search] is membership. *)
Lemma binary_search_elem_of l value :
  Sorted ptr_le l -> binary_search l value = true <-> value ∈ l.
Proof.
  intros Hs. unfold binary_search.
  destruct (lower_bound_spec (length l) l 0 (length l) value Hs)
    as (Hr & Hlo & Hhi); [lia | lia | intros; lia | |].
  { intros i x Hi Hx. apply lookup_lt_Some in Hx. lia. }
  set (r := lower_bound (length l) l 0 (length l) value) in *.
  split.
  - destruct (l !! r) as [x|] eqn:Ex; [|done].
    intros Hn%negb_true_iff.
    specialize (Hhi r x (Nat.le_refl _) Ex).
    assert (x = value) as ->.
    { apply addressOf_inj. unfold ptr_ltb in *.
      apply Nat.ltb_ge in Hn, Hhi. lia. }
    eapply list_elem_of_lookup_2; eauto.
  - intros (i & Hi)%list_elem_of_lookup_1.
    assert (r <= i).
    { destruct (Nat.le_gt_cases r i); [done|].
      specialize (Hlo i value ltac:(lia) Hi). unfold ptr_ltb in Hlo.
      apply Nat.ltb_lt in Hlo. lia. }
    destruct (l !! r) as [x|] eqn:Ex.
    + apply negb_true_iff.
      assert (ptr_le x value) by (eapply (sorted_lookup_le l r i); eauto).
      unfold ptr_ltb, ptr_le in *. apply Nat.ltb_ge. lia.
    + apply lookup_ge_None in Ex. apply lookup_lt_Some in Hi. lia.
Qed.

(** ** Propagation *)

Section Propagation.

Variable NC_PREFER_CONSTANTS_TO_EXPRESSIONS : bool.
Variable self : LivenessAnalyzer.

#[local] Abbreviation makeLive_ := (makeLive_ NC_PREFER_CONSTANTS_TO_EXPRESSIONS self).
#[local] Abbreviation makeLive := (makeLive NC_PREFER_CONSTANTS_TO_EXPRESSIONS self).
#[local] Abbreviation propagateLiveness :=
  (propagateLiveness NC_PREFER_CONSTANTS_TO_EXPRESSIONS self).

(** A pointer that is not null and whose term is in the liveness set. *)
Definition isLive (st : State) (p : option nat) : Prop :=
  exists t, p = Some t /\ t ∈ liveness st.

(** Propagation is cut at a term when the build prefers constants, the
    term is a read and its dataflow value is concrete. *)
Definition cutAt (t : nat) (tm : Term) : bool :=
  NC_PREFER_CONSTANTS_TO_EXPRESSIONS && isRead tm && isConcrete (dataflow self) t.

(** The pointers of the dataflow chain of an access: the defining terms
    of every chunk for a read, the source (when there is one) for a
    write. *)
Definition chainOf (t : nat) (tm : Term) : list (option nat) :=
  if isRead tm then
    concat (map definitions (getDefinitions (dataflow self) (Some t)))
  else if isWrite tm then
    match source tm with Some s => [Some s] | None => [] end
  else [].

(** The pointers a term that has just become live passes on to
    [makeLive], in the order of the calls. *)
Definition passedOn (t : nat) (tm : Term) : list (option nat) :=
  if cutAt t tm then []
  else
    match termClass tm with
    | MemoryLocationAccess _ => chainOf t tm
    | Dereference address =>
      chainOf t tm ++
      match getMemoryLocation (dataflow self) t with
      | None => [address]
      | Some _ => []
      end
    | UnaryOperator operand => [operand]
    | BinaryOperator l r => [l; r]
    | Choice preferredTerm defaultTerm =>
      match getDefinitions (dataflow self) preferredTerm with
      | _ :: _ => [preferredTerm]
      | [] => [defaultTerm]
      end
    | _ => []
    end.

(** [propagateLiveness] is the loop of the calls-back over [passedOn],
    after at most a warning. *)
Lemma propagateLiveness_passedOn rec t tm st :
  terms (function self) !! t = Some tm ->
  exists st0,
    liveness st0 = liveness st /\ deadJumps_ st0 = deadJumps_ st /\
    propagateLiveness rec (Some t) st = foreach (passedOn t tm) rec st0.
Proof.
  intros Ht. unfold propagateLiveness, passedOn, cutAt. rewrite Ht.
  destruct (NC_PREFER_CONSTANTS_TO_EXPRESSIONS && isRead tm
            && isConcrete (dataflow self) t).
  { exists st. done. }
  destruct (termClass tm) as [| | |loc|a|o|l r|p d|k];
    try (exists st; split; [done|]; split; [done|]; reflexivity).
  - exists st. split; [done|]. split; [done|]. unfold chainOf.
    destruct (isRead tm).
    + by rewrite foreach_concat.
    + destruct (isWrite tm); [|done]. destruct (source tm); simpl; [|done].
      unfold seq. by destruct (rec (Some n) st).
  - exists st. split; [done|]. split; [done|]. rewrite foreach_app.
    unfold seq, chainOf.
    destruct (isRead tm).
    + rewrite foreach_concat.
      destruct (foreach _ _ st); try done.
      destruct (getMemoryLocation (dataflow self) t); simpl; [done|].
      unfold seq. by destruct (rec a st0).
    + destruct (isWrite tm).
      * destruct (source tm); simpl.
        -- unfold seq. destruct (rec (Some n) st); try done.
           destruct (getMemoryLocation (dataflow self) t); simpl; [done|].
           unfold seq. by destruct (rec a st0).
        -- destruct (getMemoryLocation (dataflow self) t); simpl; [done|].
           unfold seq. by destruct (rec a st).
      * simpl. destruct (getMemoryLocation (dataflow self) t); simpl; [done|].
        unfold seq. by destruct (rec a st).
  - exists st. split; [done|]. split; [done|]. simpl. unfold seq.
    by destruct (rec o st).
  - exists st. split; [done|]. split; [done|]. simpl. unfold seq.
    destruct (rec l st); try done. by destruct (rec r st0).
  - exists st. split; [done|]. split; [done|].
    destruct (getDefinitions (dataflow self) p); simpl; unfold seq.
    + by destruct (rec d st).
    + by destruct (rec p st).
  - eexists. split; [|split]; [| |reflexivity]; done.
Qed.

(** What one call of [makeLive] that returns has done: the set has
    grown, [deadJumps_] is as before, the argument is live, and every
    term that is new in the set has passed on only pointers now live. *)
Definition Sound (rec : option nat -> M) : Prop :=
  forall p st st', rec p st = Done st' ->
    liveness st ⊆ liveness st' /\ deadJumps_ st' = deadJumps_ st /\
    isLive st' p /\
    forall u, u ∈ liveness st' -> u ∉ liveness st ->
      exists tm, terms (function self) !! u = Some tm /\
                 forall q, q ∈ passedOn u tm -> isLive st' q.

Lemma isLive_mono st st' p :
  liveness st ⊆ liveness st' -> isLive st p -> isLive st' p.
Proof. intros Hsub (t & -> & Ht). exists t. split; [done | set_solver]. Qed.

Lemma foreach_Sound rec l st st' :
  Sound rec -> foreach l rec st = Done st' ->
  liveness st ⊆ liveness st' /\ deadJumps_ st' = deadJumps_ st /\
  (forall q, q ∈ l -> isLive st' q) /\
  forall u, u ∈ liveness st' -> u ∉ liveness st ->
    exists tm, terms (function self) !! u = Some tm /\
               forall q, q ∈ passedOn u tm -> isLive st' q.
Proof.
  intros Hrec. revert st. induction l as [|x l IH]; intros st; simpl.
  - intros [= <-]. split; [done|]. split; [done|]. split.
    + intros q Hq. inversion Hq.
    + intros u Hu Hn. done.
  - intros (st1 & H1 & H2)%seq_Done.
    destruct (Hrec _ _ _ H1) as (Hs1 & Hd1 & Hx & Hc1).
    destruct (IH _ H2) as (Hs2 & Hd2 & Hl & Hc2).
    split; [set_solver|]. split; [congruence|]. split.
    + intros q [->|Hq]%elem_of_cons; [by eapply isLive_mono | by apply Hl].
    + intros u Hu Hn. destruct (decide (u ∈ liveness st1)) as [Hu1|Hu1].
      * destruct (Hc1 u Hu1 Hn) as (tm & Htm & Hq). exists tm. split; [done|].
        intros q Hqin. eapply isLive_mono; [exact Hs2 | by apply Hq].
      * by apply Hc2.
Qed.

Lemma makeLive__Sound fuel : Sound (makeLive_ fuel).
Proof.
  induction fuel as [|fuel IH]; intros p st st'; simpl.
  - destruct p as [t|]; [|done]. destruct (decide (t ∈ liveness st)); [|done].
    intros [= <-]. split; [done|]. split; [done|]. split; [by exists t|].
    intros u Hu Hn. done.
  - destruct p as [t|]; [|done]. destruct (decide (t ∈ liveness st)) as [Hin|Hnin].
    { intros [= <-]. split; [done|]. split; [done|]. split; [by exists t|].
      intros u Hu Hn. done. }
    unfold seq, insertLive.
    set (st1 := {| liveness := {[t]} ∪ liveness st; deadJumps_ := deadJumps_ st;
                   warnings := warnings st |}).
    destruct (terms (function self) !! t) as [tm|] eqn:Et.
    2:{ unfold Liveness.propagateLiveness. rewrite Et. done. }
    destruct (propagateLiveness_passedOn (makeLive_ fuel) t tm st1 Et)
      as (st0 & Hl0 & Hd0 & ->).
    intros H. destruct (foreach_Sound _ _ _ _ IH H) as (Hs & Hd & Hl & Hc).
    rewrite Hl0 in Hs, Hc. simpl in Hs, Hc.
    split; [set_solver|]. split; [by rewrite Hd, Hd0|].
    split; [exists t; split; [done | set_solver]|].
    intros u Hu Hn. destruct (decide (u = t)) as [->|Hne].
    + exists tm. split; [done|]. exact Hl.
    + apply Hc; [done | set_solver].
Qed.

Lemma makeLive_Sound : Sound makeLive.
Proof. apply makeLive__Sound. Qed.

(** ** Fuel *)

(** The terms of the function not yet live. *)
Definition notYetLive (st : State) : gset nat :=
  dom (terms (function self)) ∖ liveness st.

Definition FuelFor (n : nat) (rec : option nat -> M) : Prop :=
  forall p st, base.size (notYetLive st) < n -> rec p st <> OutOfFuel.

Lemma notYetLive_mono st st' :
  liveness st ⊆ liveness st' ->
  base.size (notYetLive st') <= base.size (notYetLive st).
Proof. intros H. apply subseteq_size. unfold notYetLive. set_solver. Qed.

Lemma foreach_FuelFor n rec l st :
  Sound rec -> FuelFor n rec -> base.size (notYetLive st) < n ->
  foreach l rec st <> OutOfFuel.
Proof.
  intros Hs Hf. revert st. induction l as [|x l IH]; intros st Hn; simpl.
  - done.
  - unfold seq. destruct (rec x st) as [st1| | |] eqn:E; try done.
    + apply IH. destruct (Hs _ _ _ E) as (Hsub & _).
      pose proof (notYetLive_mono _ _ Hsub). lia.
    + by destruct (Hf x st Hn).
Qed.

Lemma makeLive__FuelFor fuel : FuelFor fuel (makeLive_ fuel).
Proof.
  induction fuel as [|fuel IH]; intros p st Hn; [lia|]. simpl.
  destruct p as [t|]; [|done]. destruct (decide (t ∈ liveness st)) as [|Hnin]; [done|].
  unfold seq, insertLive.
  set (st1 := {| liveness := {[t]} ∪ liveness st; deadJumps_ := deadJumps_ st;
                 warnings := warnings st |}).
  destruct (terms (function self) !! t) as [tm|] eqn:Et.
  2:{ unfold Liveness.propagateLiveness. rewrite Et. done. }
  destruct (propagateLiveness_passedOn (makeLive_ fuel) t tm st1 Et)
    as (st0 & Hl0 & Hd0 & ->).
  apply (foreach_FuelFor fuel); [apply makeLive__Sound | exact IH |].
  assert (base.size (notYetLive st0) < base.size (notYetLive st)); [|lia].
  apply subset_size. unfold notYetLive. rewrite Hl0. simpl.
  assert (t ∈ dom (terms (function self))) by (apply elem_of_dom; eauto).
  set_solver.
Qed.

(** [makeLive] has fuel enough in every state. *)
Lemma makeLive_fuel_enough p : Fuelled (makeLive p).
Proof.
  intros st. apply makeLive__FuelFor.
  assert (base.size (notYetLive st) <= base.size (dom (terms (function self)))).
  { apply subseteq_size. unfold notYetLive. set_solver. }
  rewrite size_dom in H. lia.
Qed.

Lemma makeLive_Extends p : Extends (makeLive p).
Proof. intros st st' H. destruct (makeLive_Sound _ _ _ H) as (? & ? & _). done. Qed.

End Propagation.


(** ** The phases of [analyze] *)

Section Analysis.

Variable NC_PREFER_CONSTANTS_TO_EXPRESSIONS : bool.
Variable self : LivenessAnalyzer.

#[local] Abbreviation makeLive := (makeLive NC_PREFER_CONSTANTS_TO_EXPRESSIONS self).
#[local] Abbreviation computeLivenessStatement :=
  (computeLivenessStatement NC_PREFER_CONSTANTS_TO_EXPRESSIONS self).
#[local] Abbreviation computeLivenessTerm :=
  (computeLivenessTerm NC_PREFER_CONSTANTS_TO_EXPRESSIONS self).
#[local] Abbreviation seedReturnValues :=
  (seedReturnValues NC_PREFER_CONSTANTS_TO_EXPRESSIONS self).
#[local] Abbreviation analyze := (analyze NC_PREFER_CONSTANTS_TO_EXPRESSIONS self).
#[local] Abbreviation passedOn := (passedOn NC_PREFER_CONSTANTS_TO_EXPRESSIONS self).

(** Every live term has passed on only pointers that are live. *)
Definition closed (st : State) : Prop :=
  forall u, u ∈ liveness st ->
    exists tm, terms (function self) !! u = Some tm /\
               forall q, q ∈ passedOn u tm -> isLive st q.

Definition Closes (m : M) : Prop :=
  forall st st', closed st -> m st = Done st' -> closed st'.

Lemma Closes_Done : Closes Done.
Proof. intros st st' H [= <-]. done. Qed.

Lemma Closes_skip : Closes skip.
Proof. apply Closes_Done. Qed.

Lemma Closes_ncWarning msg : Closes (ncWarning msg).
Proof. intros st st' H [= <-]. exact H. Qed.

Lemma Closes_seq a b : Closes a -> Closes b -> Closes (a ;> b).
Proof. intros Ha Hb st st' H (st1 & H1 & H2)%seq_Done. eauto. Qed.

Lemma Closes_foreach {A} (l : list A) body :
  (forall x, Closes (body x)) -> Closes (foreach l body).
Proof.
  intros H. induction l as [|x l IH]; simpl.
  - apply Closes_skip.
  - by apply Closes_seq.
Qed.

Lemma makeLive_Closes p : Closes (makeLive p).
Proof.
  intros st st' Hc H.
  destruct (makeLive_Sound _ _ _ _ _ H) as (Hs & _ & _ & Hnew).
  intros u Hu. destruct (decide (u ∈ liveness st)) as [Hin|Hnin].
  - destruct (Hc u Hin) as (tm & Htm & Hq). exists tm. split; [done|].
    intros q Hqin. eapply isLive_mono; [exact Hs | by apply Hq].
  - by apply Hnew.
Qed.

(** The three properties together, for the parts of [analyze] that leave
    [deadJumps_] alone. *)
Definition Seeds (m : M) : Prop := Extends m /\ Fuelled m /\ Closes m.

Lemma Seeds_Done : Seeds Done.
Proof. split; [apply Extends_Done | split; [apply Fuelled_Done | apply Closes_Done]]. Qed.

Lemma Seeds_skip : Seeds skip.
Proof. apply Seeds_Done. Qed.

Lemma Seeds_ncWarning msg : Seeds (ncWarning msg).
Proof.
  split; [apply Extends_ncWarning|].
  split; [apply Fuelled_ncWarning | apply Closes_ncWarning].
Qed.

Lemma Seeds_seq a b : Seeds a -> Seeds b -> Seeds (a ;> b).
Proof.
  intros (? & ? & ?) (? & ? & ?).
  split; [by apply Extends_seq|]. split; [by apply Fuelled_seq | by apply Closes_seq].
Qed.

Lemma Seeds_foreach {A} (l : list A) body :
  (forall x, Seeds (body x)) -> Seeds (foreach l body).
Proof.
  intros H. split; [|split].
  - apply Extends_foreach. intros x _. apply H.
  - apply Fuelled_foreach. intros x. apply H.
  - apply Closes_foreach. intros x. apply H.
Qed.

Lemma Seeds_makeLive p : Seeds (makeLive p).
Proof.
  split; [apply makeLive_Extends|].
  split; [apply makeLive_fuel_enough | apply makeLive_Closes].
Qed.

Lemma Seeds_ext (m m' : M) : (forall st, m st = m' st) -> Seeds m' -> Seeds m.
Proof.
  intros E (He & Hf & Hc). split; [|split].
  - intros st st'. rewrite E. apply He.
  - intros st. rewrite E. apply Hf.
  - intros st st'. rewrite E. apply Hc.
Qed.

Lemma Seeds_eta (m : M) : Seeds m -> Seeds (fun st => m st).
Proof. intros H. by apply Seeds_ext with (m' := m). Qed.

Lemma Seeds_InvalidPointer : Seeds (fun _ => InvalidPointer).
Proof. split; [|split]; intros st; done. Qed.

Create HintDb seeds.

#[local] Hint Resolve Seeds_Done Seeds_skip Seeds_ncWarning Seeds_seq
  Seeds_makeLive Seeds_InvalidPointer : seeds.

Lemma Seeds_computeLivenessStatement s : Seeds (computeLivenessStatement s).
Proof.
  unfold Liveness.computeLivenessStatement.
  destruct (statements (function self) !! s) as [stmt|] eqn:E.
  2:{ auto with seeds. }
  destruct stmt as [| | | |c tt et|tg| |k]; try (apply Seeds_Done).
  - set (body := (_ ;> _ ;> _)).
    assert (Hb : Seeds body).
    { unfold body. repeat apply Seeds_seq;
        repeat match goal with |- context [match ?x with _ => _ end] => destruct x end;
        auto with seeds. }
    split; [|split].
    + intros st st'. destruct (negb _); [apply Hb | apply Extends_Done].
    + intros st. destruct (negb _); [apply Hb | apply Fuelled_Done].
    + intros st st'. destruct (negb _); [apply Hb | apply Closes_Done].
  - apply Seeds_eta.
    apply Seeds_seq; [auto with seeds|].
    repeat match goal with |- context [match ?x with _ => _ end] => destruct x end;
      auto with seeds.
    apply Seeds_foreach. auto with seeds.
  - apply Seeds_ncWarning.
Qed.

Lemma Seeds_computeLivenessTerm t : Seeds (computeLivenessTerm t).
Proof.
  unfold Liveness.computeLivenessTerm.
  destruct (terms (function self) !! t) as [tm|] eqn:E.
  2:{ auto with seeds. }
  destruct (termClass tm) as [| | |loc|a|o|l r|p d|k]; try (apply Seeds_Done).
  - destruct (isWrite tm); [|apply Seeds_Done].
    destruct (isGlobalMemory self loc); [|apply Seeds_Done].
    apply Seeds_eta; auto with seeds.
  - destruct (isWrite tm); [|apply Seeds_Done].
    destruct (getMemoryLocation (dataflow self) t) as [loc|].
    + destruct (isGlobalMemory self loc); [|apply Seeds_Done].
      apply Seeds_eta; auto with seeds.
    + apply Seeds_eta; auto with seeds.
  - apply Seeds_ncWarning.
Qed.

Lemma Seeds_seedReturnValues : Seeds seedReturnValues.
Proof.
  unfold Liveness.seedReturnValues.
  repeat match goal with |- context [match ?x with _ => _ end] => destruct x end;
    auto with seeds.
  apply Seeds_foreach. intros ret.
  destruct (getReturnHook (hooks self) ret); auto with seeds.
Qed.

(** The pointers [analyze] puts in [deadJumps_], in the order of the
    nodes. *)
Definition deadJumpsOf (nodes : list Node) : list (option nat) :=
  nodes ≫= fun node =>
    match node with
    | NodeRegion (Switch (Some boundsCheckNode)) =>
      [getJump (basicBlock boundsCheckNode)]
    | _ => []
    end.

Lemma foreach_pushDeadJump nodes st :
  foreach nodes pushDeadJump st
  = Done {| liveness := liveness st;
            deadJumps_ := deadJumps_ st ++ deadJumpsOf nodes;
            warnings := warnings st |}.
Proof.
  revert st. induction nodes as [|node nodes IH]; intros st; simpl.
  - unfold skip. rewrite app_nil_r. by destruct st.
  - unfold seq.
    destruct node as [b|[[b|]|k]]; simpl; rewrite IH; simpl; try done.
    by rewrite <- app_assoc.
Qed.

(** The state in which the census loops of [analyze] start. *)
Definition afterDeadJumps (st : State) : State :=
  {| liveness := liveness st;
     deadJumps_ := sort (deadJumpsOf (regionGraph self));
     warnings := warnings st |}.

Lemma analyze_unfold st :
  analyze st
  = (foreach (censusStatements (function self)) computeLivenessStatement ;>
     foreach (censusTerms (function self)) computeLivenessTerm ;>
     seedReturnValues) (afterDeadJumps st).
Proof.
  unfold Liveness.analyze. unfold seq at 1, clearDeadJumps.
  unfold seq at 1. rewrite foreach_pushDeadJump. simpl.
  unfold seq at 1. reflexivity.
Qed.

Lemma Seeds_census :
  Seeds (foreach (censusStatements (function self)) computeLivenessStatement ;>
         foreach (censusTerms (function self)) computeLivenessTerm ;>
         seedReturnValues).
Proof.
  repeat apply Seeds_seq.
  - apply Seeds_foreach, Seeds_computeLivenessStatement.
  - apply Seeds_foreach, Seeds_computeLivenessTerm.
  - apply Seeds_seedReturnValues.
Qed.

(** [analyze] has fuel enough: it returns, or stops at an assertion or
    at a pointer to no object. *)
Lemma analyze_fuel_enough : Fuelled analyze.
Proof.
  intros st. rewrite analyze_unfold. apply Seeds_census.
Qed.

(** The states between the phases of a run of [analyze] that returns. *)
Lemma analyze_Done st st' :
  analyze st = Done st' ->
  exists st1 st2,
    foreach (censusStatements (function self)) computeLivenessStatement
      (afterDeadJumps st) = Done st1 /\
    foreach (censusTerms (function self)) computeLivenessTerm st1 = Done st2 /\
    seedReturnValues st2 = Done st' /\
    liveness st ⊆ liveness st1 /\ liveness st1 ⊆ liveness st2 /\
    liveness st2 ⊆ liveness st' /\
    deadJumps_ st1 = sort (deadJumpsOf (regionGraph self)) /\
    deadJumps_ st' = sort (deadJumpsOf (regionGraph self)).
Proof.
  rewrite analyze_unfold.
  intros (st1 & H1 & (st2 & H2 & H3)%seq_Done)%seq_Done.
  exists st1, st2. split; [done|]. split; [done|]. split; [done|].
  destruct (proj1 (Seeds_foreach _ _ Seeds_computeLivenessStatement) _ _ H1) as [? E1].
  destruct (proj1 (Seeds_foreach _ _ Seeds_computeLivenessTerm) _ _ H2) as [? E2].
  destruct (proj1 Seeds_seedReturnValues _ _ H3) as [? E3].
  simpl in *. repeat split; try done. congruence.
Qed.

(** In a loop that returns, the body ran for each element, between two
    states that the ends of the loop enclose. *)
Lemma foreach_elem {A} (l : list A) (body : A -> M) x st st' :
  (forall y, Extends (body y)) -> x ∈ l -> foreach l body st = Done st' ->
  exists s1 s2, body x s1 = Done s2 /\
    liveness st ⊆ liveness s1 /\ liveness s2 ⊆ liveness st' /\
    deadJumps_ s1 = deadJumps_ st /\ deadJumps_ st' = deadJumps_ st.
Proof.
  intros Hb. revert st. induction l as [|y l IH]; intros st Hx; [inversion Hx|].
  simpl. intros (st1 & H1 & H2)%seq_Done.
  destruct (Hb _ _ _ H1) as [Hs1 Hd1].
  destruct (Extends_foreach l body (fun y _ => Hb y) _ _ H2) as [Hs2 Hd2].
  apply elem_of_cons in Hx as [->|Hx].
  - exists st, st1. repeat split; try done. congruence.
  - destruct (IH _ Hx H2) as (s1 & s2 & Hr & Ha & Hc & Hd & He).
    exists s1, s2. split; [done|]. split; [set_solver|]. split; [done|].
    split; congruence.
Qed.

Lemma foreach_makeLive_isLive {A} (l : list A) (f : A -> option nat) st st' :
  foreach l (fun x => makeLive (f x)) st = Done st' ->
  forall x, x ∈ l -> isLive st' (f x).
Proof.
  intros H x Hx.
  destruct (foreach_elem l _ x st st' (fun y => makeLive_Extends _ _ _) Hx H)
    as (s1 & s2 & Hr & _ & Hs & _).
  destruct (makeLive_Sound _ _ _ _ _ Hr) as (_ & _ & Hl & _).
  by eapply isLive_mono.
Qed.

End Analysis.


(** ** Runs that return *)

Section Returns.

Variable NC_PREFER_CONSTANTS_TO_EXPRESSIONS : bool.
Variable self : LivenessAnalyzer.

#[local] Abbreviation makeLive_ := (makeLive_ NC_PREFER_CONSTANTS_TO_EXPRESSIONS self).
#[local] Abbreviation makeLive := (makeLive NC_PREFER_CONSTANTS_TO_EXPRESSIONS self).
#[local] Abbreviation passedOn := (passedOn NC_PREFER_CONSTANTS_TO_EXPRESSIONS self).

(** A pointer to a term of the function. *)
Definition pointsToTerm (p : option nat) : Prop :=
  exists t, p = Some t /\ is_Some (terms (function self) !! t).

(** The pointers of the function point to terms of the function: those
    a term passes on, the conditions and target addresses of jumps when
    they are not null, the targets of calls, the argument and return
    value terms of the hooks; and the census holds statements and terms
    of the function. *)
Definition wellFormed : Prop :=
  (forall t tm, terms (function self) !! t = Some tm ->
     forall q, q ∈ passedOn t tm -> pointsToTerm q) /\
  (forall s, s ∈ censusStatements (function self) ->
     exists stmt, statements (function self) !! s = Some stmt /\
       match stmt with
       | Jump condition thenTarget elseTarget =>
         (forall c, condition = Some c -> pointsToTerm (Some c)) /\
         (forall a, targetAddress thenTarget = Some a -> pointsToTerm (Some a)) /\
         (forall a, targetAddress elseTarget = Some a -> pointsToTerm (Some a))
       | Call target =>
         pointsToTerm target /\
         forall calleeId signature callHook,
           getCalleeId (hooks self) s = Some calleeId ->
           signatures self !! calleeId = Some signature ->
           getCallHook (hooks self) s = Some callHook ->
           forall memoryLocation, memoryLocation ∈ arguments signature ->
             pointsToTerm (getArgumentTerm callHook memoryLocation)
       | _ => True
       end) /\
  (forall t, t ∈ censusTerms (function self) ->
     is_Some (terms (function self) !! t)) /\
  (forall calleeId signature rv,
     getCalleeIdOfFunction (hooks self) = Some calleeId ->
     signatures self !! calleeId = Some signature ->
     returnValue signature = Some rv ->
     forall ret returnHook,
       ret ∈ getReturns (function self) ->
       getReturnHook (hooks self) ret = Some returnHook ->
       pointsToTerm (getReturnValueTerm returnHook rv)).

Hypothesis wf : wellFormed.

(** An action that returns in every state. *)
Definition Returns (m : M) : Prop := forall st, exists st', m st = Done st'.

Lemma Returns_Done : Returns Done.
Proof. intros st. eauto. Qed.

Lemma Returns_skip : Returns skip.
Proof. apply Returns_Done. Qed.

Lemma Returns_ncWarning msg : Returns (ncWarning msg).
Proof. intros st. eexists. reflexivity. Qed.

Lemma Returns_seq a b : Returns a -> Returns b -> Returns (a ;> b).
Proof.
  intros Ha Hb st. destruct (Ha st) as [st1 H1], (Hb st1) as [st2 H2].
  exists st2. apply seq_Done. eauto.
Qed.

Lemma Returns_foreach {A} (l : list A) body :
  (forall x, x ∈ l -> Returns (body x)) -> Returns (foreach l body).
Proof.
  induction l as [|x l IH]; intros H; simpl.
  - apply Returns_skip.
  - apply Returns_seq; [apply H; by left | apply IH; intros; apply H; by right].
Qed.

Lemma Returns_eta (m : M) : Returns m -> Returns (fun st => m st).
Proof. intros H st. apply H. Qed.

(** With pointers to terms only, [makeLive] stops neither at the
    assertion nor at a pointer to no object. *)
Definition Faultless (rec : option nat -> M) : Prop :=
  forall p st, pointsToTerm p ->
    rec p st <> AssertionFailed /\ rec p st <> InvalidPointer.

Lemma foreach_Faultless rec l st :
  Faultless rec -> (forall q, q ∈ l -> pointsToTerm q) ->
  foreach l rec st <> AssertionFailed /\ foreach l rec st <> InvalidPointer.
Proof.
  intros Hrec. revert st. induction l as [|x l IH]; intros st Hl; simpl.
  - done.
  - unfold seq. destruct (Hrec x st) as [H1 H2]; [apply Hl; by left|].
    destruct (rec x st); try done.
    apply IH. intros q Hq. apply Hl. by right.
Qed.

Lemma makeLive__Faultless fuel : Faultless (makeLive_ fuel).
Proof.
  induction fuel as [|fuel IH]; intros p st (t & -> & [tm Ht]); simpl.
  - by destruct (decide (t ∈ liveness st)).
  - destruct (decide (t ∈ liveness st)); [done|].
    unfold seq, insertLive.
    destruct (propagateLiveness_passedOn NC_PREFER_CONSTANTS_TO_EXPRESSIONS self
                (makeLive_ fuel) t tm
                {| liveness := {[t]} ∪ liveness st; deadJumps_ := deadJumps_ st;
                   warnings := warnings st |} Ht) as (st0 & _ & _ & ->).
    apply foreach_Faultless; [exact IH|]. by apply (proj1 wf t tm).
Qed.

Lemma Returns_makeLive p : pointsToTerm p -> Returns (makeLive p).
Proof.
  intros Hp st.
  pose proof (makeLive_fuel_enough NC_PREFER_CONSTANTS_TO_EXPRESSIONS self p st) as H3.
  unfold Liveness.makeLive in *.
  destruct (makeLive__Faultless (S (base.size (terms (function self)))) p st Hp)
    as [H1 H2].
  destruct (makeLive_ _ p st); [eauto | done..].
Qed.

Lemma Returns_computeLivenessStatement s :
  s ∈ censusStatements (function self) ->
  Returns (computeLivenessStatement NC_PREFER_CONSTANTS_TO_EXPRESSIONS self s).
Proof.
  intros Hs. destruct (proj1 (proj2 wf) s Hs) as (stmt & E & Hw).
  unfold computeLivenessStatement. rewrite E.
  destruct stmt as [| | | |c tt et|tg| |k]; try apply Returns_Done.
  - destruct Hw as (Hc & Ht & He). intros st.
    destruct (negb _); [|eauto].
    apply Returns_seq; [|apply Returns_seq].
    + destruct c; [apply Returns_makeLive; by apply Hc | apply Returns_skip].
    + destruct (targetAddress tt);
        [apply Returns_makeLive; by apply Ht | apply Returns_skip].
    + destruct (targetAddress et);
        [apply Returns_makeLive; by apply He | apply Returns_skip].
  - destruct Hw as (Htg & Hargs). apply Returns_eta, Returns_seq.
    + by apply Returns_makeLive.
    + destruct (getCalleeId (hooks self) s) as [c|] eqn:Ec; [|apply Returns_skip].
      destruct (signatures self !! c) as [sg|] eqn:Eg; [|apply Returns_skip].
      destruct (getCallHook (hooks self) s) as [h|] eqn:Eh; [|apply Returns_skip].
      apply Returns_foreach. intros loc Hloc. apply Returns_makeLive.
      by apply (Hargs c sg h).
  - apply Returns_ncWarning.
Qed.

Lemma Returns_computeLivenessTerm t :
  t ∈ censusTerms (function self) ->
  Returns (computeLivenessTerm NC_PREFER_CONSTANTS_TO_EXPRESSIONS self t).
Proof.
  intros Ht. destruct (proj1 (proj2 (proj2 wf)) t Ht) as [tm E].
  assert (Hp : pointsToTerm (Some t)) by (exists t; eauto).
  unfold computeLivenessTerm. rewrite E.
  destruct (termClass tm) as [| | |loc|a|o|l r|p d|k]; try apply Returns_Done.
  - destruct (isWrite tm); [|apply Returns_Done].
    destruct (isGlobalMemory self loc); [|apply Returns_Done].
    by apply Returns_eta, Returns_makeLive.
  - destruct (isWrite tm); [|apply Returns_Done].
    destruct (getMemoryLocation (dataflow self) t) as [loc|].
    + destruct (isGlobalMemory self loc); [|apply Returns_Done].
      by apply Returns_eta, Returns_makeLive.
    + by apply Returns_eta, Returns_makeLive.
  - apply Returns_ncWarning.
Qed.

Lemma Returns_seedReturnValues :
  Returns (seedReturnValues NC_PREFER_CONSTANTS_TO_EXPRESSIONS self).
Proof.
  unfold seedReturnValues.
  destruct (getCalleeIdOfFunction (hooks self)) as [c|] eqn:Ec; [|apply Returns_skip].
  destruct (signatures self !! c) as [sg|] eqn:Eg; [|apply Returns_skip].
  destruct (returnValue sg) as [rv|] eqn:Er; [|apply Returns_skip].
  apply Returns_foreach. intros ret Hret.
  destruct (getReturnHook (hooks self) ret) as [h|] eqn:Eh; [|apply Returns_skip].
  apply Returns_makeLive. by apply (proj2 (proj2 (proj2 wf)) c sg rv Ec Eg Er ret h).
Qed.

(** On a well-formed function [analyze] returns, whatever the state of
    the [Liveness] it is given. *)
Lemma analyze_returns st :
  exists st', analyze NC_PREFER_CONSTANTS_TO_EXPRESSIONS self st = Done st'.
Proof.
  rewrite analyze_unfold.
  apply Returns_seq; [|apply Returns_seq].
  - apply Returns_foreach, Returns_computeLivenessStatement.
  - apply Returns_foreach, Returns_computeLivenessTerm.
  - apply Returns_seedReturnValues.
Qed.

End Returns.
(** ** Seeding from calls and returns *)

(** C5.  After [analyze], for every [Call] statement of the census the
    call's target is live, and when the call has a callee id with a
    signature and a call hook, the hook's argument term of every argument
    location of the signature is live; and when the function's own callee
    id has a signature with a return value, the return-value term of the
    return hook of every [Return] that has one is live. *)
Theorem analyze_seeds_calls_and_returns flag self st st' :
  analyze flag self st = Done st' ->
  (forall s target,
     s ∈ censusStatements (function self) ->
     statements (function self) !! s = Some (Call target) ->
     isLive st' target /\
     forall calleeId signature callHook,
       getCalleeId (hooks self) s = Some calleeId ->
       signatures self !! calleeId = Some signature ->
       getCallHook (hooks self) s = Some callHook ->
       forall memoryLocation, memoryLocation ∈ arguments signature ->
         isLive st' (getArgumentTerm callHook memoryLocation)) /\
  (forall calleeId signature rv,
     getCalleeIdOfFunction (hooks self) = Some calleeId ->
     signatures self !! calleeId = Some signature ->
     returnValue signature = Some rv ->
     forall ret returnHook,
       ret ∈ getReturns (function self) ->
       getReturnHook (hooks self) ret = Some returnHook ->
       isLive st' (getReturnValueTerm returnHook rv)).
Proof.
  intros H.
  destruct (analyze_Done _ _ _ _ H)
    as (st1 & st2 & H1 & H2 & H3 & Hs0 & Hs1 & Hs2 & Hd1 & Hd2).
  split.
  - intros s target Hin Hs.
    destruct (foreach_elem _ _ s _ _
                (fun y => proj1 (Seeds_computeLivenessStatement flag self y)) Hin H1)
      as (s1 & s2 & Hr & _ & Hsub & _).
    assert (Hfin : liveness s2 ⊆ liveness st') by set_solver.
    unfold computeLivenessStatement in Hr. rewrite Hs in Hr.
    apply seq_Done in Hr as (s3 & Ht & Hrest).
    assert (Hsub3 : liveness s3 ⊆ liveness s2).
    { destruct (getCalleeId (hooks self) s) as [c|]; [|by injection Hrest as <-].
      destruct (signatures self !! c) as [sg|]; [|by injection Hrest as <-].
      destruct (getCallHook (hooks self) s) as [h|]; [|by injection Hrest as <-].
      eapply (Extends_foreach (arguments sg)); [|exact Hrest].
      intros x _. apply makeLive_Extends. }
    split.
    + destruct (makeLive_Sound _ _ _ _ _ Ht) as (_ & _ & Hl & _).
      eapply isLive_mono; [|exact Hl]. set_solver.
    + intros calleeId signature callHook Hc Hsg Hh loc Hloc.
      rewrite Hc, Hsg, Hh in Hrest.
      eapply isLive_mono; [exact Hfin|].
      by apply (foreach_makeLive_isLive flag self _ _ _ _ Hrest).
  - intros calleeId signature rv Hc Hsg Hrv ret returnHook Hin Hh.
    unfold seedReturnValues in H3. rewrite Hc, Hsg, Hrv in H3.
    assert (Hb : forall y, Extends
              match getReturnHook (hooks self) y with
              | Some returnHook => makeLive flag self (getReturnValueTerm returnHook rv)
              | None => skip
              end).
    { intros y. destruct (getReturnHook (hooks self) y);
        [apply makeLive_Extends | apply Extends_skip]. }
    destruct (foreach_elem _ _ ret _ _ Hb Hin H3) as (s1 & s2 & Hr & _ & Hsub & _).
    rewrite Hh in Hr.
    destruct (makeLive_Sound _ _ _ _ _ Hr) as (_ & _ & Hl & _).
    by eapply isLive_mono.
Qed.

Lemma analyze_seeds_calls_and_returns_witness :
  analyze false Examples.exampleAnalyzer newState
    = Done (Examples.result (analyze false Examples.exampleAnalyzer newState)) /\
  isLive (Examples.result (analyze false Examples.exampleAnalyzer newState)) (Some 9) /\
  isLive (Examples.result (analyze false Examples.exampleAnalyzer newState)) (Some 10) /\
  isLive (Examples.result (analyze false Examples.exampleAnalyzer newState)) (Some 14).
Proof.
  assert (E : analyze false Examples.exampleAnalyzer newState
              = Done (Examples.result (analyze false Examples.exampleAnalyzer newState)))
    by (vm_compute; reflexivity).
  destruct (analyze_seeds_calls_and_returns false Examples.exampleAnalyzer _ _ E)
    as [Hcall Hret].
  destruct (Hcall 101 (Some 9)) as [Htarget Hargs].
  { vm_compute. repeat constructor. }
  { vm_compute. reflexivity. }
  split; [exact E|]. split; [exact Htarget|]. split.
  - apply (Hargs 2 {| arguments := [Examples.register 3]; returnValue := None |}
             {| getArgumentTerm := fun _ => Some 10 |}
             eq_refl eq_refl eq_refl (Examples.register 3)).
    repeat constructor.
  - apply (Hret 1 {| arguments := []; returnValue := Some (Examples.register 0) |}
             (Examples.register 0) eq_refl eq_refl eq_refl 102
             {| getReturnValueTerm := fun _ => Some 14 |}).
    + vm_compute. repeat constructor.
    + reflexivity.
Defined.

(** ** Dead jumps *)

Lemma elem_of_deadJumpsOf nodes p :
  p ∈ deadJumpsOf nodes <->
  exists boundsCheckNode,
    NodeRegion (Switch (Some boundsCheckNode)) ∈ nodes /\
    p = getJump (basicBlock boundsCheckNode).
Proof.
  unfold deadJumpsOf. rewrite list_elem_of_bind. split.
  - intros (node & Hp & Hin).
    destruct node as [b|[[b|]|k]]; try by inversion Hp.
    apply list_elem_of_singleton in Hp. eauto.
  - intros (b & Hin & ->). eexists. split; [|exact Hin]. simpl. by left.
Qed.

(** A jump found in a sorted [deadJumps_] seeds nothing: the state is
    returned as it was. *)
Lemma dead_jump_seeds_nothing flag self s condition thenTarget elseTarget st :
  statements (function self) !! s = Some (Jump condition thenTarget elseTarget) ->
  Sorted ptr_le (deadJumps_ st) ->
  Some s ∈ deadJumps_ st ->
  computeLivenessStatement flag self s st = Done st.
Proof.
  intros Hs Hsorted Hin. unfold computeLivenessStatement. rewrite Hs.
  apply (binary_search_elem_of _ _ Hsorted) in Hin. by rewrite Hin.
Qed.

(** C6.  After [analyze], [deadJumps_] holds exactly the terminating
    jumps of the basic blocks of the bounds-check nodes of the [Switch]
    regions of the region graph, sorted by address; and for every [Jump]
    statement of the census, if the jump is not in the list its
    condition and the addresses of its then and else targets, each when
    present, are live, while for a jump in the list
    [computeLiveness] returns the state unchanged. *)
Theorem analyze_dead_jumps flag self st st' :
  analyze flag self st = Done st' ->
  (forall p, p ∈ deadJumps_ st' <->
     exists boundsCheckNode,
       NodeRegion (Switch (Some boundsCheckNode)) ∈ regionGraph self /\
       p = getJump (basicBlock boundsCheckNode)) /\
  deadJumps_ st' ≡ₚ deadJumpsOf (regionGraph self) /\
  Sorted ptr_le (deadJumps_ st') /\
  forall s condition thenTarget elseTarget,
    s ∈ censusStatements (function self) ->
    statements (function self) !! s = Some (Jump condition thenTarget elseTarget) ->
    (Some s ∉ deadJumps_ st' ->
       (forall c, condition = Some c -> c ∈ liveness st') /\
       (forall a, targetAddress thenTarget = Some a -> a ∈ liveness st') /\
       (forall a, targetAddress elseTarget = Some a -> a ∈ liveness st')) /\
    (Some s ∈ deadJumps_ st' ->
       forall st0, deadJumps_ st0 = deadJumps_ st' ->
         computeLivenessStatement flag self s st0 = Done st0).
Proof.
  intros H.
  destruct (analyze_Done _ _ _ _ H)
    as (st1 & st2 & H1 & H2 & H3 & Hs0 & Hs1 & Hs2 & Hd1 & Hd2).
  rewrite Hd2. split; [|split; [|split]].
  - intros p. rewrite <- elem_of_deadJumpsOf.
    by rewrite (sort_Permutation (deadJumpsOf (regionGraph self))).
  - apply sort_Permutation.
  - apply sort_Sorted.
  - intros s condition thenTarget elseTarget Hin Hs. split.
    + intros Hdead.
      destruct (foreach_elem _ _ s _ _
                  (fun y => proj1 (Seeds_computeLivenessStatement flag self y)) Hin H1)
        as (s1 & s2 & Hr & _ & Hsub & Hds & _).
      assert (Hfin : liveness s2 ⊆ liveness st') by set_solver.
      unfold computeLivenessStatement in Hr. rewrite Hs in Hr.
      simpl in Hds. rewrite Hds in Hr.
      destruct (binary_search _ (Some s)) eqn:Eb.
      { apply binary_search_elem_of in Eb; [done | apply sort_Sorted]. }
      simpl in Hr.
      apply seq_Done in Hr as (sa & Ha & (sb & Hb & Hc)%seq_Done).
      assert (Ea : liveness sa ⊆ liveness sb).
      { destruct (targetAddress thenTarget); [|by injection Hb as <-].
        by apply (makeLive_Extends _ _ _ _ _ Hb). }
      assert (Eb' : liveness sb ⊆ liveness s2).
      { destruct (targetAddress elseTarget); [|by injection Hc as <-].
        by apply (makeLive_Extends _ _ _ _ _ Hc). }
      split; [|split].
      * intros c ->. destruct (makeLive_Sound _ _ _ _ _ Ha) as (_ & _ & (t & [= <-] & Ht) & _).
        set_solver.
      * intros a Ea0. rewrite Ea0 in Hb.
        destruct (makeLive_Sound _ _ _ _ _ Hb) as (_ & _ & (t & [= <-] & Ht) & _).
        set_solver.
      * intros a Ea0. rewrite Ea0 in Hc.
        destruct (makeLive_Sound _ _ _ _ _ Hc) as (_ & _ & (t & [= <-] & Ht) & _).
        set_solver.
    + intros Hdead st0 Hd0.
      eapply dead_jump_seeds_nothing; [exact Hs | |]; rewrite Hd0;
        [apply sort_Sorted | done].
Qed.

Lemma analyze_dead_jumps_witness :
  deadJumps_ (Examples.result (analyze false Examples.exampleAnalyzer newState))
    = [Some 103] /\
  6 ∈ liveness (Examples.result (analyze false Examples.exampleAnalyzer newState)) /\
  8 ∈ liveness (Examples.result (analyze false Examples.exampleAnalyzer newState)) /\
  computeLivenessStatement false Examples.exampleAnalyzer 103
    (Examples.result (analyze false Examples.exampleAnalyzer newState))
  = Done (Examples.result (analyze false Examples.exampleAnalyzer newState)).
Proof.
  assert (E : analyze false Examples.exampleAnalyzer newState
              = Done (Examples.result (analyze false Examples.exampleAnalyzer newState)))
    by (vm_compute; reflexivity).
  destruct (analyze_dead_jumps false Examples.exampleAnalyzer _ _ E)
    as (_ & _ & _ & Hjump).
  split; [vm_compute; reflexivity|].
  destruct (Hjump 100 (Some 6) {| targetAddress := Some 8 |} {| targetAddress := None |})
    as [Hlive _].
  { vm_compute. repeat constructor. }
  { vm_compute. reflexivity. }
  destruct Hlive as (Hc & Ha & _).
  { vm_compute. intros Hin. repeat (inversion Hin as [|? ? ? Hin']; clear Hin; rename Hin' into Hin). }
  split; [by apply Hc|]. split; [by apply Ha|].
  destruct (Hjump 103 (Some 20) {| targetAddress := None |} {| targetAddress := None |})
    as [_ Hdead].
  { vm_compute. repeat constructor. }
  { vm_compute. reflexivity. }
  apply Hdead; [|reflexivity]. vm_compute. repeat constructor.
Defined.

(** ** Seeding from terms *)

(** A store that is observable: a write [MemoryLocationAccess] to a
    location the architecture classifies as global memory, or a write
    [Dereference] whose resolved location is absent or global. *)
Definition observableStore (self : LivenessAnalyzer) (t : nat) (tm : Term) : Prop :=
  (exists memoryLocation,
     termClass tm = MemoryLocationAccess memoryLocation /\
     isWrite tm = true /\
     isGlobalMemory self memoryLocation = true) \/
  (exists address,
     termClass tm = Dereference address /\
     isWrite tm = true /\
     (getMemoryLocation (dataflow self) t = None \/
      exists memoryLocation,
        getMemoryLocation (dataflow self) t = Some memoryLocation /\
        isGlobalMemory self memoryLocation = true)).

Lemma classic_store self t tm :
  observableStore self t tm \/ ~ observableStore self t tm.
Proof.
  unfold observableStore.
  destruct (termClass tm) as [| | |loc|a|o|l r|p d|k] eqn:Ek;
    try (right; intros [(? & ? & _)|(? & ? & _)]; discriminate).
  - destruct (isWrite tm) eqn:Ew.
    2:{ right. intros [(? & _ & ? & _)|(? & ? & _)]; discriminate. }
    destruct (isGlobalMemory self loc) eqn:Eg.
    + left. left. eauto.
    + right. intros [(? & [= <-] & _ & ?)|(? & ? & _)]; congruence.
  - destruct (isWrite tm) eqn:Ew.
    2:{ right. intros [(? & ? & _)|(? & _ & ? & _)]; discriminate. }
    destruct (getMemoryLocation (dataflow self) t) as [loc|] eqn:El.
    + destruct (isGlobalMemory self loc) eqn:Eg.
      * left. right. exists a. eauto 10.
      * right. intros [(? & ? & _)|(? & _ & _ & [?|(? & [= <-] & ?)])]; congruence.
    + left. right. exists a. eauto.
Qed.

(** The members after a call of [ncWarning]. *)
Definition warned (msg : string) (st : State) : State :=
  {| liveness := liveness st; deadJumps_ := deadJumps_ st;
     warnings := warnings st ++ [msg] |}.

(** C7.  [computeLiveness] for a term of the census calls [makeLive] on
    the term exactly when the term is an observable store: a write
    [MemoryLocationAccess] to global memory, or a write [Dereference]
    whose resolved location is absent or global.  For any other term it
    makes nothing live: it returns the state as it was, after a warning
    when the kind is not one of the eight. *)
Theorem computeLivenessTerm_seeds flag self t tm st :
  terms (function self) !! t = Some tm ->
  (observableStore self t tm ->
     computeLivenessTerm flag self t st = makeLive flag self (Some t) st) /\
  (~ observableStore self t tm ->
     computeLivenessTerm flag self t st
     = Done (match termClass tm with
             | OtherTerm _ =>
               warned "Was called for unsupported kind of term." st
             | _ => st
             end)) /\
  (forall st', computeLivenessTerm flag self t st = Done st' ->
     t ∉ liveness st ->
     (t ∈ liveness st' <-> observableStore self t tm)).
Proof.
  intros Ht.
  assert (Hyes : observableStore self t tm ->
            computeLivenessTerm flag self t st = makeLive flag self (Some t) st).
  { unfold computeLivenessTerm. rewrite Ht.
    intros [(loc & -> & -> & ->)|(a & -> & -> & [->|(loc & -> & ->)])]; reflexivity. }
  assert (Hno : ~ observableStore self t tm ->
            computeLivenessTerm flag self t st
            = Done (match termClass tm with
                    | OtherTerm _ =>
                      warned "Was called for unsupported kind of term." st
                    | _ => st
                    end)).
  { unfold computeLivenessTerm, observableStore. rewrite Ht. intros Hn.
    destruct (termClass tm) as [| | |loc|a|o|l r|p d|k] eqn:Ek; try reflexivity.
    - destruct (isWrite tm) eqn:Ew; [|done].
      destruct (isGlobalMemory self loc) eqn:Eg; [|done].
      destruct Hn. left. eauto.
    - destruct (isWrite tm) eqn:Ew; [|done].
      destruct (getMemoryLocation (dataflow self) t) as [loc|] eqn:El.
      + destruct (isGlobalMemory self loc) eqn:Eg; [|done].
        destruct Hn. right. exists a. eauto 10.
      + destruct Hn. right. exists a. eauto. }
  split; [exact Hyes|]. split; [exact Hno|].
  intros st' Hr Hnl. split.
  - intros Hl. destruct (classic_store self t tm) as [Hs|Hs]; [done|].
    rewrite (Hno Hs) in Hr. injection Hr as <-.
    by destruct (termClass tm).
  - intros Hs. rewrite (Hyes Hs) in Hr.
    destruct (makeLive_Sound _ _ _ _ _ Hr) as (_ & _ & (u & [= <-] & Hu) & _).
    done.
Qed.

Lemma computeLivenessTerm_seeds_witness :
  computeLivenessTerm false Examples.exampleAnalyzer 17 newState
    = makeLive false Examples.exampleAnalyzer (Some 17) newState /\
  computeLivenessTerm false Examples.exampleAnalyzer 2 newState
    = makeLive false Examples.exampleAnalyzer (Some 2) newState /\
  computeLivenessTerm false Examples.exampleAnalyzer 4 newState = Done newState.
Proof.
  split; [|split].
  - apply (computeLivenessTerm_seeds false Examples.exampleAnalyzer 17
             (Examples.term (MemoryLocationAccess (Examples.global 4096)) WRITE (Some 14))
             newState).
    + vm_compute. reflexivity.
    + left. exists (Examples.global 4096). repeat split.
  - apply (computeLivenessTerm_seeds false Examples.exampleAnalyzer 2
             (Examples.term (Dereference (Some 3)) WRITE (Some 1)) newState).
    + vm_compute. reflexivity.
    + right. exists (Some 3). split; [reflexivity|]. split; [reflexivity|].
      left. reflexivity.
  - apply (computeLivenessTerm_seeds false Examples.exampleAnalyzer 4
             (Examples.term (MemoryLocationAccess (Examples.register 1)) WRITE (Some 5))
             newState).
    + vm_compute. reflexivity.
    + intros [(loc & [= <-] & _ & Hg)|(a & Hk & _)]; [|discriminate Hk].
      vm_compute in Hg. discriminate Hg.
Defined.

(** ** Closure under propagation *)

(** A [MemoryLocationAccess] or a [Dereference]: the kinds whose reads
    have reaching definitions and whose writes have a source followed by
    [propagateLiveness]. *)
Definition isAccess (tm : Term) : Prop :=
  match termClass tm with
  | MemoryLocationAccess _ | Dereference _ => True
  | _ => False
  end.

(** The propagation rules, for one term [t] in the state [st]. *)
Definition propagationRules (self : LivenessAnalyzer) (st : State)
    (t : nat) (tm : Term) : Prop :=
  (forall l r, termClass tm = BinaryOperator l r -> isLive st l /\ isLive st r) /\
  (forall operand, termClass tm = UnaryOperator operand -> isLive st operand) /\
  (forall preferredTerm defaultTerm,
     termClass tm = Choice preferredTerm defaultTerm ->
     (getDefinitions (dataflow self) preferredTerm <> [] -> isLive st preferredTerm) /\
     (getDefinitions (dataflow self) preferredTerm = [] -> isLive st defaultTerm)) /\
  (isAccess tm -> isRead tm = true ->
     forall chunk definition,
       chunk ∈ getDefinitions (dataflow self) (Some t) ->
       definition ∈ definitions chunk -> isLive st definition) /\
  (isAccess tm -> isWrite tm = true ->
     forall s, source tm = Some s -> s ∈ liveness st) /\
  (forall address,
     termClass tm = Dereference address ->
     getMemoryLocation (dataflow self) t = None -> isLive st address).

Lemma closed_afterDeadJumps flag self :
  closed flag self (afterDeadJumps self newState).
Proof. intros u Hu. simpl in Hu. set_solver. Qed.

(** A run of [analyze] on a new [Liveness] that returns leaves a closed
    set. *)
Lemma analyze_closed flag self st' :
  analyze flag self newState = Done st' -> closed flag self st'.
Proof.
  rewrite analyze_unfold. intros H.
  eapply (proj2 (proj2 (Seeds_census flag self))); [|exact H].
  apply closed_afterDeadJumps.
Qed.

Lemma elem_of_concat_map {A B} (f : A -> list B) (l : list A) x y :
  x ∈ l -> y ∈ f x -> y ∈ concat (map f l).
Proof.
  intros Hx Hy. induction Hx as [x l|x z l Hx IH]; simpl; apply elem_of_app.
  - by left.
  - right. by apply IH.
Qed.

Lemma passedOn_rules flag self st t tm :
  cutAt flag self t tm = false ->
  (forall q, q ∈ passedOn flag self t tm -> isLive st q) ->
  propagationRules self st t tm.
Proof.
  intros Hcut Hq. unfold passedOn in Hq. rewrite Hcut in Hq.
  unfold propagationRules, isAccess.
  destruct (termClass tm) as [| | |loc|a|o|l r|p d|k] eqn:Ek;
    repeat split; try done; try (intros; discriminate).
  - intros _ Hr chunk definition Hc Hd. apply Hq. unfold chainOf. rewrite Hr.
    by apply (elem_of_concat_map definitions _ chunk).
  - intros _ Hw s Hs.
    assert (Hrd : isRead tm = false).
    { unfold isRead, isWrite in *. by destruct (accessType tm). }
    destruct (Hq (Some s)) as (u & [= <-] & Hu); [|done].
    unfold chainOf. rewrite Hrd, Hw, Hs. by left.
  - intros _ Hr chunk definition Hc Hd. apply Hq. apply elem_of_app. left.
    unfold chainOf. rewrite Hr.
    by apply (elem_of_concat_map definitions _ chunk).
  - intros _ Hw s Hs.
    assert (Hrd : isRead tm = false).
    { unfold isRead, isWrite in *. by destruct (accessType tm). }
    destruct (Hq (Some s)) as (u & [= <-] & Hu); [|done].
    apply elem_of_app. left. unfold chainOf. rewrite Hrd, Hw, Hs. by left.
  - intros address [= <-] Hm. apply Hq. apply elem_of_app. right.
    rewrite Hm. by left.
  - intros operand [= <-]. apply Hq. by left.
  - injection H as <- <-. apply Hq. by left.
  - injection H as <- <-. apply Hq. right. by left.
  - injection H as <- <-. intros Hne. apply Hq.
    destruct (getDefinitions (dataflow self) p); [done | by left].
  - injection H as <- <-. intros He. apply Hq. rewrite He. by left.
Qed.

(** C8, as the code has it.  After [analyze] on a new [Liveness], the
    propagation rules hold for every live term at which propagation is
    not cut (the build does not prefer constants, or the term is not a
    read, or its dataflow value is not concrete): both operands of a
    [BinaryOperator], the operand of a [UnaryOperator], the preferred
    term of a [Choice] when its reaching definitions are not empty and
    the default term otherwise, every defining term of every chunk for a
    read access, the source for a write access that has one, and the
    address of a [Dereference] with no resolved location, are live. *)
Theorem analyze_closed_under_propagation flag self st' t tm :
  analyze flag self newState = Done st' ->
  terms (function self) !! t = Some tm ->
  t ∈ liveness st' ->
  cutAt flag self t tm = false ->
  propagationRules self st' t tm.
Proof.
  intros H Ht Hl Hcut.
  destruct (analyze_closed _ _ _ H t Hl) as (tm' & Ht' & Hq).
  assert (tm' = tm) as -> by congruence.
  by apply (passedOn_rules flag).
Qed.

Lemma analyze_closed_under_propagation_witness :
  propagationRules Examples.storingAnalyzer
    (Examples.result (analyze true Examples.storingAnalyzer newState))
    24 (Examples.term (MemoryLocationAccess (Examples.register 6)) READ None).
Proof.
  apply (analyze_closed_under_propagation true Examples.storingAnalyzer).
  - vm_compute. reflexivity.
  - vm_compute. reflexivity.
  - vm_compute. repeat constructor.
  - vm_compute. reflexivity.
Defined.

(** C8, as stated, fails when the build prefers constants: term 24 of
    the example is a live read whose value is concrete, and the term 23
    that defines it is not live. *)
Lemma closure_fails_when_constants_preferred :
  analyze true Examples.concreteAnalyzer newState
    = Done (Examples.result (analyze true Examples.concreteAnalyzer newState)) /\
  Examples.concreteAnalyzer.(function).(terms) !! 24
    = Some (Examples.term (MemoryLocationAccess (Examples.register 6)) READ None) /\
  24 ∈ liveness (Examples.result (analyze true Examples.concreteAnalyzer newState)) /\
  ~ propagationRules Examples.concreteAnalyzer
      (Examples.result (analyze true Examples.concreteAnalyzer newState))
      24 (Examples.term (MemoryLocationAccess (Examples.register 6)) READ None).
Proof.
  split; [vm_compute; reflexivity|]. split; [vm_compute; reflexivity|].
  split; [vm_compute; repeat constructor|].
  intros (_ & _ & _ & Hread & _).
  destruct (Hread I eq_refl
              {| chunkLocation := Examples.register 6; definitions := [Some 23] |}
              (Some 23)) as (u & [= <-] & Hu).
  - vm_compute. repeat constructor.
  - repeat constructor.
  - revert Hu. apply (proj1 (bool_decide_eq_false _)). vm_compute. reflexivity.
Qed.

(** ** Dead jumps and propagation *)

(** The members with another [deadJumps_]. *)
Definition withDeadJumps (d : list (option nat)) (st : State) : State :=
  {| liveness := liveness st; deadJumps_ := d; warnings := warnings st |}.

Definition onDone (f : State -> State) (o : Outcome) : Outcome :=
  match o with Done st => Done (f st) | e => e end.

(** An action that neither reads nor writes [deadJumps_]. *)
Definition IgnoresDeadJumps (m : M) : Prop :=
  forall d st, m (withDeadJumps d st) = onDone (withDeadJumps d) (m st).

Lemma Ignores_Done : IgnoresDeadJumps Done.
Proof. intros d st. reflexivity. Qed.

Lemma Ignores_skip : IgnoresDeadJumps skip.
Proof. intros d st. reflexivity. Qed.

Lemma Ignores_ncWarning msg : IgnoresDeadJumps (ncWarning msg).
Proof. intros d st. reflexivity. Qed.

Lemma Ignores_insertLive t : IgnoresDeadJumps (insertLive t).
Proof. intros d st. reflexivity. Qed.

Lemma Ignores_seq a b :
  IgnoresDeadJumps a -> IgnoresDeadJumps b -> IgnoresDeadJumps (a ;> b).
Proof.
  intros Ha Hb d st. unfold seq. rewrite Ha.
  destruct (a st); simpl; [apply Hb | done..].
Qed.

Lemma Ignores_foreach {A} (l : list A) body :
  (forall x, IgnoresDeadJumps (body x)) -> IgnoresDeadJumps (foreach l body).
Proof.
  intros H. induction l as [|x l IH]; simpl.
  - apply Ignores_skip.
  - by apply Ignores_seq.
Qed.

Lemma Ignores_eta (m : M) : IgnoresDeadJumps m -> IgnoresDeadJumps (fun st => m st).
Proof. intros H d st. apply H. Qed.

Lemma Ignores_fail (o : Outcome) :
  (forall st, o <> Done st) -> IgnoresDeadJumps (fun _ => o).
Proof. intros H d st. destruct o as [s| | |]; [by destruct (H s) | done..]. Qed.

Lemma Ignores_propagateLiveness flag self rec p :
  (forall q, IgnoresDeadJumps (rec q)) ->
  IgnoresDeadJumps (propagateLiveness flag self rec p).
Proof.
  intros Hrec. unfold propagateLiveness.
  destruct p as [t|]; [|by apply Ignores_fail].
  destruct (terms (function self) !! t) as [tm|]; [|by apply Ignores_fail].
  destruct (flag && isRead tm && isConcrete (dataflow self) t);
    [apply Ignores_Done|].
  destruct (termClass tm) as [| | |loc|a|o|l r|pt d|k];
    try apply Ignores_Done.
  - destruct (isRead tm).
    + apply Ignores_eta, Ignores_foreach. intros chunk. by apply Ignores_foreach.
    + destruct (isWrite tm); [|apply Ignores_Done].
      destruct (source tm); [by apply Ignores_eta | apply Ignores_Done].
  - apply Ignores_eta, Ignores_seq.
    + destruct (isRead tm).
      * apply Ignores_foreach. intros chunk. by apply Ignores_foreach.
      * destruct (isWrite tm); [|apply Ignores_skip].
        destruct (source tm); [done | apply Ignores_skip].
    + destruct (getMemoryLocation (dataflow self) t); [apply Ignores_skip | done].
  - by apply Ignores_eta.
  - by apply Ignores_eta, Ignores_seq.
  - destruct (getDefinitions (dataflow self) pt); by apply Ignores_eta.
  - apply Ignores_eta, Ignores_ncWarning.
Qed.

Lemma Ignores_makeLive_ flag self fuel p :
  IgnoresDeadJumps (makeLive_ flag self fuel p).
Proof.
  revert p. induction fuel as [|fuel IH]; intros p d st; simpl.
  - destruct p as [t|]; [|done]. by destruct (decide (t ∈ liveness st)).
  - destruct p as [t|]; [|done]. destruct (decide (t ∈ liveness st)); [done|].
    apply (Ignores_seq (insertLive t) (propagateLiveness flag self _ (Some t))).
    + apply Ignores_insertLive.
    + by apply Ignores_propagateLiveness.
Qed.

(** C10.  [deadJumps_] is consulted by the seeding rule of [Jump] only:
    [makeLive], and with it all propagation, neither reads nor writes
    it; a jump found in the list seeds nothing; and after [analyze] the
    condition and the target addresses of such a jump are live like any
    other term whenever a live term, at which propagation is not cut,
    passes one of them on (as an operand, a source, a reaching
    definition, an address, the chosen term of a choice). *)
Theorem dead_jumps_only_gate_seeding flag self :
  (forall p, IgnoresDeadJumps (makeLive flag self p)) /\
  (forall s condition thenTarget elseTarget st,
     statements (function self) !! s = Some (Jump condition thenTarget elseTarget) ->
     Sorted ptr_le (deadJumps_ st) ->
     Some s ∈ deadJumps_ st ->
     computeLivenessStatement flag self s st = Done st) /\
  (forall st' s condition thenTarget elseTarget,
     analyze flag self newState = Done st' ->
     statements (function self) !! s = Some (Jump condition thenTarget elseTarget) ->
     Some s ∈ deadJumps_ st' ->
     forall q, q ∈ [condition; targetAddress thenTarget; targetAddress elseTarget] ->
     forall u tm,
       u ∈ liveness st' ->
       terms (function self) !! u = Some tm ->
       q ∈ passedOn flag self u tm ->
       isLive st' q).
Proof.
  split; [|split].
  - intros p. apply Ignores_makeLive_.
  - apply dead_jump_seeds_nothing.
  - intros st' s condition thenTarget elseTarget H _ _ q _ u tm Hu Ht Hq.
    destruct (analyze_closed _ _ _ H u Hu) as (tm' & Ht' & Hall).
    assert (tm' = tm) as -> by congruence.
    by apply Hall.
Qed.

(** In the example whose term 25 stores to global memory, jump 103 is
    dead and seeds nothing, and its condition 20 is live all the same:
    the live store 23 has it as source. *)
Lemma dead_jumps_only_gate_seeding_witness :
  computeLivenessStatement false Examples.storingAnalyzer 103
    (Examples.result (analyze false Examples.storingAnalyzer newState))
  = Done (Examples.result (analyze false Examples.storingAnalyzer newState)) /\
  isLive (Examples.result (analyze false Examples.storingAnalyzer newState)) (Some 20).
Proof.
  destruct (dead_jumps_only_gate_seeding false Examples.storingAnalyzer)
    as (_ & Hdead & Hlive).
  split.
  - apply (Hdead 103 (Some 20) {| targetAddress := None |} {| targetAddress := None |}).
    + vm_compute. reflexivity.
    + vm_compute. repeat constructor.
    + vm_compute. repeat constructor.
  - apply (Hlive _ 103 (Some 20) {| targetAddress := None |} {| targetAddress := None |})
      with (u := 23)
           (tm := Examples.term (MemoryLocationAccess (Examples.register 6)) WRITE (Some 20)).
    + vm_compute. reflexivity.
    + vm_compute. reflexivity.
    + vm_compute. repeat constructor.
    + repeat constructor.
    + vm_compute. repeat constructor.
    + vm_compute. reflexivity.
    + vm_compute. repeat constructor.
Defined.

(** ** Unsupported kinds and null pointers *)

(** C4, as the code has it.  A statement or a term of a kind the
    analyzer does not know is reported by [ncWarning] and skipped: the
    call returns with the liveness set and [deadJumps_] as they were
    (for [propagateLiveness]: nothing is passed on).
    [propagateLiveness] reports the term unless propagation is cut at
    it, the build preferring constants and the term being a read of a
    concrete value: then it returns before the [switch], with no
    warning.  A null term is not skipped: [makeLive] and
    [propagateLiveness] stop at their [assert(term != NULL)]. *)
Theorem unsupported_kinds_warn_null_asserts flag self :
  (forall s kind st,
     statements (function self) !! s = Some (OtherStatement kind) ->
     computeLivenessStatement flag self s st
     = Done (warned "Was called for unsupported kind of statement." st)) /\
  (forall t tm kind st,
     terms (function self) !! t = Some tm ->
     termClass tm = OtherTerm kind ->
     computeLivenessTerm flag self t st
     = Done (warned "Was called for unsupported kind of term." st)) /\
  (forall rec t tm kind st,
     terms (function self) !! t = Some tm ->
     termClass tm = OtherTerm kind ->
     propagateLiveness flag self rec (Some t) st
     = Done (if cutAt flag self t tm then st
             else warned "Was called for unsupported kind of term." st)) /\
  (forall msg st,
     liveness (warned msg st) = liveness st /\
     deadJumps_ (warned msg st) = deadJumps_ st /\
     warnings (warned msg st) = warnings st ++ [msg]) /\
  (forall st, makeLive flag self None st = AssertionFailed) /\
  (forall rec st, propagateLiveness flag self rec None st = AssertionFailed).
Proof.
  split; [|split; [|split; [|split; [|split]]]].
  - intros s kind st Hs. unfold computeLivenessStatement. by rewrite Hs.
  - intros t tm kind st Ht Hk. unfold computeLivenessTerm. by rewrite Ht, Hk.
  - intros rec t tm kind st Ht Hk. unfold propagateLiveness, cutAt.
    rewrite Ht.
    destruct (flag && isRead tm && isConcrete (dataflow self) t); [done|].
    by rewrite Hk.
  - done.
  - reflexivity.
  - reflexivity.
Qed.

(** In the example, statement 104 and term 18 are of unknown kinds: each
    is reported and skipped.  Where the build prefers constants and the
    value read by term 18 is concrete, [propagateLiveness] returns at
    once and reports nothing. *)
Lemma unsupported_kinds_warn_null_asserts_witness :
  computeLivenessStatement false Examples.exampleAnalyzer 104 newState
  = Done (warned "Was called for unsupported kind of statement." newState) /\
  computeLivenessTerm false Examples.exampleAnalyzer 18 newState
  = Done (warned "Was called for unsupported kind of term." newState) /\
  propagateLiveness false Examples.exampleAnalyzer
    (makeLive false Examples.exampleAnalyzer) (Some 18) newState
  = Done (warned "Was called for unsupported kind of term." newState) /\
  propagateLiveness true Examples.unknownConcreteAnalyzer
    (makeLive true Examples.unknownConcreteAnalyzer) (Some 18) newState
  = Done newState.
Proof.
  destruct (unsupported_kinds_warn_null_asserts false Examples.exampleAnalyzer)
    as (Hs & Ht & Hp & _).
  destruct (unsupported_kinds_warn_null_asserts true
              Examples.unknownConcreteAnalyzer) as (_ & _ & Hcut & _).
  split; [|split; [|split]].
  - apply (Hs 104 99). vm_compute. reflexivity.
  - apply (Ht 18 (Examples.term (OtherTerm 1000) READ None) 1000);
      [vm_compute; reflexivity | reflexivity].
  - etrans;
      [apply (Hp (makeLive false Examples.exampleAnalyzer) 18
                (Examples.term (OtherTerm 1000) READ None) 1000 newState);
       [vm_compute; reflexivity | reflexivity]
      | reflexivity].
  - etrans;
      [apply (Hcut (makeLive true Examples.unknownConcreteAnalyzer) 18
                (Examples.term (OtherTerm 1000) READ None) 1000 newState);
       [vm_compute; reflexivity | reflexivity]
      | reflexivity].
Defined.

(** C4, as stated, fails: a null term given to [makeLive] stops the run
    at the assertion, and so does the analysis of a function with a call
    whose target is null. *)
Lemma null_term_aborts :
  makeLive false Examples.exampleAnalyzer None newState = AssertionFailed /\
  analyze false Examples.nullTargetAnalyzer newState = AssertionFailed /\
  ~ exists st', analyze false Examples.nullTargetAnalyzer newState = Done st'.
Proof.
  split; [reflexivity|]. split; [vm_compute; reflexivity|].
  intros (st' & H). vm_compute in H. discriminate H.
Qed.
End LivenessProofs.

(* ================================================================== *)
(** * Properties of the function names                                 *)
(* ================================================================== *)

Module NamingProofs.

Import Naming.

(** The address of the entry, when the function has an entry and the
    entry has an address. *)
Definition entryAddress (f : Function) : option Z :=
  match entry f with
  | Some b => address b
  | None => None
  end.

Definition isHexDigit (c : Ascii.ascii) : bool :=
  contains "0123456789abcdef" c.

Fixpoint allChars (P : Ascii.ascii -> bool) (s : string) : bool :=
  match s with
  | EmptyString => true
  | String c s' => P c && allChars P s'
  end.

Lemma append_cons x (a b : string) : String x a +:+ b = String x (a +:+ b).
Proof. reflexivity. Qed.

Lemma append_assoc (a b c : string) : (a +:+ b) +:+ c = a +:+ (b +:+ c).
Proof.
  induction a as [|x a IH]; [reflexivity|].
  by rewrite !append_cons, IH.
Qed.

Lemma allChars_app P a b :
  allChars P (a +:+ b) = allChars P a && allChars P b.
Proof.
  induction a as [|x a IH]; [reflexivity|].
  rewrite append_cons. simpl. rewrite IH. by rewrite andb_assoc.
Qed.

(** The digits of a positive number: a first digit that is not zero,
    then hexadecimal digits, then what was there. *)
Fixpoint of_pos_shape (p : positive) (rest : string) {struct p} :
  exists d body,
    HexString.Raw.of_pos p rest = String d (body +:+ rest) /\
    isHexDigit d = true /\ d <> "0"%char /\ allChars isHexDigit body = true.
Proof.
  do 4 try destruct p as [p|p|];
    try (eexists _, ""%string;
         split; [reflexivity|]; split; [reflexivity|];
         split; [discriminate | reflexivity]);
    cbn [HexString.Raw.of_pos];
    match goal with
    | |- context [HexString.Raw.of_pos p (String ?c rest)] =>
      destruct (of_pos_shape p (String c rest)) as (d & body & E & Hd & Hz & Hb);
      exists d, (body +:+ String c ""%string);
      rewrite E, (append_assoc body), allChars_app, Hb;
      split; [reflexivity|]; split; [exact Hd|]; split; [exact Hz | reflexivity]
    end.
Qed.

Lemma hex_digits n : allChars isHexDigit (hex n) = true.
Proof.
  destruct n as [|p]; [reflexivity|]. simpl.
  destruct (of_pos_shape p ""%string) as (d & body & -> & Hd & _ & Hb).
  simpl. rewrite Hd, allChars_app, Hb. reflexivity.
Qed.

Lemma hex_no_leading_zero n :
  n <> 0%N -> exists d s, hex n = String d s /\ d <> "0"%char.
Proof.
  destruct n as [|p]; [done|]. intros _. simpl.
  destruct (of_pos_shape p ""%string) as (d & body & -> & _ & Hz & _). eauto.
Qed.

(** The digits read back give the number. *)
Lemma hex_value n : HexString.Raw.to_N (hex n) 0 = n.
Proof.
  destruct n as [|p]; [reflexivity|]. simpl.
  by rewrite HexString.Raw.to_N_of_pos.
Qed.

Lemma hex_inj n m : hex n = hex m -> n = m.
Proof. intros H. rewrite <- (hex_value n), <- (hex_value m). by rewrite H. Qed.

Lemma append_inj_r (a b c : string) : a +:+ b = a +:+ c -> b = c.
Proof.
  induction a as [|x a IH]; [done|].
  rewrite !append_cons. intros [= H]. by apply IH.
Qed.

Lemma hexOfAddress_unsigned a :
  (0 <= a < 2 ^ 64)%Z -> hexOfAddress a = hex (Z.to_N a).
Proof. intros H. unfold hexOfAddress. by rewrite Z.mod_small. Qed.

Lemma pickFunctionName_symbol cleanName module function a :
  entryAddress function = Some a ->
  getName module a <> ""%string ->
  pickFunctionName cleanName module function
  = let name := getName module a in
    let function := setName function (cleanName name) in
    let function :=
      if decide (name ≠ cleanName name) then appendComment function name
      else function in
    if contains (demangle module name) "("%char
    then appendComment function (demangle module name)
    else function.
Proof.
  unfold entryAddress, pickFunctionName. intros He Hn.
  destruct (entry function) as [[[a'|]]|]; try discriminate.
  injection He as ->. destruct (getName module a); [done|]. reflexivity.
Qed.

(** C9.  The name of a function is picked by a three-way case split.
    If the entry has an address and the module has a non-empty symbol
    name there: the name is the cleaned symbol, and the comment gains
    the symbol when it differs from the cleaned name, then the
    demangled symbol when that contains an opening parenthesis.
    Else if the entry has an address: the name is [func_] and the
    address in hexadecimal, the comment is unchanged.  Else: the name is
    [func_noentry_] and the identity of the function in hexadecimal.
    The hexadecimal digits are lowercase, have no leading zero, denote
    the number, and differ for different numbers. *)
Theorem pickFunctionName_cases cleanName module function :
  (forall a,
     entryAddress function = Some a ->
     getName module a <> ""%string ->
     name (pickFunctionName cleanName module function)
       = cleanName (getName module a) /\
     comment (pickFunctionName cleanName module function)
       = comment function
         ++ (if decide (getName module a ≠ cleanName (getName module a))
             then [getName module a] else [])
         ++ (if contains (demangle module (getName module a)) "("%char
             then [demangle module (getName module a)] else [])) /\
  (forall a,
     entryAddress function = Some a ->
     getName module a = ""%string ->
     name (pickFunctionName cleanName module function)
       = ("func_" +:+ hexOfAddress a)%string /\
     ((0 <= a < 2 ^ 64)%Z -> hexOfAddress a = hex (Z.to_N a)) /\
     comment (pickFunctionName cleanName module function) = comment function) /\
  (entryAddress function = None ->
     name (pickFunctionName cleanName module function)
       = ("func_noentry_" +:+ hex (identity function))%string /\
     comment (pickFunctionName cleanName module function) = comment function) /\
  (forall n,
     allChars isHexDigit (hex n) = true /\
     HexString.Raw.to_N (hex n) 0 = n /\
     (n <> 0%N -> exists d s, hex n = String d s /\ d <> "0"%char)) /\
  (forall other,
     entryAddress function = None -> entryAddress other = None ->
     identity function <> identity other ->
     name (pickFunctionName cleanName module function)
     <> name (pickFunctionName cleanName module other)).
Proof.
  assert (Hno : forall f, entryAddress f = None ->
            pickFunctionName cleanName module f
            = setName f ("func_noentry_" +:+ hex (identity f))).
  { intros f. unfold entryAddress, pickFunctionName.
    destruct (entry f) as [[[a|]]|]; [discriminate | done..]. }
  split; [|split; [|split; [|split]]].
  - intros a He Hn. rewrite (pickFunctionName_symbol _ _ _ a He Hn). cbv zeta.
    destruct (decide _), (contains _ _); simpl;
      rewrite <- ?app_assoc, ?app_nil_r; done.
  - intros a He Hn. split; [|split].
    + unfold entryAddress, pickFunctionName in *.
      destruct (entry function) as [[[a'|]]|]; try discriminate.
      injection He as ->. by rewrite Hn.
    + apply hexOfAddress_unsigned.
    + unfold entryAddress, pickFunctionName in *.
      destruct (entry function) as [[[a'|]]|]; try discriminate.
      injection He as ->. by rewrite Hn.
  - intros He. by rewrite (Hno _ He).
  - intros n. split; [apply hex_digits|]. split; [apply hex_value|].
    apply hex_no_leading_zero.
  - intros other He Ho Hne. rewrite (Hno _ He), (Hno _ Ho). simpl.
    intros [= H]. by apply hex_inj in H.
Qed.


Lemma pickFunctionName_cases_witness :
  name (pickFunctionName Examples.keepName Examples.exampleModule Examples.functionFoo)
    = "_Z3fooi"%string /\
  comment (pickFunctionName Examples.keepName Examples.exampleModule Examples.functionFoo)
    = ["foo(int)"%string] /\
  name (pickFunctionName Examples.keepName Examples.exampleModule Examples.functionAt255)
    = "func_ff"%string /\
  name (pickFunctionName Examples.keepName Examples.exampleModule Examples.functionNoEntry)
    = "func_noentry_2000"%string.
Proof.
  destruct (pickFunctionName_cases Examples.keepName Examples.exampleModule
              Examples.functionFoo) as (Hsym & _).
  destruct (Hsym 4198400%Z) as [Hname Hcomment]; [reflexivity | discriminate |].
  destruct (pickFunctionName_cases Examples.keepName Examples.exampleModule
              Examples.functionAt255) as (_ & Haddr & _).
  destruct (Haddr 255%Z) as (Hff & _); [reflexivity | reflexivity |].
  destruct (pickFunctionName_cases Examples.keepName Examples.exampleModule
              Examples.functionNoEntry) as (_ & _ & Hnoentry & _).
  destruct Hnoentry as (Hne & _); [reflexivity|].
  split; [exact Hname|]. split; [exact Hcomment|]. split; [exact Hff | exact Hne].
Defined.
End NamingProofs.

(* ================================================================== *)
(** * Properties of the pipeline controller                            *)
(* ================================================================== *)

Module PipelineProofs.

Import Pipeline.

(** ** What a run writes *)

(** The slots set, in the order of the calls of [setX]. *)
Definition written (t : list Event) : list Slot :=
  omap (fun e => match e with Set_ slot _ => Some slot | _ => None end) t.

Lemma written_app t1 t2 : written (t1 ++ t2) = written t1 ++ written t2.
Proof. apply omap_app. Qed.

Lemma writes_written slot t :
  writes slot t = length (filter (fun s => s = slot) (written t)).
Proof.
  unfold writes, written. induction t as [|e t IH]; [reflexivity|].
  rewrite filter_cons.
  destruct e as [msg| |slot' o|a f]; cbn [omap list_omap isSet];
    try (rewrite decide_False by done; exact IH).
  rewrite filter_cons.
  destruct (decide (slot' = slot)) as [->|Hne].
  - rewrite bool_decide_eq_true_2 by done.
    rewrite decide_True by done. simpl. by rewrite IH.
  - rewrite bool_decide_eq_false_2 by done.
    rewrite decide_False by done. exact IH.
Qed.

(** The stores that [Hooks] refers to, and [Hooks]. *)
Definition sameStores (s s' : PState) : Prop :=
  conventions (context s') = conventions (context s) /\
  signatures (context s') = signatures (context s) /\
  hooks (context s') = hooks (context s).

(** A computation that sets no slot and changes none of the three,
    however it ends. *)
Definition Quiet {A} (m : M A) : Prop :=
  forall s, written (trace (final (m s))) = written (trace s) /\
            sameStores s (final (m s)).

Lemma sameStores_refl s : sameStores s s.
Proof. by repeat split. Qed.

Lemma sameStores_trans s1 s2 s3 :
  sameStores s1 s2 -> sameStores s2 s3 -> sameStores s1 s3.
Proof. intros (? & ? & ?) (? & ? & ?). repeat split; congruence. Qed.

Lemma Quiet_ret {A} (a : A) : Quiet (mret a).
Proof. intros s. split; [done | apply sameStores_refl]. Qed.

Lemma Quiet_bind {A B} (m : M A) (f : A -> M B) :
  Quiet m -> (forall a, Quiet (f a)) -> Quiet (m ≫= f).
Proof.
  intros Hm Hf s. unfold mbind, M_bind. specialize (Hm s).
  destruct (m s) as [a s1|e s1]; simpl in *; [|done].
  destruct (Hf a s1) as [Hw Hs], Hm as [Hw' Hs'].
  split; [congruence | by eapply sameStores_trans].
Qed.

Lemma Quiet_raise {A} e : Quiet (@raise A e).
Proof. intros s. split; [done | apply sameStores_refl]. Qed.

Lemma Quiet_getContext : Quiet getContext.
Proof. intros s. split; [done | apply sameStores_refl]. Qed.

Lemma Quiet_new : Quiet new.
Proof. intros s. split; [done | by repeat split]. Qed.

Lemma Quiet_deref {A} (slot : Context -> option A) : Quiet (deref slot).
Proof.
  unfold deref. apply Quiet_bind; [apply Quiet_getContext|].
  intros c. destruct (slot c); [apply Quiet_ret | apply Quiet_raise].
Qed.

Lemma Quiet_at m f : Quiet (at_ m f).
Proof. unfold at_. destruct (entries m !! f); [apply Quiet_ret | apply Quiet_raise]. Qed.

Lemma Quiet_logToken msg : Quiet (logToken msg).
Proof.
  intros s. simpl. rewrite written_app, app_nil_r.
  split; [done | by repeat split].
Qed.

Lemma Quiet_run a f : Quiet (run a f).
Proof.
  intros s. simpl. rewrite written_app, app_nil_r.
  split; [done | by repeat split].
Qed.

Lemma Quiet_throwIfCancelled env : Quiet (throwIfCancelled env).
Proof.
  intros s. unfold throwIfCancelled. destruct (cancelled env _);
    (split; [done | apply sameStores_refl]).
Qed.

Lemma Quiet_poll env : Quiet (poll env).
Proof.
  apply Quiet_bind; [|intros; apply Quiet_throwIfCancelled].
  intros s. simpl. rewrite written_app, app_nil_r.
  split; [done | by repeat split].
Qed.

Lemma Quiet_runCancellable env a f : Quiet (runCancellable env a f).
Proof.
  apply Quiet_bind; [apply Quiet_run | intros; apply Quiet_throwIfCancelled].
Qed.

Lemma Quiet_putDataflows o : Quiet (putDataflows o).
Proof. intros s. split; [done | by repeat split]. Qed.

Lemma Quiet_putGraphs o : Quiet (putGraphs o).
Proof. intros s. split; [done | by repeat split]. Qed.

Lemma Quiet_putLivenesses o : Quiet (putLivenesses o).
Proof. intros s. split; [done | by repeat split]. Qed.

Lemma Quiet_foreach {A} (l : list A) body :
  (forall x, Quiet (body x)) -> Quiet (foreach l body).
Proof.
  intros H. induction l as [|x l IH]; simpl.
  - apply Quiet_ret.
  - apply Quiet_bind; [apply H | intros; exact IH].
Qed.

Create HintDb quiet.

#[local] Hint Resolve Quiet_ret Quiet_raise Quiet_getContext Quiet_new
  Quiet_deref Quiet_at Quiet_logToken Quiet_run Quiet_throwIfCancelled
  Quiet_poll Quiet_runCancellable Quiet_putDataflows Quiet_putGraphs
  Quiet_putLivenesses : quiet.

Ltac quiet :=
  repeat first
    [ solve [auto with quiet]
    | apply Quiet_foreach; intros ?
    | apply Quiet_bind; [|intros ?] ].

Lemma Quiet_dataflowAnalysisOf env f : Quiet (dataflowAnalysisOf env f).
Proof. unfold dataflowAnalysisOf. quiet. Qed.

Lemma Quiet_structuralAnalysisOf f : Quiet (structuralAnalysisOf f).
Proof. unfold structuralAnalysisOf. quiet. Qed.

Lemma Quiet_livenessAnalysisOf f : Quiet (livenessAnalysisOf f).
Proof. unfold livenessAnalysisOf. quiet. Qed.

Lemma Quiet_checkTree : Quiet checkTree.
Proof. unfold checkTree. quiet. Qed.

#[local] Hint Resolve Quiet_dataflowAnalysisOf Quiet_structuralAnalysisOf
  Quiet_livenessAnalysisOf Quiet_checkTree : quiet.


(** ** The writes of each phase *)

(** [m], run from [s], sets the slots [w] in this order and ends in a
    state where [Q] holds; or it stops at an exception having set the
    first few of them. *)
Definition Spec {A} (m : M A) (s : PState) (w : list Slot)
    (Q : A -> PState -> Prop) : Prop :=
  match m s with
  | Ok a s' => written (trace s') = written (trace s) ++ w /\ Q a s'
  | Raise _ s' =>
    exists w', w' `prefix_of` w /\ written (trace s') = written (trace s) ++ w'
  end.

Lemma Spec_bind {A B} (m : M A) (f : A -> M B) s w w1 w2 Q1 Q2 :
  w = w1 ++ w2 ->
  Spec m s w1 Q1 ->
  (forall a s1, Q1 a s1 -> Spec (f a) s1 w2 Q2) ->
  Spec (m ≫= f) s w Q2.
Proof.
  intros ->. unfold Spec, mbind, M_bind.
  destruct (m s) as [a s1|e s1].
  - intros [Hw HQ] Hf. specialize (Hf a s1 HQ).
    destruct (f a s1) as [b s2|e s2].
    + destruct Hf as [Hw2 HQ2]. split; [|done]. by rewrite Hw2, Hw, app_assoc.
    + destruct Hf as (w' & Hp & Hw2). exists (w1 ++ w'). split.
      * by apply prefix_app.
      * by rewrite Hw2, Hw, app_assoc.
  - intros (w' & Hp & Hw) _. exists w'. split; [|done].
    by apply prefix_app_r.
Qed.

Lemma Spec_weaken {A} (m : M A) s w (Q Q' : A -> PState -> Prop) :
  Spec m s w Q -> (forall a s', Q a s' -> Q' a s') -> Spec m s w Q'.
Proof.
  unfold Spec. destruct (m s); [|done]. intros [Hw HQ] Himp.
  split; [done | by apply Himp].
Qed.

Lemma Spec_quiet {A} (m : M A) s :
  Quiet m -> Spec m s [] (fun _ s' => sameStores s s').
Proof.
  intros H. unfold Spec. destruct (H s) as [Hw Hs].
  destruct (m s) as [a s'|e s']; simpl in *.
  - by rewrite app_nil_r.
  - exists []. by rewrite app_nil_r.
Qed.

Lemma Spec_bind_quiet {A B} (m : M A) (f : A -> M B) s w Q :
  Quiet m ->
  (forall a s1, sameStores s s1 -> Spec (f a) s1 w Q) ->
  Spec (m ≫= f) s w Q.
Proof.
  intros Hm Hf. eapply (Spec_bind m f s w [] w); [done | by apply Spec_quiet | done].
Qed.

Lemma Spec_getContext_bind {B} (f : Context -> M B) s w Q :
  Spec (f (context s)) s w Q -> Spec (getContext ≫= f) s w Q.
Proof. done. Qed.

Lemma Spec_deref_bind {A B} (slot : Context -> option A) (f : A -> M B) s w Q :
  (forall a, slot (context s) = Some a -> Spec (f a) s w Q) ->
  Spec (deref slot ≫= f) s w Q.
Proof.
  intros H. unfold Spec, deref, mbind, M_bind, getContext.
  destruct (slot (context s)) as [a|] eqn:E; simpl.
  - by apply H.
  - exists []. split; [apply prefix_nil | by rewrite app_nil_r].
Qed.

(** The setters. *)
Ltac spec_set :=
  intros; unfold Spec; simpl; rewrite written_app; simpl;
  rewrite ?app_nil_r; repeat split; reflexivity.

Lemma Spec_setProgram o s :
  Spec (setProgram o) s [Program] (fun _ s' => sameStores s s').
Proof. spec_set. Qed.

Lemma Spec_setFunctions o s :
  Spec (setFunctions o) s [Functions] (fun _ s' => sameStores s s').
Proof. spec_set. Qed.

Lemma Spec_setConventions o s :
  Spec (setConventions o) s [Conventions] (fun _ s' =>
    conventions (context s') = Some o /\
    signatures (context s') = signatures (context s) /\
    hooks (context s') = hooks (context s)).
Proof. spec_set. Qed.

Lemma Spec_setSignatures o s :
  Spec (setSignatures o) s [Signatures] (fun _ s' =>
    conventions (context s') = conventions (context s) /\
    signatures (context s') = Some o /\
    hooks (context s') = hooks (context s)).
Proof. spec_set. Qed.

Lemma Spec_setHooks o s :
  Spec (setHooks o) s [Hooks] (fun _ s' =>
    conventions (context s') = conventions (context s) /\
    signatures (context s') = signatures (context s) /\
    hooks (context s') = Some o).
Proof. spec_set. Qed.

Lemma Spec_setDataflows o s :
  Spec (setDataflows o) s [Dataflows] (fun _ s' => sameStores s s').
Proof. spec_set. Qed.

Lemma Spec_setVariables o s :
  Spec (setVariables o) s [Variables] (fun _ s' => sameStores s s').
Proof. spec_set. Qed.

Lemma Spec_setGraphs o s :
  Spec (setGraphs o) s [Graphs] (fun _ s' => sameStores s s').
Proof. spec_set. Qed.

Lemma Spec_setLivenesses o s :
  Spec (setLivenesses o) s [Livenesses] (fun _ s' => sameStores s s').
Proof. spec_set. Qed.

Lemma Spec_setTypes o s :
  Spec (setTypes o) s [Types] (fun _ s' => sameStores s s').
Proof. spec_set. Qed.

Lemma Spec_setTree o s :
  Spec (setTree o) s [Tree] (fun _ s' => sameStores s s').
Proof. spec_set. Qed.

Lemma Spec_setTermToFunction o s :
  Spec (setTermToFunction o) s [TermToFunction] (fun _ s' => sameStores s s').
Proof. spec_set. Qed.

#[local] Opaque setProgram setFunctions setConventions setSignatures setHooks
  setDataflows setVariables setGraphs setLivenesses setTypes setTree
  setTermToFunction.

(** Steps over the quiet computations at the head of a sequence. *)
Ltac spec_quiet :=
  repeat (eapply Spec_bind_quiet; [solve [quiet] | intros ? ? ?]).

(** Closes a goal on the three stores from the equations at hand. *)
Ltac stores :=
  unfold sameStores in *; simpl in *;
  repeat match goal with H : _ /\ _ |- _ => destruct H end;
  repeat split; congruence.

Lemma createProgram_spec env s :
  Spec (createProgram env) s [Program] (fun _ s' => sameStores s s').
Proof.
  unfold createProgram. spec_quiet.
  eapply Spec_weaken; [apply Spec_setProgram|]. intros; stores.
Qed.

Lemma createFunctions_spec env s :
  Spec (createFunctions env) s [Functions] (fun _ s' => sameStores s s').
Proof.
  unfold createFunctions. spec_quiet.
  eapply Spec_weaken; [apply Spec_setFunctions|]. intros; stores.
Qed.

Lemma reconstructVariables_spec s :
  Spec reconstructVariables s [Variables] (fun _ s' => sameStores s s').
Proof.
  unfold reconstructVariables. spec_quiet.
  eapply Spec_weaken; [apply Spec_setVariables|]. intros; stores.
Qed.

Lemma reconstructTypes_spec env s :
  Spec (reconstructTypes env) s [Types] (fun _ s' => sameStores s s').
Proof.
  unfold reconstructTypes. spec_quiet.
  eapply Spec_weaken; [apply Spec_setTypes|]. intros; stores.
Qed.

Lemma generateTree_spec env s :
  Spec (generateTree env) s [Tree] (fun _ s' => sameStores s s').
Proof.
  unfold generateTree. spec_quiet.
  eapply Spec_weaken; [apply Spec_setTree|]. intros; stores.
Qed.

Lemma computeTermToFunctionMapping_spec s :
  Spec computeTermToFunctionMapping s [TermToFunction]
    (fun _ s' => sameStores s s').
Proof.
  unfold computeTermToFunctionMapping. spec_quiet.
  eapply Spec_weaken; [apply Spec_setTermToFunction|]. intros; stores.
Qed.

Lemma reconstructSignatures_spec env s :
  Spec (reconstructSignatures env) s [Signatures] (fun _ s' =>
    conventions (context s') = conventions (context s) /\
    is_Some (signatures (context s')) /\
    hooks (context s') = hooks (context s)).
Proof.
  unfold reconstructSignatures. spec_quiet.
  eapply Spec_weaken; [apply Spec_setSignatures|].
  intros ? s' (Hc & Hs & Hh). rewrite Hs. split; [stores|]. split; [eauto | stores].
Qed.

Lemma structuralAnalysis_spec env s :
  Spec (structuralAnalysis env) s [Graphs] (fun _ s' => sameStores s s').
Proof.
  unfold structuralAnalysis. spec_quiet.
  eapply (Spec_bind _ _ _ _ [Graphs] []); [done | apply Spec_setGraphs|].
  intros ? s3 H3. eapply Spec_weaken; [apply Spec_quiet; quiet|].
  intros; stores.
Qed.

Lemma livenessAnalysis_spec s :
  Spec livenessAnalysis s [Livenesses] (fun _ s' => sameStores s s').
Proof.
  unfold livenessAnalysis. spec_quiet.
  eapply (Spec_bind _ _ _ _ [Livenesses] []); [done | apply Spec_setLivenesses|].
  intros ? s3 H3. eapply Spec_weaken; [apply Spec_quiet; quiet|].
  intros; stores.
Qed.

(** [Hooks] refers to the stores that are installed. *)
Definition hooksCurrent (c : Context) : Prop :=
  exists h, hooks c = Some h /\
            conventions c = Some (conventionsRef h) /\
            signatures c = Some (signaturesRef h).

(** A store that was installed is still the one installed. *)
Definition keeps {A} (slot : Context -> option A) (s s' : PState) : Prop :=
  forall o, slot (context s) = Some o -> slot (context s') = Some o.

(** What [dataflowAnalysis] sets: the two stores when they are not
    there, then [Hooks] and [Dataflows]. *)
Definition dataflowScript (c : Context) : list Slot :=
  (if signatures c is None then [Signatures] else []) ++
  (if conventions c is None then [Conventions] else []) ++
  [Hooks; Dataflows].

Lemma dataflowAnalysis_spec env s :
  Spec (dataflowAnalysis env) s (dataflowScript (context s)) (fun _ s' =>
    hooksCurrent (context s') /\ keeps conventions s s' /\ keeps signatures s s').
Proof.
  unfold dataflowAnalysis, dataflowScript.
  eapply Spec_bind_quiet; [quiet | intros ? s1 H1].
  apply Spec_getContext_bind.
  eapply (Spec_bind _ _ _ _ (if signatures (context s) is None then [Signatures] else [])
            _ (fun _ s2 =>
                 conventions (context s2) = conventions (context s) /\
                 is_Some (signatures (context s2)) /\
                 keeps signatures s s2)); [reflexivity | |].
  { assert (Es : signatures (context s1) = signatures (context s)) by stores.
    rewrite Es. destruct (signatures (context s)) as [g|] eqn:Eg.
    - eapply Spec_weaken; [apply Spec_quiet; quiet|].
      intros ? s2 H2. split; [stores|]. split.
      + exists g. stores.
      + intros o Ho. stores.
    - eapply Spec_bind_quiet; [quiet | intros o s2 H2].
      eapply Spec_weaken; [apply Spec_setSignatures|].
      intros ? s3 H3. split; [stores|]. split.
      + exists o. stores.
      + intros o' Ho'. stores. }
  intros ? s2 (Hc2 & Hs2 & Hk2).
  apply Spec_getContext_bind.
  eapply (Spec_bind _ _ _ _ (if conventions (context s) is None then [Conventions] else [])
            _ (fun _ s3 =>
                 is_Some (conventions (context s3)) /\
                 keeps conventions s s3 /\
                 signatures (context s3) = signatures (context s2))); [reflexivity | |].
  { rewrite Hc2. destruct (conventions (context s)) as [c|] eqn:Ec.
    - eapply Spec_weaken; [apply Spec_quiet; quiet|].
      intros ? s3 H3. split; [exists c; stores|]. split; [|stores].
      intros o Ho. stores.
    - eapply Spec_bind_quiet; [quiet | intros o s3 H3].
      eapply Spec_weaken; [apply Spec_setConventions|].
      intros ? s4 H4. split; [exists o; stores|]. split; [|stores].
      intros o' Ho'. stores. }
  intros ? s3 (Hc3 & Hk3 & Hs3).
  eapply Spec_bind_quiet; [quiet | intros h s4 H4].
  apply Spec_deref_bind. intros c Ec.
  apply Spec_deref_bind. intros g Eg.
  eapply (Spec_bind _ _ _ _ [Hooks] [Dataflows]); [done | apply Spec_setHooks|].
  intros ? s5 H5. simpl in H5.
  eapply Spec_bind_quiet; [quiet | intros d s6 H6].
  eapply (Spec_bind _ _ _ _ [Dataflows] []); [done | apply Spec_setDataflows|].
  intros ? s7 H7.
  eapply Spec_weaken; [apply Spec_quiet; quiet|].
  intros ? s8 H8. split; [|split].
  - exists {| hooksId := h; conventionsRef := c; signaturesRef := g |}.
    split; [|split]; stores.
  - intros o Ho. specialize (Hk3 o Ho). stores.
  - intros o Ho. specialize (Hk2 o Ho). stores.
Qed.

(** When both stores are there, [dataflowAnalysis] sets [Hooks] and
    [Dataflows] only. *)
Lemma dataflowAnalysis_again env s :
  is_Some (conventions (context s)) ->
  is_Some (signatures (context s)) ->
  Spec (dataflowAnalysis env) s [Hooks; Dataflows] (fun _ s' =>
    hooksCurrent (context s') /\ keeps conventions s s' /\ keeps signatures s s').
Proof.
  intros [c Hc] [g Hg]. pose proof (dataflowAnalysis_spec env s) as H.
  unfold dataflowScript in H. by rewrite Hc, Hg in H.
Qed.

(** ** The writes of [decompile] *)

(** The slots a run of [decompile] sets when it is not cancelled, in
    order. *)
Definition script (c : Context) : list Slot :=
  Program :: Functions ::
  dataflowScript c ++
  [Signatures; Hooks; Dataflows; Variables; Graphs; Livenesses; Types;
   Tree; TermToFunction].

Lemma hooksCurrent_same s s' :
  sameStores s s' -> hooksCurrent (context s) -> hooksCurrent (context s').
Proof. intros Hs (h & Hh & Hc & Hg). exists h. stores. Qed.

Lemma dataflowScript_same s s' :
  sameStores s s' -> dataflowScript (context s') = dataflowScript (context s).
Proof. intros (Hc & Hs & _). unfold dataflowScript. by rewrite Hc, Hs. Qed.

Lemma Quiet_treeCheck env :
  Quiet (if NC_TREE_CHECKS env then checkTree;; poll env else mret tt).
Proof. destruct (NC_TREE_CHECKS env); quiet. Qed.

#[local] Hint Resolve Quiet_treeCheck : quiet.

Lemma decompile_spec env s :
  Spec (decompile env) s (script (context s)) (fun _ s' =>
    hooksCurrent (context s') /\ keeps conventions s s').
Proof.
  unfold decompile, script.
  eapply Spec_bind_quiet; [quiet | intros ? s1 H1].
  eapply (Spec_bind _ _ _ _ [Program]);
    [reflexivity | apply createProgram_spec | intros ? s2 H2].
  eapply Spec_bind_quiet; [quiet | intros ? s3 H3].
  eapply (Spec_bind _ _ _ _ [Functions]);
    [reflexivity | apply createFunctions_spec | intros ? s4 H4].
  eapply Spec_bind_quiet; [quiet | intros ? s5 H5].
  assert (H05 : sameStores s s5) by stores.
  eapply (Spec_bind _ _ _ _ (dataflowScript (context s)));
    [reflexivity
    | rewrite <- (dataflowScript_same _ _ H05); apply dataflowAnalysis_spec
    | intros ? s6 (Hh6 & Hc6 & Hs6)].
  eapply Spec_bind_quiet; [quiet | intros ? s7 H7].
  eapply (Spec_bind _ _ _ _ [Signatures]);
    [reflexivity | apply reconstructSignatures_spec | intros ? s8 (Hc8 & Hs8 & Hh8)].
  eapply Spec_bind_quiet; [quiet | intros ? s9 H9].
  assert (Hc9 : is_Some (conventions (context s9))).
  { destruct Hh6 as (h & _ & Hc & _). exists (conventionsRef h). stores. }
  assert (Hs9 : is_Some (signatures (context s9))).
  { destruct Hs8 as [g Hg]. exists g. stores. }
  eapply (Spec_bind _ _ _ _ [Hooks; Dataflows]);
    [reflexivity | by apply dataflowAnalysis_again
    | intros ? s10 (Hh10 & Hc10 & Hs10)].
  eapply Spec_bind_quiet; [quiet | intros ? s11 H11].
  eapply (Spec_bind _ _ _ _ [Variables]);
    [reflexivity | apply reconstructVariables_spec | intros ? s12 H12].
  eapply Spec_bind_quiet; [quiet | intros ? s13 H13].
  eapply (Spec_bind _ _ _ _ [Graphs]);
    [reflexivity | apply structuralAnalysis_spec | intros ? s14 H14].
  eapply Spec_bind_quiet; [quiet | intros ? s15 H15].
  eapply (Spec_bind _ _ _ _ [Livenesses]);
    [reflexivity | apply livenessAnalysis_spec | intros ? s16 H16].
  eapply Spec_bind_quiet; [quiet | intros ? s17 H17].
  eapply (Spec_bind _ _ _ _ [Types]);
    [reflexivity | apply reconstructTypes_spec | intros ? s18 H18].
  eapply Spec_bind_quiet; [quiet | intros ? s19 H19].
  eapply (Spec_bind _ _ _ _ [Tree]);
    [reflexivity | apply generateTree_spec | intros ? s20 H20].
  eapply Spec_bind_quiet; [quiet | intros ? s21 H21].
  eapply Spec_bind_quiet; [quiet | intros ? s22 H22].
  eapply (Spec_bind _ _ _ _ [TermToFunction] []);
    [reflexivity | apply computeTermToFunctionMapping_spec | intros ? s23 H23].
  eapply Spec_bind_quiet; [quiet | intros ? s24 H24].
  eapply Spec_weaken; [apply Spec_quiet; quiet|].
  intros ? s25 H25.
  assert (Hend : sameStores s10 s25) by stores.
  split; [by eapply hooksCurrent_same|].
  intros o Ho.
  assert (Ho5 : conventions (context s5) = Some o) by stores.
  specialize (Hc6 o Ho5).
  assert (Ho9 : conventions (context s9) = Some o) by stores.
  specialize (Hc10 o Ho9). stores.
Qed.

(** The run from the start of a run: what was written is the script, or
    the first few slots of it when the run was cancelled or failed. *)
Lemma decompile_written env c :
  match decompile env (start c) with
  | Ok _ s' =>
    written (trace s') = script c /\ hooksCurrent (context s') /\
    keeps conventions (start c) s'
  | Raise _ s' => written (trace s') `prefix_of` script c
  end.
Proof.
  pose proof (decompile_spec env (start c)) as H. unfold Spec in H.
  destruct (decompile env (start c)) as [a s'|e s']; simpl in *.
  - done.
  - destruct H as (w' & Hp & ->). done.
Qed.

(** ** Hooks and the stores it refers to *)

(** The slots set after [Hooks] was first set. *)
Fixpoint afterHooks (l : list Slot) : list Slot :=
  match l with
  | [] => []
  | slot :: l' => if decide (slot = Hooks) then l' else afterHooks l'
  end.

Lemma afterHooks_prefix l1 l2 :
  l1 `prefix_of` l2 -> afterHooks l1 `prefix_of` afterHooks l2.
Proof.
  intros [k ->]. induction l1 as [|x l1 IH]; simpl.
  - apply prefix_nil.
  - destruct (decide (x = Hooks)); [by apply prefix_app_r | exact IH].
Qed.

Lemma afterHooks_script c :
  afterHooks (script c)
  = [Dataflows; Signatures; Hooks; Dataflows; Variables; Graphs; Livenesses;
     Types; Tree; TermToFunction].
Proof.
  unfold script, dataflowScript.
  by destruct (signatures c), (conventions c).
Qed.

(** C1, as the code has it.  Once [Hooks] is built, [Conventions] is
    not set again for the rest of the run, and a [Conventions] that was
    installed before the run is still the one installed at its end.
    [Signatures] is set again, once, by [reconstructSignatures], which
    installs a new object; the [dataflowAnalysis] that follows builds a
    new [Hooks], so that when [decompile] returns [Hooks] refers to the
    stores installed.  A run that is cancelled has set the first few of
    these slots. *)
Theorem hooks_rebuilt_after_signatures_replaced env c :
  match decompile env (start c) with
  | Ok _ s' =>
    afterHooks (written (trace s'))
    = [Dataflows; Signatures; Hooks; Dataflows; Variables; Graphs;
       Livenesses; Types; Tree; TermToFunction] /\
    hooksCurrent (context s') /\
    keeps conventions (start c) s'
  | Raise _ s' =>
    afterHooks (written (trace s'))
    `prefix_of` [Dataflows; Signatures; Hooks; Dataflows; Variables; Graphs;
                 Livenesses; Types; Tree; TermToFunction]
  end.
Proof.
  pose proof (decompile_written env c) as H.
  destruct (decompile env (start c)) as [a s'|e s'].
  - destruct H as (-> & Hh & Hk). by rewrite afterHooks_script.
  - rewrite <- (afterHooks_script c). by apply afterHooks_prefix.
Qed.

(** The run of the example, which returns: at its end [Hooks] is the
    second one built, over the [Conventions] 3 and the second
    [Signatures] 8. *)
Lemma hooks_rebuilt_after_signatures_replaced_witness :
  afterHooks
    (written (trace (final (decompile Examples.exampleEnvironment
                              (start (newContext Examples.exampleModule))))))
  = [Dataflows; Signatures; Hooks; Dataflows; Variables; Graphs;
     Livenesses; Types; Tree; TermToFunction] /\
  hooksCurrent
    (context (final (decompile Examples.exampleEnvironment
                       (start (newContext Examples.exampleModule))))) /\
  hooks (context (final (decompile Examples.exampleEnvironment
                           (start (newContext Examples.exampleModule)))))
  = Some {| hooksId := 9; conventionsRef := 3; signaturesRef := 8 |}.
Proof.
  pose proof (hooks_rebuilt_after_signatures_replaced Examples.exampleEnvironment
                (newContext Examples.exampleModule)) as H.
  assert (E : decompile Examples.exampleEnvironment
                (start (newContext Examples.exampleModule))
              = Ok tt (final (decompile Examples.exampleEnvironment
                                (start (newContext Examples.exampleModule)))))
    by (vm_compute; reflexivity).
  rewrite E in H. destruct H as (Hw & Hh & _).
  split; [exact Hw|]. split; [exact Hh|]. vm_compute. reflexivity.
Defined.


(** The events that set one of the two stores or [Hooks]. *)
Definition storeEvents (t : list Event) : list Event :=
  filter (fun e => isSet Conventions e || isSet Signatures e || isSet Hooks e = true) t.

(** C1, as stated, fails: in the run of the example, [Hooks] (object 4)
    is built over the [Signatures] 2 and the [Conventions] 3, and then
    [reconstructSignatures] installs the [Signatures] 8 in place of 2;
    until [Hooks] 9 is built, the installed [Hooks] refers to a
    [Signatures] that is no longer the one installed. *)
Lemma signatures_replaced_after_hooks_built :
  storeEvents
    (trace (final (decompile Examples.exampleEnvironment
                     (start (newContext Examples.exampleModule)))))
  = [Set_ Signatures 2; Set_ Conventions 3; Set_ Hooks 4;
     Set_ Signatures 8; Set_ Hooks 9] /\
  hooks (context Examples.afterReconstruction)
  = Some {| hooksId := 4; conventionsRef := 3; signaturesRef := 2 |} /\
  signatures (context Examples.afterReconstruction) = Some 8.
Proof. vm_compute. repeat split. Qed.

(** ** The number of writes of each slot *)

Lemma prefix_filter_length {A} (P : A -> Prop) `{!forall x, Decision (P x)}
    (l1 l2 : list A) :
  l1 `prefix_of` l2 -> length (filter P l1) <= length (filter P l2).
Proof. intros [k ->]. rewrite filter_app, length_app. lia. Qed.

(** C2, as the code has it.  In a run of [decompile], every slot but
    [Signatures], [Hooks] and [Dataflows] is set at most once, and these
    three at most twice; a run that returns has set [Hooks] and
    [Dataflows] twice each, once in each dataflow phase, and
    [Signatures] twice, or once when one was installed before the
    run. *)
Theorem writes_of_each_slot env c :
  (forall slot,
     slot ∉ [Signatures; Hooks; Dataflows] ->
     writes slot (trace (final (decompile env (start c)))) <= 1) /\
  (forall slot, writes slot (trace (final (decompile env (start c)))) <= 2) /\
  (forall s',
     decompile env (start c) = Ok tt s' ->
     writes Hooks (trace s') = 2 /\
     writes Dataflows (trace s') = 2 /\
     writes Signatures (trace s') = if signatures c is None then 2 else 1).
Proof.
  pose proof (decompile_written env c) as H.
  assert (Hp : written (trace (final (decompile env (start c))))
               `prefix_of` script c).
  { destruct (decompile env (start c)) as [a s'|e s']; simpl.
    - destruct H as (-> & _). done.
    - done. }
  split; [|split].
  - intros slot Hn. rewrite writes_written.
    etrans; [apply (prefix_filter_length _ _ _ Hp)|].
    unfold script, dataflowScript.
    destruct (signatures c), (conventions c), slot; vm_compute; try lia;
      destruct Hn; set_solver.
  - intros slot. rewrite writes_written.
    etrans; [apply (prefix_filter_length _ _ _ Hp)|].
    unfold script, dataflowScript.
    destruct (signatures c), (conventions c), slot; vm_compute; lia.
  - intros s' E. rewrite E in H. destruct H as (Hw & _).
    rewrite !writes_written, Hw. unfold script, dataflowScript.
    destruct (signatures c), (conventions c); vm_compute; done.
Qed.

Lemma writes_of_each_slot_witness :
  writes Conventions
    (trace (final (decompile Examples.exampleEnvironment
                     (start (newContext Examples.exampleModule))))) <= 1 /\
  writes Hooks
    (trace (final (decompile Examples.exampleEnvironment
                     (start (newContext Examples.exampleModule))))) = 2 /\
  writes Dataflows
    (trace (final (decompile Examples.exampleEnvironment
                     (start (newContext Examples.exampleModule))))) = 2 /\
  writes Signatures
    (trace (final (decompile Examples.exampleEnvironment
                     (start (newContext Examples.exampleModule))))) = 2.
Proof.
  destruct (writes_of_each_slot Examples.exampleEnvironment
              (newContext Examples.exampleModule)) as (Honce & _ & Hret).
  split.
  - apply Honce. vm_compute. intros Hin.
    repeat (apply elem_of_cons in Hin as [Hin|Hin]; [discriminate Hin|]).
    inversion Hin.
  - apply (Hret (final (decompile Examples.exampleEnvironment
                          (start (newContext Examples.exampleModule))))).
    vm_compute. reflexivity.
Defined.

(** C2, as stated, fails for the [Dataflows] slot: the run of the
    example sets it twice. *)
Lemma dataflows_written_twice :
  writes Dataflows
    (trace (final (decompile Examples.exampleEnvironment
                     (start (newContext Examples.exampleModule)))))
  = 2.
Proof. vm_compute. reflexivity. Qed.

(** ** Polls of the cancellation token *)

Definition isPoll (e : Event) : bool :=
  match e with Poll => true | _ => false end.

(** The number of polls made so far. *)
Definition polls (t : list Event) : nat :=
  length (filter (fun e => isPoll e = true) t).

(** A computation that never polls, however it ends. *)
Definition NoPoll {A} (m : M A) : Prop :=
  forall s, polls (trace (final (m s))) = polls (trace s).

Lemma NoPoll_ret {A} (a : A) : NoPoll (mret a).
Proof. intros s. done. Qed.

Lemma NoPoll_raise {A} e : NoPoll (@raise A e).
Proof. intros s. done. Qed.

Lemma NoPoll_bind {A B} (m : M A) (f : A -> M B) :
  NoPoll m -> (forall a, NoPoll (f a)) -> NoPoll (m ≫= f).
Proof.
  intros Hm Hf s. unfold mbind, M_bind. specialize (Hm s).
  destruct (m s) as [a s1|e s1]; simpl in *; [|done].
  by rewrite Hf.
Qed.

Lemma NoPoll_emit e : isPoll e = false -> NoPoll (emit e).
Proof.
  intros He s. unfold polls. simpl. rewrite filter_app, length_app.
  rewrite filter_cons, decide_False by (rewrite He; done). simpl. lia.
Qed.

Lemma NoPoll_getContext : NoPoll getContext.
Proof. intros s. done. Qed.

Lemma NoPoll_modifyContext f : NoPoll (modifyContext f).
Proof. intros s. done. Qed.

Lemma NoPoll_new : NoPoll new.
Proof. intros s. done. Qed.

Lemma NoPoll_deref {A} (slot : Context -> option A) : NoPoll (deref slot).
Proof.
  unfold deref. apply NoPoll_bind; [apply NoPoll_getContext|].
  intros c. destruct (slot c); [apply NoPoll_ret | apply NoPoll_raise].
Qed.

Lemma NoPoll_at m f : NoPoll (at_ m f).
Proof. unfold at_. destruct (entries m !! f); [apply NoPoll_ret | apply NoPoll_raise]. Qed.

Lemma NoPoll_foreach {A} (l : list A) body :
  (forall x, NoPoll (body x)) -> NoPoll (foreach l body).
Proof.
  intros H. induction l as [|x l IH]; simpl.
  - apply NoPoll_ret.
  - apply NoPoll_bind; [apply H | intros; exact IH].
Qed.

Lemma NoPoll_livenessAnalysisOf f : NoPoll (livenessAnalysisOf f).
Proof.
  unfold livenessAnalysisOf, logToken, run, putLivenesses.
  repeat first
    [ apply NoPoll_emit; reflexivity
    | apply NoPoll_new | apply NoPoll_deref | apply NoPoll_at
    | apply NoPoll_modifyContext
    | apply NoPoll_bind; [|intros ?] ].
Qed.

Lemma NoPoll_livenessAnalysis : NoPoll livenessAnalysis.
Proof.
  unfold livenessAnalysis, logToken.
  apply NoPoll_bind; [by apply NoPoll_emit | intros ?].
  apply NoPoll_bind; [apply NoPoll_new | intros ?].
  apply NoPoll_bind.
  { with_strategy transparent [setLivenesses] (unfold setLivenesses).
    apply NoPoll_bind; [apply NoPoll_modifyContext | intros ?].
    by apply NoPoll_emit. }
  intros ?. apply NoPoll_bind; [apply NoPoll_deref | intros ?].
  apply NoPoll_foreach, NoPoll_livenessAnalysisOf.
Qed.

(** The events a computation adds to the trace of the state it starts
    in. *)
Definition eventsOf {A} (m : M A) (s : PState) : list Event :=
  drop (length (trace s)) (trace (final (m s))).

(** C3 fails in the liveness loop.  [livenessAnalysis] never polls the
    cancellation token, for any list of functions: it does not depend on
    the token at all.  On the two functions of the example it logs and
    runs the analyzer for one function after the other with no poll
    between them, where the loop of [structuralAnalysis] polls after
    each function and stops after the first one when the token is
    set. *)
Theorem liveness_loop_never_polls :
  (forall s, polls (trace (final (livenessAnalysis s))) = polls (trace s)) /\
  eventsOf livenessAnalysis Examples.beforeLiveness
  = [Log "Liveness analysis."; Set_ Livenesses 17;
     Log "Liveness analysis of func_ff.";
     Run LivenessAnalyzer (Some 4096%N);
     Log "Liveness analysis of func_noentry_2000.";
     Run LivenessAnalyzer (Some 8192%N)] /\
  eventsOf (structuralAnalysis Examples.exampleEnvironment) Examples.beforeStructure
  = [Log "Structural analysis."; Set_ Graphs 14;
     Log "Structural analysis of func_ff.";
     Run GraphBuilder (Some 4096%N); Run StructureAnalyzer (Some 4096%N);
     Poll;
     Log "Structural analysis of func_noentry_2000.";
     Run GraphBuilder (Some 8192%N); Run StructureAnalyzer (Some 8192%N);
     Poll] /\
  eventsOf (structuralAnalysis Examples.cancelledDuringStructure) Examples.beforeStructure
  = [Log "Structural analysis."; Set_ Graphs 14;
     Log "Structural analysis of func_ff.";
     Run GraphBuilder (Some 4096%N); Run StructureAnalyzer (Some 4096%N);
     Poll].
Proof.
  split; [apply NoPoll_livenessAnalysis|].
  vm_compute. repeat split.
Qed.

(** The run of the example returns. *)
Lemma example_run_returns :
  exists s',
    decompile Examples.exampleEnvironment (start (newContext Examples.exampleModule))
    = Ok tt s'.
Proof. eexists. vm_compute. reflexivity. Qed.
End PipelineProofs.

(* ================================================================== *)
(** * More on the liveness analysis                                     *)
(* ================================================================== *)

Module LivenessReach.

Import Liveness LivenessProofs.

Section Reach.

Variable NC_PREFER_CONSTANTS_TO_EXPRESSIONS : bool.
Variable self : LivenessAnalyzer.

#[local] Abbreviation makeLive_ := (makeLive_ NC_PREFER_CONSTANTS_TO_EXPRESSIONS self).
#[local] Abbreviation makeLive := (makeLive NC_PREFER_CONSTANTS_TO_EXPRESSIONS self).
#[local] Abbreviation passedOn := (passedOn NC_PREFER_CONSTANTS_TO_EXPRESSIONS self).
#[local] Abbreviation computeLivenessStatement :=
  (computeLivenessStatement NC_PREFER_CONSTANTS_TO_EXPRESSIONS self).
#[local] Abbreviation computeLivenessTerm :=
  (computeLivenessTerm NC_PREFER_CONSTANTS_TO_EXPRESSIONS self).
#[local] Abbreviation seedReturnValues :=
  (seedReturnValues NC_PREFER_CONSTANTS_TO_EXPRESSIONS self).
#[local] Abbreviation analyze := (analyze NC_PREFER_CONSTANTS_TO_EXPRESSIONS self).

(** [Reach p u]: propagation from the pointer [p] arrives at the term
    [u], through the pointers that terms pass on to [makeLive]. *)
Inductive Reach : option nat -> nat -> Prop :=
| Reach_here t : Reach (Some t) t
| Reach_step t tm q u :
    terms (function self) !! t = Some tm ->
    q ∈ passedOn t tm ->
    Reach q u ->
    Reach (Some t) u.

(** What a call of [makeLive] adds to the set is reached from its
    argument. *)
Definition Within (rec : option nat -> M) : Prop :=
  forall p st st', rec p st = Done st' ->
    forall u, u ∈ liveness st' -> u ∈ liveness st \/ Reach p u.

Lemma foreach_Within rec l st st' :
  Within rec -> foreach l rec st = Done st' ->
  forall u, u ∈ liveness st' ->
    u ∈ liveness st \/ exists q, q ∈ l /\ Reach q u.
Proof.
  intros Hrec. revert st. induction l as [|x l IH]; intros st; simpl.
  - intros [= <-] u Hu. by left.
  - intros (st1 & H1 & H2)%seq_Done u Hu.
    destruct (IH _ H2 u Hu) as [Hu1|(q & Hq & Hr)].
    + destruct (Hrec _ _ _ H1 u Hu1) as [?|?]; [by left|].
      right. exists x. split; [by left | done].
    + right. exists q. split; [by right | done].
Qed.

Lemma makeLive__Within fuel : Within (makeLive_ fuel).
Proof.
  induction fuel as [|fuel IH]; intros p st st'; simpl.
  - destruct p as [t|]; [|done]. destruct (decide (t ∈ liveness st)); [|done].
    intros [= <-] u Hu. by left.
  - destruct p as [t|]; [|done]. destruct (decide (t ∈ liveness st)).
    { intros [= <-] u Hu. by left. }
    unfold seq, insertLive.
    destruct (terms (function self) !! t) as [tm|] eqn:Et.
    2:{ unfold propagateLiveness. by rewrite Et. }
    destruct (propagateLiveness_passedOn NC_PREFER_CONSTANTS_TO_EXPRESSIONS self
                (makeLive_ fuel) t tm
                {| liveness := {[t]} ∪ liveness st; deadJumps_ := deadJumps_ st;
                   warnings := warnings st |} Et) as (st0 & Hl0 & _ & ->).
    intros H u Hu.
    destruct (foreach_Within _ _ _ _ IH H u Hu) as [Hu0|(q & Hq & Hr)].
    + rewrite Hl0 in Hu0. simpl in Hu0.
      apply elem_of_union in Hu0 as [->%elem_of_singleton|?]; [|by left].
      right. constructor.
    + right. by eapply Reach_step.
Qed.

(** In a closed set, what is reached from a live pointer is live. *)
Lemma Reach_closed st p u :
  closed NC_PREFER_CONSTANTS_TO_EXPRESSIONS self st ->
  isLive st p -> Reach p u -> u ∈ liveness st.
Proof.
  intros Hc Hp Hr. induction Hr as [t|t tm q u Ht Hq Hr IH].
  - by destruct Hp as (? & [= <-] & ?).
  - apply IH. destruct Hp as (? & [= <-] & Hl).
    destruct (Hc t Hl) as (tm' & Ht' & Hall).
    assert (tm' = tm) as -> by congruence. by apply Hall.
Qed.

(** ** The pointers an action seeds *)

(** With [deadJumps_] equal to [D], the action [m] calls [makeLive] on
    the pointers of [S] and on nothing else: when it returns,
    [deadJumps_] is as before, the liveness set has grown, the pointers
    of [S] are live, and what is new in the set is reached from [S];
    and in a state where the pointers of [S] are live already it
    returns, if it returns anywhere, with the set as it was. *)
Definition Seeding (D : list (option nat)) (m : M) (S : option nat -> Prop) : Prop :=
  forall st, deadJumps_ st = D ->
    (forall st', m st = Done st' ->
       deadJumps_ st' = D /\
       liveness st ⊆ liveness st' /\
       (forall p, S p -> isLive st' p) /\
       (forall u, u ∈ liveness st' ->
          u ∈ liveness st \/ exists p, S p /\ Reach p u)) /\
    ((forall p, S p -> isLive st p) ->
     forall st1 st1', deadJumps_ st1 = D -> m st1 = Done st1' ->
       exists st', m st = Done st' /\
                   liveness st' = liveness st /\ deadJumps_ st' = D).

Definition noSeed : option nat -> Prop := fun _ => False.

Lemma Seeding_Done D : Seeding D Done noSeed.
Proof.
  intros st Hd. split.
  - intros st' [= <-]. split; [done|]. split; [done|].
    split; [intros p []|]. intros u Hu. by left.
  - intros _ _ _ _ _. by exists st.
Qed.

Lemma Seeding_skip D : Seeding D skip noSeed.
Proof. apply Seeding_Done. Qed.

Lemma Seeding_ncWarning D msg : Seeding D (ncWarning msg) noSeed.
Proof.
  intros st Hd. split.
  - intros st' [= <-]. split; [done|]. split; [done|].
    split; [intros p []|]. intros u Hu. by left.
  - intros _ _ _ _ _. eexists. split; [reflexivity|]. done.
Qed.

Lemma Seeding_InvalidPointer D : Seeding D (fun _ => InvalidPointer) noSeed.
Proof. intros st Hd. split; [done|]. intros _ st1 st1' _ [=]. Qed.

Lemma Seeding_makeLive D p : Seeding D (makeLive p) (fun q => q = p).
Proof.
  intros st Hd. split.
  - intros st' H.
    destruct (makeLive_Sound _ _ _ _ _ H) as (Hs & Hdead & Hl & _).
    split; [congruence|]. split; [done|]. split; [by intros q ->|].
    intros u Hu. destruct (makeLive__Within _ _ _ _ H u Hu); [by left|].
    right. by exists p.
  - intros Hlive _ _ _ _. destruct (Hlive p eq_refl) as (t & -> & Ht).
    exists st. split; [|done]. unfold Liveness.makeLive. simpl.
    by rewrite decide_True.
Qed.

Lemma isLive_same st st' p :
  liveness st' = liveness st -> isLive st p -> isLive st' p.
Proof. intros E (t & -> & Ht). exists t. by rewrite E. Qed.

Lemma Seeding_seq D a b Sa Sb :
  Seeding D a Sa -> Seeding D b Sb ->
  Seeding D (a ;> b) (fun p => Sa p \/ Sb p).
Proof.
  intros Ha Hb st Hd. split.
  - intros st' (st1 & H1 & H2)%seq_Done.
    destruct (proj1 (Ha st Hd) _ H1) as (Hd1 & Hs1 & Hl1 & Hr1).
    destruct (proj1 (Hb st1 Hd1) _ H2) as (Hd2 & Hs2 & Hl2 & Hr2).
    split; [done|]. split; [set_solver|]. split.
    + intros p [Hp|Hp]; [|by apply Hl2].
      eapply isLive_mono; [exact Hs2 | by apply Hl1].
    + intros u Hu. destruct (Hr2 u Hu) as [Hu1|(p & Hp & Hr)].
      * destruct (Hr1 u Hu1) as [?|(p & Hp & Hr)]; [by left|].
        right. exists p. split; [by left | done].
      * right. exists p. split; [by right | done].
  - intros Hlive st1 st1' Hd1 (st2 & H1 & H2)%seq_Done.
    destruct (proj1 (Ha st1 Hd1) _ H1) as (Hd2 & _).
    destruct (proj2 (Ha st Hd) (fun p Hp => Hlive p (or_introl Hp)) _ _ Hd1 H1)
      as (sa & Hsa & Hla & Hda).
    destruct (proj2 (Hb sa Hda)
                (fun p Hp => isLive_same _ _ _ Hla (Hlive p (or_intror Hp)))
                _ _ Hd2 H2) as (sb & Hsb & Hlb & Hdb).
    exists sb. split; [apply seq_Done; eauto|]. split; [congruence | done].
Qed.

Lemma Seeding_foreach {A} D (l : list A) body (S : A -> option nat -> Prop) :
  (forall x, Seeding D (body x) (S x)) ->
  Seeding D (foreach l body) (fun p => exists x, x ∈ l /\ S x p).
Proof.
  intros Hb. induction l as [|x l IH]; simpl.
  - intros st Hd. destruct (Seeding_skip D st Hd) as [H1 H2]. split.
    + intros st' H. destruct (H1 _ H) as (? & ? & _ & _).
      split; [done|]. split; [done|]. split.
      * intros p (y & Hy & _). inversion Hy.
      * intros u Hu. left. injection H as <-. done.
    + intros _ st1 st1' Hd1 H. by apply (H2 (fun p (F : noSeed p) => match F with end) st1 st1').
  - intros st Hd.
    destruct (Seeding_seq D _ _ _ _ (Hb x) IH st Hd) as [H1 H2]. split.
    + intros st' H. destruct (H1 _ H) as (? & ? & Hl & Hr).
      split; [done|]. split; [done|]. split.
      * intros p (y & [->|Hy]%elem_of_cons & Hp); apply Hl; [by left|].
        right. eauto.
      * intros u Hu. destruct (Hr u Hu) as [?|(p & [Hp|(y & Hy & Hp)] & Hreach)];
          [by left | right..].
        -- exists p. split; [|done]. exists x. split; [by left | done].
        -- exists p. split; [|done]. exists y. split; [by right | done].
    + intros Hlive. apply H2. intros p [Hp|(y & Hy & Hp)]; apply Hlive.
      * exists x. split; [by left | done].
      * exists y. split; [by right | done].
Qed.

Lemma Seeding_ext D (m m' : M) (S S' : option nat -> Prop) :
  (forall st, m st = m' st) -> (forall p, S p <-> S' p) ->
  Seeding D m' S' -> Seeding D m S.
Proof.
  intros Em ES H st Hd. destruct (H st Hd) as [H1 H2]. split.
  - intros st'. rewrite Em. intros Hr.
    destruct (H1 _ Hr) as (? & ? & Hl & Hreach).
    split; [done|]. split; [done|]. split.
    + intros p Hp. apply Hl. by apply ES.
    + intros u Hu. destruct (Hreach u Hu) as [?|(p & Hp & ?)]; [by left|].
      right. exists p. split; [by apply ES | done].
  - intros Hlive st1 st1'. rewrite !Em. intros Hd1 Hr.
    destruct (H2 (fun p Hp => Hlive p (proj2 (ES p) Hp)) _ _ Hd1 Hr) as (st' & ? & ?).
    by exists st'.
Qed.


(** ** The seeds of [analyze] *)

(** The statement is the terminating jump of the bounds check of a
    switch of the region graph. *)
Definition isDeadJump (s : nat) : Prop :=
  Some s ∈ deadJumpsOf (regionGraph self).

(** The pointers [computeLiveness] gives to [makeLive] for a statement:
    the condition and the target addresses, when not null, of a jump
    that is not dead; the target of a call, and the argument terms of
    its hook when the call has a callee id with a signature. *)
Definition statementSeeds (s : nat) (p : option nat) : Prop :=
  match statements (function self) !! s with
  | Some (Jump condition thenTarget elseTarget) =>
    ~ isDeadJump s /\ is_Some p /\
    (p = condition \/ p = targetAddress thenTarget \/ p = targetAddress elseTarget)
  | Some (Call target) =>
    p = target \/
    exists calleeId signature callHook memoryLocation,
      getCalleeId (hooks self) s = Some calleeId /\
      signatures self !! calleeId = Some signature /\
      getCallHook (hooks self) s = Some callHook /\
      memoryLocation ∈ arguments signature /\
      p = getArgumentTerm callHook memoryLocation
  | _ => False
  end.

(** For a term: the term itself when it is an observable store. *)
Definition termSeeds (t : nat) (p : option nat) : Prop :=
  p = Some t /\
  exists tm, terms (function self) !! t = Some tm /\ observableStore self t tm.

(** The return value terms of the return hooks. *)
Definition returnSeeds (p : option nat) : Prop :=
  exists calleeId signature rv ret returnHook,
    getCalleeIdOfFunction (hooks self) = Some calleeId /\
    signatures self !! calleeId = Some signature /\
    returnValue signature = Some rv /\
    ret ∈ getReturns (function self) /\
    getReturnHook (hooks self) ret = Some returnHook /\
    p = getReturnValueTerm returnHook rv.

(** The seeds of the function. *)
Definition isSeed (p : option nat) : Prop :=
  (exists s, s ∈ censusStatements (function self) /\ statementSeeds s p) \/
  (exists t, t ∈ censusTerms (function self) /\ termSeeds t p) \/
  returnSeeds p.

(** [deadJumps_] during the census loops. *)
Definition theDeadJumps : list (option nat) :=
  sort (deadJumpsOf (regionGraph self)).

Lemma Seeding_if_dead D (f : list (option nat) -> bool) (a b : M) S :
  (f D = true -> Seeding D a S) ->
  (f D = false -> Seeding D b S) ->
  Seeding D (fun st => if f (deadJumps_ st) then a st else b st) S.
Proof.
  intros Ha Hb st Hd. destruct (f D) eqn:E.
  - destruct (Ha eq_refl st Hd) as [H1 H2]. split.
    + intros st'. rewrite Hd, E. apply H1.
    + intros Hl st1 st1' Hd1. rewrite Hd, Hd1, E. by apply H2.
  - destruct (Hb eq_refl st Hd) as [H1 H2]. split.
    + intros st'. rewrite Hd, E. apply H1.
    + intros Hl st1 st1' Hd1. rewrite Hd, Hd1, E. by apply H2.
Qed.

Lemma Seeding_optional D (o : option nat) :
  Seeding D (match o with Some c => makeLive (Some c) | None => skip end)
    (fun p => is_Some p /\ p = o).
Proof.
  destruct o as [c|].
  - eapply Seeding_ext; [reflexivity | | apply (Seeding_makeLive D (Some c))].
    intros p. split; [by intros [_ ->] | intros ->; eauto].
  - eapply Seeding_ext; [reflexivity | | apply Seeding_skip].
    intros p. split; [|done]. intros [[x ->] [=]].
Qed.

Lemma isDeadJump_binary_search s :
  binary_search theDeadJumps (Some s) = true <-> isDeadJump s.
Proof.
  unfold theDeadJumps, isDeadJump.
  rewrite (binary_search_elem_of _ _ (sort_Sorted _)).
  by rewrite (sort_Permutation (deadJumpsOf (regionGraph self))).
Qed.

Lemma Seeding_computeLivenessStatement s :
  Seeding theDeadJumps (computeLivenessStatement s) (statementSeeds s).
Proof.
  unfold Liveness.computeLivenessStatement, statementSeeds.
  destruct (statements (function self) !! s) as [stmt|] eqn:E.
  2:{ apply Seeding_InvalidPointer. }
  destruct stmt as [| | | |c tt et|tg| |k];
    try apply Seeding_Done; try apply Seeding_ncWarning.
  - apply (Seeding_if_dead theDeadJumps
             (fun D => negb (binary_search D (Some s)))).
    + intros Hn%negb_true_iff.
      assert (Hnd : ~ isDeadJump s).
      { rewrite <- isDeadJump_binary_search. by rewrite Hn. }
      eapply Seeding_ext; [reflexivity | |
        apply (Seeding_seq _ _ _ _ _ (Seeding_optional _ c)
                 (Seeding_seq _ _ _ _ _ (Seeding_optional _ (targetAddress tt))
                                        (Seeding_optional _ (targetAddress et))))].
      intros p. simpl. naive_solver.
    + intros Hn%negb_false_iff.
      eapply Seeding_ext; [reflexivity | | apply Seeding_Done].
      intros p. split; [|done]. intros (Hnd & _).
      by apply Hnd, isDeadJump_binary_search.
  - destruct (getCalleeId (hooks self) s) as [cid|] eqn:Ec.
    2:{ eapply Seeding_ext; [reflexivity | |
          apply (Seeding_seq _ _ _ _ _ (Seeding_makeLive _ tg) (Seeding_skip _))].
        intros p. unfold noSeed. naive_solver. }
    destruct (signatures self !! cid) as [sg|] eqn:Eg.
    2:{ eapply Seeding_ext; [reflexivity | |
          apply (Seeding_seq _ _ _ _ _ (Seeding_makeLive _ tg) (Seeding_skip _))].
        intros p. unfold noSeed. naive_solver. }
    destruct (getCallHook (hooks self) s) as [h|] eqn:Eh.
    2:{ eapply Seeding_ext; [reflexivity | |
          apply (Seeding_seq _ _ _ _ _ (Seeding_makeLive _ tg) (Seeding_skip _))].
        intros p. unfold noSeed. naive_solver. }
    eapply Seeding_ext; [reflexivity | |
      apply (Seeding_seq _ _ _ _ _ (Seeding_makeLive _ tg)
               (Seeding_foreach _ (arguments sg) _
                  (fun loc p => p = getArgumentTerm h loc)
                  (fun loc => Seeding_makeLive _ _)))].
    intros p. naive_solver.
Qed.

Lemma computeLivenessTerm_store t tm st :
  terms (function self) !! t = Some tm ->
  (observableStore self t tm ->
     computeLivenessTerm t st = makeLive (Some t) st) /\
  (~ observableStore self t tm ->
     computeLivenessTerm t st
     = Done (match termClass tm with
             | OtherTerm _ =>
               warned "Was called for unsupported kind of term." st
             | _ => st
             end)).
Proof.
  intros Ht. unfold Liveness.computeLivenessTerm, observableStore. rewrite Ht.
  split.
  - intros [(loc & -> & -> & ->)|(a & -> & -> & [->|(loc & -> & ->)])]; reflexivity.
  - intros Hn.
    destruct (termClass tm) as [| | |loc|a|o|l r|p d|k] eqn:Ek; try reflexivity.
    + destruct (isWrite tm) eqn:Ew; [|done].
      destruct (isGlobalMemory self loc) eqn:Eg; [|done].
      destruct Hn. left. eauto.
    + destruct (isWrite tm) eqn:Ew; [|done].
      destruct (getMemoryLocation (dataflow self) t) as [loc|] eqn:El.
      * destruct (isGlobalMemory self loc) eqn:Eg; [|done].
        destruct Hn. right. exists a. eauto 10.
      * destruct Hn. right. exists a. eauto.
Qed.

Lemma Seeding_computeLivenessTerm D t :
  Seeding D (computeLivenessTerm t) (termSeeds t).
Proof.
  destruct (terms (function self) !! t) as [tm|] eqn:E.
  2:{ eapply Seeding_ext; [| |apply (Seeding_InvalidPointer D)].
      - intros st. unfold Liveness.computeLivenessTerm. by rewrite E.
      - intros p. split; [|done]. intros (_ & tm & Htm & _). congruence. }
  destruct (classic_store self t tm) as [Hs|Hs].
  - eapply Seeding_ext; [| |apply (Seeding_makeLive D (Some t))].
    + intros st.
      by apply (proj1 (computeLivenessTerm_store t tm st E)).
    + intros p. unfold termSeeds. naive_solver.
  - eapply Seeding_ext with
      (m' := match termClass tm with
             | OtherTerm _ => ncWarning "Was called for unsupported kind of term."
             | _ => Done
             end); [| |destruct (termClass tm);
                       first [apply Seeding_Done | apply Seeding_ncWarning]].
    + intros st.
      rewrite (proj2 (computeLivenessTerm_store t tm st E) Hs).
      by destruct (termClass tm).
    + intros p. split; [|done]. intros (_ & tm' & Htm & Ho).
      assert (tm' = tm) as -> by congruence. done.
Qed.

Lemma Seeding_seedReturnValues D : Seeding D seedReturnValues returnSeeds.
Proof.
  unfold Liveness.seedReturnValues, returnSeeds.
  destruct (getCalleeIdOfFunction (hooks self)) as [cid|] eqn:Ec.
  2:{ eapply Seeding_ext; [reflexivity | | apply Seeding_skip].
      intros p. unfold noSeed. naive_solver. }
  destruct (signatures self !! cid) as [sg|] eqn:Eg.
  2:{ eapply Seeding_ext; [reflexivity | | apply Seeding_skip].
      intros p. unfold noSeed. naive_solver. }
  destruct (returnValue sg) as [rv|] eqn:Er.
  2:{ eapply Seeding_ext; [reflexivity | | apply Seeding_skip].
      intros p. unfold noSeed. naive_solver. }
  eapply Seeding_ext; [reflexivity | |
    apply (Seeding_foreach D (getReturns (function self)) _
             (fun ret p => exists returnHook,
                getReturnHook (hooks self) ret = Some returnHook /\
                p = getReturnValueTerm returnHook rv))].
  - intros p. naive_solver.
  - intros ret. destruct (getReturnHook (hooks self) ret) as [h|] eqn:Eh.
    + eapply Seeding_ext; [reflexivity | | apply (Seeding_makeLive D)].
      intros p. naive_solver.
    + eapply Seeding_ext; [reflexivity | | apply Seeding_skip].
      intros p. unfold noSeed. naive_solver.
Qed.

Lemma Seeding_census :
  Seeding theDeadJumps
    (foreach (censusStatements (function self)) computeLivenessStatement ;>
     foreach (censusTerms (function self)) computeLivenessTerm ;>
     seedReturnValues)
    isSeed.
Proof.
  eapply Seeding_ext; [reflexivity | |
    apply (Seeding_seq _ _ _ _ _
             (Seeding_foreach _ _ _ _ Seeding_computeLivenessStatement)
             (Seeding_seq _ _ _ _ _
                (Seeding_foreach _ _ _ _ (Seeding_computeLivenessTerm _))
                (Seeding_seedReturnValues _)))].
  intros p. unfold isSeed. tauto.
Qed.

(** The liveness set after [analyze] on a new [Liveness] is exactly
    what propagation reaches from the seeds. *)
Lemma analyze_exact st' :
  analyze newState = Done st' ->
  forall u, u ∈ liveness st' <-> exists p, isSeed p /\ Reach p u.
Proof.
  intros H u. pose proof (analyze_closed _ _ _ H) as Hc.
  rewrite analyze_unfold in H.
  destruct (proj1 (Seeding_census (afterDeadJumps self newState) eq_refl) _ H)
    as (_ & _ & Hl & Hr).
  split.
  - intros Hu. destruct (Hr u Hu) as [Hu0|?]; [|done]. simpl in Hu0. set_solver.
  - intros (p & Hp & Hreach). eapply Reach_closed; [exact Hc | by apply Hl | done].
Qed.

(** A second run of [analyze] on the result of a first one returns and
    leaves the liveness set and [deadJumps_] as they are. *)
Lemma analyze_again st st' :
  analyze st = Done st' ->
  exists st'', analyze st' = Done st'' /\
               liveness st'' = liveness st' /\ deadJumps_ st'' = deadJumps_ st'.
Proof.
  intros H. destruct (analyze_Done _ _ _ _ H) as (? & ? & _ & _ & _ & _ & _ & _ & _ & Hd).
  rewrite analyze_unfold in H.
  destruct (proj1 (Seeding_census (afterDeadJumps self st) eq_refl) _ H)
    as (_ & _ & Hl & _).
  destruct (proj2 (Seeding_census (afterDeadJumps self st') eq_refl)
              (fun p Hp => Hl p Hp) (afterDeadJumps self st) st' eq_refl H)
    as (st'' & Hr & Hlive & Hdead).
  exists st''. rewrite analyze_unfold. split; [done|]. split; [done|].
  by rewrite Hd.
Qed.
End Reach.


(** ** What the analysis computes *)

(** X1.  After [analyze] on a new [Liveness] the live terms are exactly the
    terms that propagation reaches from the seeds: the pointers given
    to [makeLive] by the seeding rules for statements, terms and
    returns.  No other term is live. *)
Theorem liveness_is_what_seeds_reach flag self st' :
  analyze flag self newState = Done st' ->
  forall u, u ∈ liveness st' <-> exists p, isSeed self p /\ Reach flag self p u.
Proof. apply analyze_exact. Qed.

(** In the example, term 5 is live because the store 2 through an
    unresolved pointer is a seed and propagation goes from it to its
    address 3, to the definition 4 of that read, and to its source 5. *)
Lemma liveness_is_what_seeds_reach_witness :
  exists p, isSeed Examples.exampleAnalyzer p /\
            Reach false Examples.exampleAnalyzer p 5.
Proof.
  apply (liveness_is_what_seeds_reach false Examples.exampleAnalyzer
           (Examples.result (analyze false Examples.exampleAnalyzer newState))).
  - vm_compute. reflexivity.
  - vm_compute. repeat constructor.
Defined.

(** X2.  Running [analyze] again on the [Liveness] it has filled returns and
    changes neither the liveness set nor [deadJumps_]: every seed is
    live already, so every [makeLive] returns at once. *)
Theorem analyze_twice_same_liveness flag self st st' :
  analyze flag self st = Done st' ->
  exists st'', analyze flag self st' = Done st'' /\
               liveness st'' = liveness st' /\
               deadJumps_ st'' = deadJumps_ st'.
Proof. apply analyze_again. Qed.

Lemma analyze_twice_same_liveness_witness :
  exists st'',
    analyze false Examples.exampleAnalyzer
      (Examples.result (analyze false Examples.exampleAnalyzer newState))
    = Done st'' /\
    liveness st''
    = liveness (Examples.result (analyze false Examples.exampleAnalyzer newState)) /\
    deadJumps_ st''
    = deadJumps_ (Examples.result (analyze false Examples.exampleAnalyzer newState)).
Proof.
  apply (analyze_twice_same_liveness false Examples.exampleAnalyzer newState).
  vm_compute. reflexivity.
Defined.

(** X3.  A call of [makeLive] that returns has only added to the liveness
    set, its argument is live, everything it added is reached from its
    argument, and the same call made again returns the state as it
    is. *)
Theorem makeLive_adds_what_it_reaches flag self p st st' :
  makeLive flag self p st = Done st' ->
  liveness st ⊆ liveness st' /\
  isLive st' p /\
  (forall u, u ∈ liveness st' -> u ∈ liveness st \/ Reach flag self p u) /\
  makeLive flag self p st' = Done st'.
Proof.
  intros H. destruct (makeLive_Sound _ _ _ _ _ H) as (Hs & _ & Hl & _).
  split; [done|]. split; [done|]. split.
  - by apply (makeLive__Within flag self _ _ _ _ H).
  - destruct Hl as (t & -> & Ht). unfold makeLive. simpl. by rewrite decide_True.
Qed.

Lemma makeLive_adds_what_it_reaches_witness :
  isLive (Examples.result (makeLive false Examples.exampleAnalyzer (Some 2) newState))
    (Some 2) /\
  makeLive false Examples.exampleAnalyzer (Some 2)
    (Examples.result (makeLive false Examples.exampleAnalyzer (Some 2) newState))
  = Done (Examples.result (makeLive false Examples.exampleAnalyzer (Some 2) newState)).
Proof.
  destruct (makeLive_adds_what_it_reaches false Examples.exampleAnalyzer (Some 2)
              newState
              (Examples.result (makeLive false Examples.exampleAnalyzer (Some 2) newState)))
    as (_ & Hl & _ & Hagain).
  - vm_compute. reflexivity.
  - split; [exact Hl | exact Hagain].
Defined.


(** ** The order of the census *)

(** The analyzer with the census, the returns and the nodes of the
    region graph in another order. *)
Definition reordered (self : LivenessAnalyzer)
    (statementOrder termOrder returnOrder : list nat) (nodeOrder : list Node) :
    LivenessAnalyzer :=
  {| function :=
       {| terms := terms (function self);
          statements := statements (function self);
          censusStatements := statementOrder;
          censusTerms := termOrder;
          getReturns := returnOrder |};
     dataflow := dataflow self;
     isGlobalMemory := isGlobalMemory self;
     regionGraph := nodeOrder;
     hooks := hooks self;
     signatures := signatures self |}.

#[local] Existing Instance ptr_le_trans.

#[local] Instance ptr_le_antisymm : AntiSymm (=) ptr_le.
Proof. intros p q Hpq Hqp. apply addressOf_inj. unfold ptr_le in *. lia. Qed.

Lemma deadJumpsOf_Permutation nodes nodes' :
  nodes ≡ₚ nodes' -> deadJumpsOf nodes ≡ₚ deadJumpsOf nodes'.
Proof.
  intros H. induction H as [|x l l' H IH|x y l|l1 l2 l3 H12 IH12 H23 IH23].
  - done.
  - unfold deadJumpsOf. rewrite !bind_cons. by apply Permutation_app_head.
  - unfold deadJumpsOf. rewrite !bind_cons, !app_assoc.
    apply Permutation_app_tail, Permutation_app_comm.
  - by etrans.
Qed.

Section Reordered.

Variable flag : bool.
Variable self : LivenessAnalyzer.
Variables statementOrder termOrder returnOrder : list nat.
Variable nodeOrder : list Node.

Hypothesis statements_perm : statementOrder ≡ₚ censusStatements (function self).
Hypothesis terms_perm : termOrder ≡ₚ censusTerms (function self).
Hypothesis returns_perm : returnOrder ≡ₚ getReturns (function self).
Hypothesis nodes_perm : nodeOrder ≡ₚ regionGraph self.

#[local] Abbreviation other :=
  (reordered self statementOrder termOrder returnOrder nodeOrder).

Lemma Reach_reordered p u : Reach flag other p u <-> Reach flag self p u.
Proof.
  split; intros H; induction H as [t|t tm q u Ht Hq Hr IH];
    try constructor; by eapply Reach_step.
Qed.

Lemma isDeadJump_reordered s : isDeadJump other s <-> isDeadJump self s.
Proof.
  unfold isDeadJump. simpl. by rewrite (deadJumpsOf_Permutation _ _ nodes_perm).
Qed.

Lemma statementSeeds_reordered s p :
  statementSeeds other s p <-> statementSeeds self s p.
Proof.
  unfold statementSeeds. simpl.
  destruct (statements (function self) !! s) as [[| | | |c tt et|tg| |k]|];
    try done.
  by rewrite isDeadJump_reordered.
Qed.

Lemma returnSeeds_reordered p : returnSeeds other p <-> returnSeeds self p.
Proof.
  unfold returnSeeds. simpl.
  split; intros (c & sg & rv & ret & rh & ? & ? & ? & Hin & ? & ?);
    exists c, sg, rv, ret, rh; repeat (split; [done|]); (split; [|done]).
  - by rewrite <- returns_perm.
  - by rewrite returns_perm.
Qed.

Lemma isSeed_reordered p : isSeed other p <-> isSeed self p.
Proof.
  unfold isSeed. rewrite returnSeeds_reordered.
  split; (intros [(s & Hs & H)|[(t & Ht & H)|H]];
          [left; exists s|right; left; exists t|right; by right]).
  - split; [by rewrite <- statements_perm | by apply statementSeeds_reordered].
  - split; [by rewrite <- terms_perm | done].
  - split; [simpl; by rewrite statements_perm | by apply statementSeeds_reordered].
  - split; [simpl; by rewrite terms_perm | done].
Qed.

Lemma deadJumps_reordered :
  sort (deadJumpsOf nodeOrder) = sort (deadJumpsOf (regionGraph self)).
Proof.
  apply (Sorted_unique ptr_le); [apply sort_Sorted..|].
  rewrite !sort_Permutation. by apply deadJumpsOf_Permutation.
Qed.

End Reordered.

(** X5.  The result of [analyze] does not depend on the order of the census:
    with the statements, the terms, the returns and the nodes of the
    region graph visited in any other order, a run that returns leaves
    the same liveness set and the same [deadJumps_]. *)
Theorem liveness_independent_of_census_order flag self
    statementOrder termOrder returnOrder nodeOrder st1 st2 :
  statementOrder ≡ₚ censusStatements (function self) ->
  termOrder ≡ₚ censusTerms (function self) ->
  returnOrder ≡ₚ getReturns (function self) ->
  nodeOrder ≡ₚ regionGraph self ->
  analyze flag self newState = Done st1 ->
  analyze flag (reordered self statementOrder termOrder returnOrder nodeOrder)
    newState = Done st2 ->
  liveness st1 = liveness st2 /\ deadJumps_ st1 = deadJumps_ st2.
Proof.
  intros Hs Ht Hr Hn H1 H2. split.
  - apply set_eq. intros u.
    rewrite (analyze_exact _ _ _ H1 u), (analyze_exact _ _ _ H2 u).
    pose proof (isSeed_reordered self statementOrder termOrder returnOrder
                  nodeOrder Hs Ht Hr Hn) as Hseed.
    pose proof (Reach_reordered flag self statementOrder termOrder returnOrder
                  nodeOrder) as Hreach.
    split; intros (p & Hp & Hu); exists p.
    + split; [by apply Hseed | by apply Hreach].
    + split; [by apply Hseed | by apply Hreach].
  - destruct (analyze_Done _ _ _ _ H1) as (? & ? & _ & _ & _ & _ & _ & _ & _ & ->).
    destruct (analyze_Done _ _ _ _ H2) as (? & ? & _ & _ & _ & _ & _ & _ & _ & ->).
    simpl. symmetry. by apply deadJumps_reordered.
Qed.

Lemma liveness_independent_of_census_order_witness :
  liveness (Examples.result (analyze false Examples.exampleAnalyzer newState))
  = liveness
      (Examples.result
         (analyze false
            (reordered Examples.exampleAnalyzer
               (reverse (censusStatements (function Examples.exampleAnalyzer)))
               (reverse (censusTerms (function Examples.exampleAnalyzer)))
               (reverse (getReturns (function Examples.exampleAnalyzer)))
               (reverse (regionGraph Examples.exampleAnalyzer)))
            newState)).
Proof.
  apply (liveness_independent_of_census_order false Examples.exampleAnalyzer
           (reverse (censusStatements (function Examples.exampleAnalyzer)))
           (reverse (censusTerms (function Examples.exampleAnalyzer)))
           (reverse (getReturns (function Examples.exampleAnalyzer)))
           (reverse (regionGraph Examples.exampleAnalyzer))).
  - apply reverse_Permutation.
  - apply reverse_Permutation.
  - apply reverse_Permutation.
  - apply reverse_Permutation.
  - vm_compute. reflexivity.
  - vm_compute. reflexivity.
Defined.

(** ** Warnings *)

Definition statementWarning : string :=
  "Was called for unsupported kind of statement."%string.

Definition termWarning : string :=
  "Was called for unsupported kind of term."%string.

Section Warnings.

Variable flag : bool.
Variable self : LivenessAnalyzer.

(** What a set of messages must allow for the analysis to stay in it. *)
Variable P : list string -> Prop.
Hypothesis P_nil : P [].
Hypothesis P_app : forall a b, P a -> P b -> P (a ++ b).
Hypothesis P_term :
  forall t tm k, terms (function self) !! t = Some tm ->
    termClass tm = OtherTerm k -> P [termWarning].
Hypothesis P_statement :
  forall s k, s ∈ censusStatements (function self) ->
    statements (function self) !! s = Some (OtherStatement k) ->
    P [statementWarning].

(** [m] only appends warnings, and the ones it appends are in [P]. *)
Definition Appends (m : M) : Prop :=
  forall st st', m st = Done st' ->
    exists ws, warnings st' = warnings st ++ ws /\ P ws.

Lemma Appends_Done : Appends Done.
Proof. intros st st' [= <-]. exists []. by rewrite app_nil_r. Qed.

Lemma Appends_skip : Appends skip.
Proof. apply Appends_Done. Qed.

Lemma Appends_seq a b : Appends a -> Appends b -> Appends (a ;> b).
Proof.
  intros Ha Hb st st' (st1 & H1 & H2)%seq_Done.
  destruct (Ha _ _ H1) as (w1 & E1 & P1). destruct (Hb _ _ H2) as (w2 & E2 & P2).
  exists (w1 ++ w2). split; [|by apply P_app].
  by rewrite E2, E1, app_assoc.
Qed.

Lemma Appends_foreach {A} (l : list A) (body : A -> M) :
  (forall x, x ∈ l -> Appends (body x)) -> Appends (foreach l body).
Proof.
  induction l as [|x l IH]; intros H; simpl.
  - apply Appends_skip.
  - apply Appends_seq; [apply H; left | apply IH; intros y Hy; apply H; by right].
Qed.

Lemma Appends_insertLive t : Appends (insertLive t).
Proof. intros st st' [= <-]. exists []. by rewrite app_nil_r. Qed.

Lemma Appends_propagateLiveness mk p :
  (forall q, Appends (mk q)) -> Appends (propagateLiveness flag self mk p).
Proof.
  intros Hmk st st'. unfold propagateLiveness.
  destruct p as [t|]; [|done].
  destruct (terms (function self) !! t) as [tm|] eqn:Et; [|done].
  destruct (flag && isRead tm && isConcrete (dataflow self) t);
    [apply Appends_Done|].
  destruct (termClass tm) as [| | |ml|address|operand|l r|pt dt|k] eqn:Ec;
    try apply Appends_Done.
  - destruct (isRead tm).
    { apply Appends_foreach. intros c _. apply Appends_foreach. auto. }
    destruct (isWrite tm); [|apply Appends_Done].
    destruct (source tm); [apply Hmk | apply Appends_Done].
  - apply Appends_seq.
    + destruct (isRead tm).
      { apply Appends_foreach. intros c _. apply Appends_foreach. auto. }
      destruct (isWrite tm); [|apply Appends_skip].
      destruct (source tm); [apply Hmk | apply Appends_skip].
    + destruct (getMemoryLocation (dataflow self) t);
        [apply Appends_skip | apply Hmk].
  - apply Hmk.
  - apply Appends_seq; apply Hmk.
  - destruct (getDefinitions (dataflow self) pt); apply Hmk.
  - intros [= <-]. exists [termWarning]. split; [done|]. by eapply P_term.
Qed.

Lemma Appends_makeLive_ fuel p : Appends (makeLive_ flag self fuel p).
Proof.
  revert p. induction fuel as [|fuel IH]; intros [t|] st st'; simpl; try done.
  - destruct (decide (t ∈ liveness st)); [apply Appends_Done | done].
  - destruct (decide (t ∈ liveness st)); [apply Appends_Done|].
    apply (Appends_seq _ _ (Appends_insertLive t)
             (Appends_propagateLiveness _ (Some t) IH)).
Qed.

Lemma Appends_makeLive p : Appends (makeLive flag self p).
Proof. apply Appends_makeLive_. Qed.

Lemma Appends_computeLivenessStatement s :
  s ∈ censusStatements (function self) ->
  Appends (computeLivenessStatement flag self s).
Proof.
  intros Hs st st'. unfold computeLivenessStatement.
  destruct (statements (function self) !! s)
    as [[| | | |c tt et|tg| |k]|] eqn:Es; try done; try apply Appends_Done.
  - destruct (negb _); [|apply Appends_Done].
    repeat apply Appends_seq;
      match goal with |- Appends (match ?o with _ => _ end) =>
        destruct o; [apply Appends_makeLive | apply Appends_skip] end.
  - apply Appends_seq; [apply Appends_makeLive|].
    destruct (getCalleeId (hooks self) s) as [c|]; [|apply Appends_skip].
    destruct (signatures self !! c) as [sg|]; [|apply Appends_skip].
    destruct (getCallHook (hooks self) s) as [h|]; [|apply Appends_skip].
    apply Appends_foreach. intros. apply Appends_makeLive.
  - intros [= <-]. exists [statementWarning]. split; [done|].
    by eapply P_statement.
Qed.

Lemma Appends_computeLivenessTerm t :
  Appends (computeLivenessTerm flag self t).
Proof.
  intros st st'. unfold computeLivenessTerm.
  destruct (terms (function self) !! t) as [tm|] eqn:Et; [|done].
  destruct (termClass tm) as [| | |ml|address|operand|l r|pt dt|k] eqn:Ec;
    try apply Appends_Done.
  - destruct (isWrite tm); [|apply Appends_Done].
    destruct (isGlobalMemory self ml); [apply Appends_makeLive | apply Appends_Done].
  - destruct (isWrite tm); [|apply Appends_Done].
    destruct (getMemoryLocation (dataflow self) t) as [ml|];
      [|apply Appends_makeLive].
    destruct (isGlobalMemory self ml); [apply Appends_makeLive | apply Appends_Done].
  - intros [= <-]. exists [termWarning]. split; [done|]. by eapply P_term.
Qed.

Lemma Appends_seedReturnValues : Appends (seedReturnValues flag self).
Proof.
  unfold seedReturnValues.
  destruct (getCalleeIdOfFunction (hooks self)) as [c|]; [|apply Appends_skip].
  destruct (signatures self !! c) as [sg|]; [|apply Appends_skip].
  destruct (returnValue sg) as [rv|]; [|apply Appends_skip].
  apply Appends_foreach. intros ret _.
  destruct (getReturnHook (hooks self) ret);
    [apply Appends_makeLive | apply Appends_skip].
Qed.

Lemma Appends_analyze : Appends (analyze flag self).
Proof.
  intros st st'. rewrite analyze_unfold. intros H.
  assert (Appends
            (foreach (censusStatements (function self))
               (computeLivenessStatement flag self) ;>
             foreach (censusTerms (function self))
               (computeLivenessTerm flag self) ;>
             seedReturnValues flag self)) as HA.
  { apply Appends_seq;
      [apply Appends_foreach; intros; by apply Appends_computeLivenessStatement|].
    apply Appends_seq; [|apply Appends_seedReturnValues].
    apply Appends_foreach. intros. apply Appends_computeLivenessTerm. }
  apply (HA _ _ H).
Qed.

End Warnings.

(** Whether the kind of a statement, or of a term, has a case of its own
    in the [switch]es. *)
Definition supportedStatement (s : Statement) : Prop :=
  match s with OtherStatement _ => False | _ => True end.

Definition supportedTerm (tm : Term) : Prop :=
  match termClass tm with OtherTerm _ => False | _ => True end.

(** X6.  A run of [analyze] that returns keeps the warnings it started with
    and appends only the two messages of the [default:] cases; it appends
    none when every statement of the census and every term of the
    function is of a supported kind. *)
Theorem analyze_warns_only_on_unsupported_kinds flag self st st' :
  analyze flag self st = Done st' ->
  exists ws,
    warnings st' = warnings st ++ ws /\
    Forall (fun w => w = statementWarning \/ w = termWarning) ws /\
    ((forall s stmt, s ∈ censusStatements (function self) ->
        statements (function self) !! s = Some stmt -> supportedStatement stmt) ->
     (forall t tm, terms (function self) !! t = Some tm -> supportedTerm tm) ->
     ws = []).
Proof.
  intros H.
  destruct (Appends_analyze flag self
              (Forall (fun w => w = statementWarning \/ w = termWarning)))
    with (st := st) (st' := st') as (ws & E & HP); try done.
  - intros a b. apply Forall_app_2.
  - intros. apply Forall_singleton. by right.
  - intros. apply Forall_singleton. by left.
  - exists ws. split; [done|]. split; [done|].
    intros Hs Ht.
    destruct (Appends_analyze flag self (fun w => w = []))
      with (st := st) (st' := st') as (ws' & E' & ->); try done.
    + by intros a b -> ->.
    + intros t tm k Htm Hk. specialize (Ht t tm Htm).
      unfold supportedTerm in Ht. by rewrite Hk in Ht.
    + intros s k Hin Hst. destruct (Hs s _ Hin Hst).
    + rewrite E in E'. by apply app_inv_head in E'.
Qed.

Lemma analyze_warns_only_on_unsupported_kinds_witness :
  exists ws,
    warnings (Examples.result (analyze false Examples.exampleAnalyzer newState))
    = warnings newState ++ ws /\
    Forall (fun w => w = statementWarning \/ w = termWarning) ws /\
    ((forall s stmt,
        s ∈ censusStatements (function Examples.exampleAnalyzer) ->
        statements (function Examples.exampleAnalyzer) !! s = Some stmt ->
        supportedStatement stmt) ->
     (forall t tm, terms (function Examples.exampleAnalyzer) !! t = Some tm ->
        supportedTerm tm) ->
     ws = []).
Proof.
  apply (analyze_warns_only_on_unsupported_kinds false Examples.exampleAnalyzer).
  vm_compute. reflexivity.
Defined.

(** ** When [analyze] returns *)

Section Faults.

Variable flag : bool.
Variable self : LivenessAnalyzer.

#[local] Abbreviation Reach := (Reach flag self).
#[local] Abbreviation passedOn := (passedOn flag self).
#[local] Abbreviation pointsToTerm := (pointsToTerm self).

(** A pointer from which [makeLive] meets neither a null pointer nor a
    pointer to no term: it points to a term, and so does every pointer
    passed on by a term reached from it. *)
Definition intact (p : option nat) : Prop :=
  pointsToTerm p /\
  forall u tm q, Reach p u -> terms (function self) !! u = Some tm ->
    q ∈ passedOn u tm -> pointsToTerm q.

Lemma intact_step t tm q :
  intact (Some t) -> terms (function self) !! t = Some tm ->
  q ∈ passedOn t tm -> intact q.
Proof.
  intros [_ H] Ht Hq. split.
  - apply (H t tm q); [constructor | done..].
  - intros u tm' q' Hr. apply H. by eapply Reach_step.
Qed.

Definition Safe (rec : option nat -> M) : Prop :=
  forall p st, intact p ->
    rec p st <> AssertionFailed /\ rec p st <> InvalidPointer.

Lemma foreach_Safe rec l st :
  Safe rec -> (forall q, q ∈ l -> intact q) ->
  foreach l rec st <> AssertionFailed /\ foreach l rec st <> InvalidPointer.
Proof.
  intros Hrec. revert st. induction l as [|x l IH]; intros st Hl; simpl.
  - done.
  - unfold seq. destruct (Hrec x st) as [H1 H2]; [apply Hl; by left|].
    destruct (rec x st); try done.
    apply IH. intros q Hq. apply Hl. by right.
Qed.

Lemma makeLive__Safe fuel : Safe (makeLive_ flag self fuel).
Proof.
  induction fuel as [|fuel IH]; intros p st Hp;
    pose proof Hp as [(t & -> & [tm Ht]) _]; simpl.
  - by destruct (decide (t ∈ liveness st)).
  - destruct (decide (t ∈ liveness st)); [done|].
    unfold seq, insertLive.
    destruct (propagateLiveness_passedOn flag self (makeLive_ flag self fuel) t tm
                {| liveness := {[t]} ∪ liveness st; deadJumps_ := deadJumps_ st;
                   warnings := warnings st |} Ht) as (st0 & _ & _ & ->).
    apply foreach_Safe; [exact IH|]. intros q Hq. by eapply intact_step.
Qed.

(** With [deadJumps_] equal to [D], the action returns and leaves
    [deadJumps_] as it is. *)
Definition ReturnsAt (D : list (option nat)) (m : M) : Prop :=
  forall st, deadJumps_ st = D -> exists st', m st = Done st' /\ deadJumps_ st' = D.

Lemma ReturnsAt_Done D : ReturnsAt D Done.
Proof. intros st Hd. by exists st. Qed.

Lemma ReturnsAt_skip D : ReturnsAt D skip.
Proof. apply ReturnsAt_Done. Qed.

Lemma ReturnsAt_ncWarning D msg : ReturnsAt D (ncWarning msg).
Proof. intros st Hd. eexists. split; [reflexivity | done]. Qed.

Lemma ReturnsAt_seq D a b : ReturnsAt D a -> ReturnsAt D b -> ReturnsAt D (a ;> b).
Proof.
  intros Ha Hb st Hd. destruct (Ha st Hd) as (st1 & H1 & Hd1).
  destruct (Hb st1 Hd1) as (st2 & H2 & Hd2).
  exists st2. split; [|done]. apply seq_Done. eauto.
Qed.

Lemma ReturnsAt_foreach {A} D (l : list A) body :
  (forall x, x ∈ l -> ReturnsAt D (body x)) -> ReturnsAt D (foreach l body).
Proof.
  induction l as [|x l IH]; intros H; simpl.
  - apply ReturnsAt_skip.
  - apply ReturnsAt_seq; [apply H; by left | apply IH; intros; apply H; by right].
Qed.

Lemma ReturnsAt_makeLive D p : intact p -> ReturnsAt D (makeLive flag self p).
Proof.
  intros Hp st Hd.
  pose proof (makeLive_fuel_enough flag self p st) as H3.
  pose proof (makeLive_Extends flag self p st) as He.
  unfold makeLive in *.
  destruct (makeLive__Safe (S (base.size (terms (function self)))) p st Hp)
    as [H1 H2].
  destruct (makeLive_ _ _ _ p st) as [st'| | |]; try done.
  exists st'. split; [done|]. destruct (He st' eq_refl) as [_ ->]. done.
Qed.

Lemma ReturnsAt_optional D (o : option nat) :
  (forall c, o = Some c -> intact (Some c)) ->
  ReturnsAt D (match o with Some c => makeLive flag self (Some c) | None => skip end).
Proof.
  intros H. destruct o as [c|]; [|apply ReturnsAt_skip].
  apply ReturnsAt_makeLive. by apply H.
Qed.

Lemma ReturnsAt_computeLivenessStatement s :
  is_Some (statements (function self) !! s) ->
  (forall p, statementSeeds self s p -> intact p) ->
  ReturnsAt (theDeadJumps self) (computeLivenessStatement flag self s).
Proof.
  intros [stmt E] Hseeds st Hd.
  unfold statementSeeds in Hseeds. unfold computeLivenessStatement.
  rewrite E in *.
  destruct stmt as [| | | |c tt et|tg| |k];
    try (by apply ReturnsAt_Done); try (by apply ReturnsAt_ncWarning).
  - destruct (binary_search (deadJumps_ st) (Some s)) eqn:Eb; simpl;
      [by apply ReturnsAt_Done|].
    assert (~ isDeadJump self s) as Hnd.
    { rewrite <- isDeadJump_binary_search, <- Hd. congruence. }
    revert st Hd Eb.
    assert (ReturnsAt (theDeadJumps self)
              ((match c with
                | Some c => makeLive flag self (Some c)
                | None => skip
                end) ;>
               (match targetAddress tt with
                | Some a => makeLive flag self (Some a)
                | None => skip
                end) ;>
               (match targetAddress et with
                | Some a => makeLive flag self (Some a)
                | None => skip
                end))) as HR.
    { repeat apply ReturnsAt_seq; apply ReturnsAt_optional; intros a Ha;
        apply Hseeds; (split; [done|]); (split; [by eexists|]); rewrite Ha; auto. }
    intros st Hd _. by apply HR.
  - revert st Hd.
    apply (ReturnsAt_seq _ (makeLive flag self tg)).
    { apply ReturnsAt_makeLive, Hseeds. by left. }
    destruct (getCalleeId (hooks self) s) as [c|] eqn:Ec; [|apply ReturnsAt_skip].
    destruct (signatures self !! c) as [sg|] eqn:Eg; [|apply ReturnsAt_skip].
    destruct (getCallHook (hooks self) s) as [h|] eqn:Eh; [|apply ReturnsAt_skip].
    apply ReturnsAt_foreach. intros loc Hloc. apply ReturnsAt_makeLive, Hseeds.
    right. by exists c, sg, h, loc.
Qed.

Lemma ReturnsAt_computeLivenessTerm D t :
  is_Some (terms (function self) !! t) ->
  (forall p, termSeeds self t p -> intact p) ->
  ReturnsAt D (computeLivenessTerm flag self t).
Proof.
  intros [tm E] Hseeds st Hd.
  destruct (computeLivenessTerm_store flag self t tm st E) as [Hyes Hno].
  destruct (classic_store self t tm) as [Hs|Hs].
  - rewrite (Hyes Hs). apply ReturnsAt_makeLive; [|done].
    apply Hseeds. split; [done|]. eauto.
  - rewrite (Hno Hs). eexists. split; [reflexivity|].
    by destruct (termClass tm).
Qed.

Lemma ReturnsAt_seedReturnValues D :
  (forall p, returnSeeds self p -> intact p) ->
  ReturnsAt D (seedReturnValues flag self).
Proof.
  intros Hseeds. unfold seedReturnValues, returnSeeds in *.
  destruct (getCalleeIdOfFunction (hooks self)) as [c|] eqn:Ec; [|apply ReturnsAt_skip].
  destruct (signatures self !! c) as [sg|] eqn:Eg; [|apply ReturnsAt_skip].
  destruct (returnValue sg) as [rv|] eqn:Er; [|apply ReturnsAt_skip].
  apply ReturnsAt_foreach. intros ret Hret.
  destruct (getReturnHook (hooks self) ret) as [h|] eqn:Eh; [|apply ReturnsAt_skip].
  apply ReturnsAt_makeLive, Hseeds. by exists c, sg, rv, ret, h.
Qed.

(** The census holds statements and terms of the function, and every
    seed is intact. *)
Definition faultless : Prop :=
  (forall s, s ∈ censusStatements (function self) ->
     is_Some (statements (function self) !! s)) /\
  (forall t, t ∈ censusTerms (function self) ->
     is_Some (terms (function self) !! t)) /\
  (forall p, isSeed self p -> intact p).

Lemma faultless_returns st :
  faultless -> exists st', analyze flag self st = Done st'.
Proof.
  intros (Hs & Ht & Hseeds). rewrite analyze_unfold.
  assert (ReturnsAt (theDeadJumps self)
            (foreach (censusStatements (function self))
               (computeLivenessStatement flag self) ;>
             foreach (censusTerms (function self))
               (computeLivenessTerm flag self) ;>
             seedReturnValues flag self)) as HR.
  { apply ReturnsAt_seq; [|apply ReturnsAt_seq].
    - apply ReturnsAt_foreach. intros s Hin.
      apply ReturnsAt_computeLivenessStatement; [by apply Hs|].
      intros p Hp. apply Hseeds. left. eauto.
    - apply ReturnsAt_foreach. intros t Hin.
      apply ReturnsAt_computeLivenessTerm; [by apply Ht|].
      intros p Hp. apply Hseeds. right. left. eauto.
    - apply ReturnsAt_seedReturnValues. intros p Hp. apply Hseeds.
      right. by right. }
  destruct (HR (afterDeadJumps self st) eq_refl) as (st' & H & _). eauto.
Qed.

Lemma returns_faultless st' :
  analyze flag self newState = Done st' -> faultless.
Proof.
  intros H. pose proof (analyze_closed _ _ _ H) as Hc.
  assert (Hlive : forall p, isLive st' p -> pointsToTerm p).
  { intros p (t & -> & Hl). destruct (Hc t Hl) as (tm & Htm & _).
    exists t. eauto. }
  destruct (analyze_Done _ _ _ _ H) as (st1 & st2 & H1 & H2 & _).
  split; [|split].
  - intros s Hin.
    destruct (foreach_elem _ _ s _ _
                (fun y => proj1 (Seeds_computeLivenessStatement flag self y))
                Hin H1) as (s1 & s2 & Hb & _).
    unfold computeLivenessStatement in Hb.
    by destruct (statements (function self) !! s).
  - intros t Hin.
    destruct (foreach_elem _ _ t _ _
                (fun y => proj1 (Seeds_computeLivenessTerm flag self y))
                Hin H2) as (s1 & s2 & Hb & _).
    unfold computeLivenessTerm in Hb.
    by destruct (terms (function self) !! t).
  - intros p Hp.
    rewrite analyze_unfold in H.
    destruct (proj1 (Seeding_census flag self (afterDeadJumps self newState) eq_refl)
                _ H) as (_ & _ & Hl & _).
    specialize (Hl p Hp). split; [by apply Hlive|].
    intros u tm q Hr Htm Hq.
    pose proof (Reach_closed flag self st' p u Hc Hl Hr) as Hu.
    destruct (Hc u Hu) as (tm' & Htm' & Hall).
    assert (tm' = tm) as -> by congruence.
    by apply Hlive, Hall.
Qed.

End Faults.

(** X7.  [analyze], run on a new [Liveness], returns exactly when it meets no
    null pointer and no pointer to no object: the census holds
    statements and terms of the function, every seed points to a term,
    and so does every pointer passed on by a term reached from a seed.
    Otherwise it stops at the assertion of [makeLive] or at the
    dereference of a pointer to no object.  A function that meets the
    condition is analyzed to the end from any [Liveness]. *)
Theorem analyze_returns_exactly_when_faultless flag self :
  ((exists st', analyze flag self newState = Done st') <-> faultless flag self) /\
  (analyze flag self newState = AssertionFailed \/
   analyze flag self newState = InvalidPointer <-> ~ faultless flag self) /\
  (faultless flag self -> forall st, exists st', analyze flag self st = Done st').
Proof.
  assert ((exists st', analyze flag self newState = Done st')
          <-> faultless flag self) as Hiff.
  { split.
    - intros [st' H]. by eapply returns_faultless.
    - apply faultless_returns. }
  split; [done|]. split; [|intros H st; by apply faultless_returns].
  pose proof (analyze_fuel_enough flag self newState) as Hfuel.
  rewrite <- Hiff.
  destruct (analyze flag self newState) as [st'| | |]; split;
    try done; try (intros _; auto; fail).
  - intros [|]; done.
  - intros H. destruct H. eauto.
  - intros _ [st' [=]].
  - intros _ [st' [=]].
Qed.

Lemma analyze_returns_exactly_when_faultless_witness :
  faultless false Examples.exampleAnalyzer.
Proof.
  apply (proj1 (analyze_returns_exactly_when_faultless false
                  Examples.exampleAnalyzer)).
  eexists. vm_compute. reflexivity.
Defined.
End LivenessReach.

(* ================================================================== *)
(** * Invented function names                                          *)
(* ================================================================== *)

Module NamingInvented.

Import Naming NamingProofs.

(** The module has no symbol at the entry address of the function, when
    it has one: [pickFunctionName] invents the name. *)
Definition unnamed (module : CoreModule) (f : Function) : Prop :=
  forall a, entryAddress f = Some a -> getName module a = ""%string.

(** The entry addresses of the two functions are values of one 64-bit
    integer type, signed or not: they lie in one range of [2 ^ 64]
    numbers. *)
Definition addressesOfOneType (f g : Function) : Prop :=
  exists lowest,
    forall a, entryAddress f = Some a \/ entryAddress g = Some a ->
      (lowest <= a < lowest + 2 ^ 64)%Z.

Lemma pickFunctionName_invented cleanName module f :
  unnamed module f ->
  name (pickFunctionName cleanName module f)
  = match entryAddress f with
    | Some a => ("func_" +:+ hexOfAddress a)%string
    | None => ("func_noentry_" +:+ hex (identity f))%string
    end.
Proof.
  unfold unnamed, entryAddress, pickFunctionName. intros H.
  destruct (entry f) as [[[a|]]|]; try done.
  by rewrite (H a eq_refl).
Qed.

Lemma hexOfAddress_inj lowest a b :
  (lowest <= a < lowest + 2 ^ 64)%Z -> (lowest <= b < lowest + 2 ^ 64)%Z ->
  hexOfAddress a = hexOfAddress b -> a = b.
Proof.
  intros Ha Hb H. unfold hexOfAddress in H. apply hex_inj in H.
  apply Z2N.inj in H; [|by apply Z.mod_pos_bound..].
  assert (2 ^ 64 = 18446744073709551616)%Z as E64 by reflexivity.
  rewrite E64 in *.
  pose proof (Z.div_mod a 18446744073709551616) as Da.
  pose proof (Z.div_mod b 18446744073709551616) as Db.
  pose proof (Z.mod_pos_bound a 18446744073709551616) as Ba.
  lia.
Qed.

Lemma hex_not_noentry a rest :
  hexOfAddress a <> ("noentry_" +:+ rest)%string.
Proof.
  intros H. pose proof (hex_digits (Z.to_N (a mod 2 ^ 64))) as Hd.
  unfold hexOfAddress in H. rewrite H in Hd. discriminate Hd.
Qed.

(** X8.  The names [pickFunctionName] invents tell the functions apart: two
    functions with no symbol get the same name only when they have the
    same entry address or, with no entry address, are the same object.
    A name made from an address never equals one made from an object. *)
Theorem invented_names_tell_functions_apart cleanName module f g :
  unnamed module f -> unnamed module g ->
  addressesOfOneType f g ->
  name (pickFunctionName cleanName module f)
  = name (pickFunctionName cleanName module g)
  <-> entryAddress f = entryAddress g /\
      (entryAddress f = None -> identity f = identity g).
Proof.
  intros Hf Hg [lowest Hr].
  rewrite (pickFunctionName_invented _ _ _ Hf), (pickFunctionName_invented _ _ _ Hg).
  destruct (entryAddress f) as [a|], (entryAddress g) as [b|].
  - split.
    + intros H%(append_inj_r "func_").
      apply (hexOfAddress_inj lowest) in H; [|apply Hr; auto..].
      by subst.
    + by intros [[= ->] _].
  - split; [|by intros [[=] _]].
    intros H. change ("func_noentry_" +:+ hex (identity g))%string
      with ("func_" +:+ ("noentry_" +:+ hex (identity g)))%string in H.
    apply append_inj_r in H. by apply hex_not_noentry in H.
  - split; [|by intros [[=] _]].
    intros H. change ("func_noentry_" +:+ hex (identity f))%string
      with ("func_" +:+ ("noentry_" +:+ hex (identity f)))%string in H.
    symmetry in H. apply append_inj_r in H. by apply hex_not_noentry in H.
  - split.
    + intros H%(append_inj_r "func_noentry_")%hex_inj. split; [done|]. by intros _.
    + intros [_ H]. by rewrite (H eq_refl).
Qed.

Lemma invented_names_tell_functions_apart_witness :
  name (pickFunctionName Examples.keepName Examples.exampleModule
          Examples.functionAt255)
  = name (pickFunctionName Examples.keepName Examples.exampleModule
            Examples.functionNoEntry)
  <-> entryAddress Examples.functionAt255 = entryAddress Examples.functionNoEntry /\
      (entryAddress Examples.functionAt255 = None ->
       identity Examples.functionAt255 = identity Examples.functionNoEntry).
Proof.
  apply (invented_names_tell_functions_apart Examples.keepName
           Examples.exampleModule Examples.functionAt255 Examples.functionNoEntry).
  - intros a [= <-]. reflexivity.
  - intros a [=].
  - exists 0%Z. intros a [[= <-]|[=]]. lia.
Defined.

End NamingInvented.

(* ================================================================== *)
(** * A whole run of the pipeline controller                           *)
(* ================================================================== *)

Module PipelineRun.

Import Pipeline PipelineProofs.

(** ** The steps of a run *)

(** The polls of the cancellation token and the runs of the
    collaborators, without the log messages and the calls of [setX]. *)
Definition isStep (e : Event) : bool :=
  match e with Poll | Run _ _ => true | _ => false end.

Definition steps (t : list Event) : list Event :=
  omap (fun e => if isStep e then Some e else None) t.

Lemma steps_app t1 t2 : steps (t1 ++ t2) = steps t1 ++ steps t2.
Proof. apply omap_app. Qed.

(** The context after a setter. *)
Definition afterSet (m : M unit) (c : Context) : Context :=
  context (final (m (start c))).

(** A slot that points to an object. *)
Definition isDefined (slot : Slot) (c : Context) : Prop :=
  match slot with
  | Program => is_Some (program c)
  | Functions => is_Some (functions c)
  | Conventions => is_Some (conventions c)
  | Signatures => is_Some (signatures c)
  | Hooks => is_Some (hooks c)
  | Dataflows => is_Some (dataflows c)
  | Variables => is_Some (variables c)
  | Graphs => is_Some (graphs c)
  | Livenesses => is_Some (livenesses c)
  | Types => is_Some (types c)
  | Tree => is_Some (tree c)
  | TermToFunction => is_Some (termToFunction c)
  end.

(** The functions, as the keys of the maps. *)
Definition ids (l : list Naming.Function) : gset N :=
  list_to_set (Naming.identity <$> l).

(** A map with an object for each function of [l], and for no other. *)
Definition filled (o : option PerFunction) (l : list Naming.Function) : Prop :=
  exists m, o = Some m /\ dom (entries m) = ids l.

(** What is known of the context when the phases that set the slots
    [D] are over: these slots are defined, the functions are [l], and
    the maps among them are filled for [l]. *)
Definition Ready (mo : Naming.CoreModule) (D : list Slot)
    (l : list Naming.Function) (c : Context) : Prop :=
  module c = mo /\
  (forall slot, slot ∈ D -> isDefined slot c) /\
  (Functions ∈ D -> exists F, functions c = Some F /\ list_ F = l) /\
  (Dataflows ∈ D -> filled (dataflows c) l) /\
  (Graphs ∈ D -> filled (graphs c) l) /\
  (Livenesses ∈ D -> filled (livenesses c) l).

Lemma Ready_step mo D l c c' :
  Ready mo D l c ->
  module c' = module c ->
  (forall slot, isDefined slot c -> isDefined slot c') ->
  (Functions ∈ D -> functions c' = functions c) ->
  (Dataflows ∈ D -> dataflows c' = dataflows c) ->
  (Graphs ∈ D -> graphs c' = graphs c) ->
  (Livenesses ∈ D -> livenesses c' = livenesses c) ->
  Ready mo D l c'.
Proof.
  intros (Hm & Hd & Hf & Hdf & Hg & Hl) Em Hmono Ef Edf Eg El.
  split; [congruence|]. split; [by auto|].
  split; [intros H; rewrite (Ef H); by apply Hf|].
  split; [intros H; rewrite (Edf H); by apply Hdf|].
  split; [intros H; rewrite (Eg H); by apply Hg|].
  intros H. rewrite (El H). by apply Hl.
Qed.

Lemma Ready_add mo D l c slot :
  Ready mo D l c ->
  isDefined slot c ->
  (slot = Functions -> exists F, functions c = Some F /\ list_ F = l) ->
  (slot = Dataflows -> filled (dataflows c) l) ->
  (slot = Graphs -> filled (graphs c) l) ->
  (slot = Livenesses -> filled (livenesses c) l) ->
  Ready mo (slot :: D) l c.
Proof.
  intros (Hm & Hd & Hf & Hdf & Hg & Hl) Hs Ef Edf Eg El.
  split; [done|]. split.
  { intros x [->|Hx]%elem_of_cons; auto. }
  split; [intros [E|H]%elem_of_cons; auto|].
  split; [intros [E|H]%elem_of_cons; auto|].
  split; [intros [E|H]%elem_of_cons; auto|].
  intros [E|H]%elem_of_cons; auto.
Qed.

Lemma Ready_weaken mo D D' l c :
  Ready mo D l c -> D' ⊆ D -> Ready mo D' l c.
Proof.
  intros (Hm & Hd & Hf & Hdf & Hg & Hl) Hsub.
  split; [done|]. repeat split; auto.
Qed.

Lemma Ready_defined mo D l c slot :
  Ready mo D l c -> slot ∈ D -> isDefined slot c.
Proof. intros (_ & Hd & _) H. by apply Hd. Qed.

Lemma dom_emplace m f o :
  dom (entries (emplace m f o)) = {[f]} ∪ dom (entries m).
Proof.
  unfold emplace. destruct (entries m !! f) as [x|] eqn:E; simpl.
  - assert (f ∈ dom (entries m)) by (apply elem_of_dom; eauto). set_solver.
  - by rewrite dom_insert_L.
Qed.

Lemma ids_snoc l x : ids (l ++ [x]) = {[Naming.identity x]} ∪ ids l.
Proof. unfold ids. rewrite fmap_app, list_to_set_app_L. simpl. set_solver. Qed.

Lemma filled_emplace o m l x obj :
  o = Some m -> filled o l ->
  filled (Some (emplace m (Naming.identity x) obj)) (l ++ [x]).
Proof.
  intros -> (m' & [= <-] & Hdom). eexists. split; [done|].
  by rewrite dom_emplace, ids_snoc, Hdom.
Qed.

Lemma filled_lookup o m l x :
  o = Some m -> filled o l -> x ∈ l ->
  is_Some (entries m !! Naming.identity x).
Proof.
  intros -> (m' & [= <-] & Hdom) Hx. apply elem_of_dom. rewrite Hdom.
  unfold ids. apply elem_of_list_to_set, list_elem_of_fmap. eauto.
Qed.

Section Runs.

Variable env : Environment.

(** How a run stops before its end: at a [CancellationException], the
    token having been found set at the poll or in the run of the
    collaborator that the trace ends with. *)
Definition stopped (e : Error) (s : PState) : Prop :=
  e = Cancelled /\ cancelled env (length (trace s)) = true /\
  exists e0, last (trace s) = Some e0 /\ isStep e0 = true.

(** From a state with the context [c], the computation [m] takes the
    steps [t] and returns with [Q], or it is [stopped] having taken the
    first few of them. *)
Definition Runs {A} (c : Context) (m : M A) (t : list Event)
    (Q : A -> Context -> Prop) : Prop :=
  forall s, context s = c ->
    match m s with
    | Ok a s' => steps (trace s') = steps (trace s) ++ t /\ Q a (context s')
    | Raise e s' =>
      stopped e s' /\
      exists t', t' `prefix_of` t /\ steps (trace s') = steps (trace s) ++ t'
    end.

Lemma Runs_ret {A} c (a : A) (Q : A -> Context -> Prop) :
  Q a c -> Runs c (mret a) [] Q.
Proof. intros HQ s <-. unfold mret, M_ret. by rewrite app_nil_r. Qed.

Lemma Runs_bind_eq {A B} c (m : M A) (f : A -> M B) t1 t2 t Q1 Q2 :
  t = t1 ++ t2 ->
  Runs c m t1 Q1 ->
  (forall a c1, Q1 a c1 -> Runs c1 (f a) t2 Q2) ->
  Runs c (m ≫= f) t Q2.
Proof.
  intros -> Hm Hf s Hs. unfold mbind, M_bind. specialize (Hm s Hs).
  destruct (m s) as [a s1|e s1].
  2:{ destruct Hm as (Hstop & t' & Hp & Ht). split; [done|].
      exists t'. split; [by apply prefix_app_r | done]. }
  destruct Hm as [Ht HQ]. specialize (Hf a _ HQ s1 eq_refl).
  destruct (f a s1) as [b s2|e s2].
  - destruct Hf as [Ht2 HQ2]. split; [|done]. by rewrite Ht2, Ht, app_assoc.
  - destruct Hf as (Hstop & t' & Hp & Ht2). split; [done|].
    exists (t1 ++ t'). split; [by apply prefix_app|].
    by rewrite Ht2, Ht, app_assoc.
Qed.

Lemma Runs_weaken {A} c (m : M A) t (Q Q' : A -> Context -> Prop) :
  Runs c m t Q -> (forall a c', Q a c' -> Q' a c') -> Runs c m t Q'.
Proof.
  intros H HQ s Hs. specialize (H s Hs). destruct (m s); [|done].
  destruct H. split; [done | by apply HQ].
Qed.

(** A computation that returns, takes no step and leaves the context as
    it is. *)
Definition Silent {A} (m : M A) : Prop :=
  forall s, exists a s', m s = Ok a s' /\ context s' = context s /\
                         steps (trace s') = steps (trace s).

Lemma Silent_logToken msg : Silent (logToken msg).
Proof.
  intros s. eexists _, _. split; [reflexivity|]. split; [done|].
  simpl. by rewrite steps_app, app_nil_r.
Qed.

Lemma Silent_new : Silent new.
Proof. intros s. eexists _, _. split; [reflexivity|]. done. Qed.

Lemma Runs_silent_bind {A B} c (m : M A) (f : A -> M B) t Q :
  Silent m -> (forall a, Runs c (f a) t Q) -> Runs c (m ≫= f) t Q.
Proof.
  intros Hm Hf s Hs. unfold mbind, M_bind.
  destruct (Hm s) as (a & s1 & -> & Hc & Ht).
  specialize (Hf a s1 (eq_trans Hc Hs)).
  destruct (f a s1); by rewrite <- Ht.
Qed.

Lemma Runs_getContext_bind {B} c (f : Context -> M B) t Q :
  Runs c (f c) t Q -> Runs c (getContext ≫= f) t Q.
Proof. intros H s Hs. unfold mbind, M_bind, getContext. rewrite Hs. by apply H. Qed.

Lemma Runs_deref_bind {A B} c (slot : Context -> option A) (f : A -> M B) t Q :
  is_Some (slot c) ->
  (forall a, slot c = Some a -> Runs c (f a) t Q) ->
  Runs c (deref slot ≫= f) t Q.
Proof.
  intros [a Ha] H s Hs. unfold deref, mbind, M_bind, getContext.
  rewrite Hs, Ha. by apply H.
Qed.

Lemma Runs_at_bind {B} c m k (f : nat -> M B) t Q :
  is_Some (entries m !! k) ->
  (forall a, Runs c (f a) t Q) ->
  Runs c (at_ m k ≫= f) t Q.
Proof.
  intros [a Ha] H s Hs. unfold at_, mbind, M_bind. rewrite Ha. by apply H.
Qed.

Lemma Runs_run_bind {B} c a x (f : unit -> M B) t Q :
  Runs c (f tt) t Q -> Runs c (run a x ≫= f) (Run a x :: t) Q.
Proof.
  intros H s Hs. unfold mbind, M_bind, run, emit.
  match goal with |- context [f tt ?s1] => specialize (H s1 Hs);
    destruct (f tt s1) as [b s2|e s2] end.
  - destruct H as [Ht HQ]. split; [|done].
    rewrite Ht. simpl. rewrite steps_app. simpl. by rewrite <- app_assoc.
  - destruct H as (Hstop & t' & Hp & Ht). split; [done|].
    exists (Run a x :: t'). split; [by apply prefix_cons|].
    rewrite Ht. simpl. rewrite steps_app. simpl. by rewrite <- app_assoc.
Qed.

Lemma Runs_runCancellable_bind {B} c a x (f : unit -> M B) t Q :
  Runs c (f tt) t Q -> Runs c (runCancellable env a x ≫= f) (Run a x :: t) Q.
Proof.
  intros H s Hs. unfold mbind, M_bind, runCancellable, emit, throwIfCancelled.
  unfold mbind, M_bind. cbn [trace].
  destruct (cancelled env (length (trace s ++ [Run a x]))) eqn:Ec.
  { split.
    - split; [done|]. split; [done|]. exists (Run a x). simpl.
      by rewrite last_snoc.
    - exists [Run a x]. split; [apply prefix_cons, prefix_nil|].
      simpl. by rewrite steps_app. }
  match goal with |- context [f tt ?s1] => specialize (H s1 Hs);
    destruct (f tt s1) as [b s2|e s2] end.
  - destruct H as [Ht HQ]. split; [|done].
    rewrite Ht. simpl. rewrite steps_app. simpl. by rewrite <- app_assoc.
  - destruct H as (Hstop & t' & Hp & Ht). split; [done|].
    exists (Run a x :: t'). split; [by apply prefix_cons|].
    rewrite Ht. simpl. rewrite steps_app. simpl. by rewrite <- app_assoc.
Qed.

Lemma Runs_poll_bind {B} c (f : unit -> M B) t Q :
  Runs c (f tt) t Q -> Runs c (poll env ≫= f) (Poll :: t) Q.
Proof.
  intros H s Hs. unfold mbind, M_bind, poll, emit, throwIfCancelled.
  unfold mbind, M_bind. cbn [trace].
  destruct (cancelled env (length (trace s ++ [Poll]))) eqn:Ec.
  { split.
    - split; [done|]. split; [done|]. exists Poll. simpl. by rewrite last_snoc.
    - exists [Poll]. split; [apply prefix_cons, prefix_nil|].
      simpl. by rewrite steps_app. }
  match goal with |- context [f tt ?s1] => specialize (H s1 Hs);
    destruct (f tt s1) as [b s2|e s2] end.
  - destruct H as [Ht HQ]. split; [|done].
    rewrite Ht. simpl. rewrite steps_app. simpl. by rewrite <- app_assoc.
  - destruct H as (Hstop & t' & Hp & Ht). split; [done|].
    exists (Poll :: t'). split; [by apply prefix_cons|].
    rewrite Ht. simpl. rewrite steps_app. simpl. by rewrite <- app_assoc.
Qed.

Lemma Runs_poll c (Q : unit -> Context -> Prop) :
  Q tt c -> Runs c (poll env) [Poll] Q.
Proof.
  intros HQ s Hs. unfold poll, emit, throwIfCancelled.
  unfold mbind, M_bind. cbn [trace].
  destruct (cancelled env (length (trace s ++ [Poll]))) eqn:Ec.
  { split.
    - split; [done|]. split; [done|]. exists Poll. simpl. by rewrite last_snoc.
    - exists [Poll]. split; [done|]. simpl. by rewrite steps_app. }
  simpl. rewrite steps_app. split; [done|]. by rewrite Hs.
Qed.

(** A setter: it returns, takes no step and changes the context as
    [afterSet] tells. *)
Definition Setter (m : M unit) : Prop :=
  forall s, exists s', m s = Ok tt s' /\ context s' = afterSet m (context s) /\
                       steps (trace s') = steps (trace s).

Ltac setter :=
  intros s; eexists; split; [reflexivity|]; split; [reflexivity|];
  simpl; rewrite ?steps_app; simpl; by rewrite ?app_nil_r.

Lemma Setter_setProgram o : Setter (setProgram o).
Proof. setter. Qed.
Lemma Setter_setFunctions o : Setter (setFunctions o).
Proof. setter. Qed.
Lemma Setter_setConventions o : Setter (setConventions o).
Proof. setter. Qed.
Lemma Setter_setSignatures o : Setter (setSignatures o).
Proof. setter. Qed.
Lemma Setter_setHooks o : Setter (setHooks o).
Proof. setter. Qed.
Lemma Setter_setDataflows o : Setter (setDataflows o).
Proof. setter. Qed.
Lemma Setter_putDataflows o : Setter (putDataflows o).
Proof. setter. Qed.
Lemma Setter_setVariables o : Setter (setVariables o).
Proof. setter. Qed.
Lemma Setter_setGraphs o : Setter (setGraphs o).
Proof. setter. Qed.
Lemma Setter_putGraphs o : Setter (putGraphs o).
Proof. setter. Qed.
Lemma Setter_setLivenesses o : Setter (setLivenesses o).
Proof. setter. Qed.
Lemma Setter_putLivenesses o : Setter (putLivenesses o).
Proof. setter. Qed.
Lemma Setter_setTypes o : Setter (setTypes o).
Proof. setter. Qed.
Lemma Setter_setTree o : Setter (setTree o).
Proof. setter. Qed.
Lemma Setter_setTermToFunction o : Setter (setTermToFunction o).
Proof. setter. Qed.

Lemma Runs_setter c m (Q : unit -> Context -> Prop) :
  Setter m -> Q tt (afterSet m c) -> Runs c m [] Q.
Proof.
  intros Hm HQ s Hs. destruct (Hm s) as (s' & -> & Hc & Ht).
  rewrite app_nil_r, Hc, Hs. done.
Qed.

Lemma Runs_setter_bind {B} c m (f : unit -> M B) t Q :
  Setter m -> Runs (afterSet m c) (f tt) t Q -> Runs c (m ≫= f) t Q.
Proof.
  intros Hm Hf s Hs. unfold mbind, M_bind.
  destruct (Hm s) as (s1 & -> & Hc & Ht).
  rewrite Hs in Hc. specialize (Hf s1 Hc).
  destruct (f tt s1); by rewrite <- Ht.
Qed.

Lemma Runs_foreach_from {A} (rest : list A) (body : A -> M unit)
    (tb : A -> list Event) (I : list A -> Context -> Prop) seen c :
  (forall seen x c1, x ∈ rest -> I seen c1 ->
     Runs c1 (body x) (tb x) (fun _ c2 => I (seen ++ [x]) c2)) ->
  I seen c ->
  Runs c (foreach rest body) (rest ≫= tb) (fun _ c' => I (seen ++ rest) c').
Proof.
  revert seen c. induction rest as [|x rest IH]; intros seen c Hbody HI.
  - apply Runs_ret. by rewrite app_nil_r.
  - cbn [foreach]. eapply (Runs_bind_eq _ _ _ (tb x) (rest ≫= tb));
      [reflexivity | apply Hbody; [by left | done] |].
    intros ? c1 H1. eapply Runs_weaken.
    + apply IH; [|exact H1]. intros seen' y c2 Hy. apply Hbody. by right.
    + intros ? c2 H2. by rewrite <- app_assoc in H2.
Qed.

Lemma Runs_foreach {A} (l : list A) (body : A -> M unit)
    (tb : A -> list Event) (I : list A -> Context -> Prop) c :
  (forall seen x c1, x ∈ l -> I seen c1 ->
     Runs c1 (body x) (tb x) (fun _ c2 => I (seen ++ [x]) c2)) ->
  I [] c ->
  Runs c (foreach l body) (l ≫= tb) (fun _ c' => I l c').
Proof. intros Hbody HI. by apply (Runs_foreach_from l body tb I []). Qed.

End Runs.


(** ** The phases *)

Section Phases.

Variable env : Environment.
Variable mo : Naming.CoreModule.
Variable l : list Naming.Function.

#[local] Abbreviation Runs := (Runs env).

(** The context after a setter has every slot defined that was. *)
Ltac mono :=
  let slot := fresh in
  let H := fresh in
  intros slot H; destruct slot; unfold afterSet; simpl in *;
  first [exact H | by eexists].

(** [Ready] goes on to the context after a setter of a slot that is not
    among the slots it speaks of. *)
Ltac frame HR :=
  eapply Ready_step;
  [ exact HR | reflexivity | mono
  | (first [intros _; reflexivity | intros ?; done]).. ].

(** [Ready] after the setter of a slot that is neither the functions
    nor one of the maps. *)
Ltac ready_set HR :=
  apply Ready_add;
  [ frame HR | unfold afterSet; simpl; by eexists | discriminate.. ].

Ltac log := apply Runs_silent_bind; [apply Silent_logToken | intros _].
Ltac fresh_object o := apply Runs_silent_bind; [apply Silent_new | intros o].
Ltac defined HR slot :=
  apply (Ready_defined _ _ _ _ slot HR); set_solver.

Lemma createProgram_runs D c :
  Ready mo D l c ->
  Runs c (createProgram env) [Run IRGenerator None]
    (fun _ c' => Ready mo (Program :: D) l c').
Proof.
  intros HR. unfold createProgram. log. fresh_object o.
  apply Runs_runCancellable_bind.
  apply Runs_setter; [apply Setter_setProgram|].
  ready_set HR.
Qed.

Lemma createFunctions_runs D c :
  Ready mo D l c -> Program ∈ D -> Functions ∉ D ->
  l = Naming.pickFunctionName (cleanName env) mo <$> makeFunctions env ->
  Runs c (createFunctions env) [Run FunctionsGenerator None]
    (fun _ c' => Ready mo (Functions :: D) l c').
Proof.
  intros HR Hp Hf El. unfold createFunctions. log. fresh_object o.
  apply Runs_deref_bind; [defined HR Program | intros ? _].
  apply Runs_run_bind. apply Runs_getContext_bind.
  apply Runs_setter; [apply Setter_setFunctions|].
  apply Ready_add; [frame HR | unfold afterSet; simpl; by eexists | | discriminate..].
  intros _. unfold afterSet. simpl. eexists. split; [done|]. simpl.
  by rewrite El, (proj1 HR).
Qed.

Lemma ensureSignatures_runs D c :
  Ready mo D l c ->
  Runs c (if signatures c is None then s ← new; setSignatures s else mret tt) []
    (fun _ c' => Ready mo (Signatures :: D) l c').
Proof.
  intros HR. destruct (signatures c) as [sg|] eqn:E.
  - apply Runs_ret. apply Ready_add; [done | simpl; by rewrite E | discriminate..].
  - fresh_object o. apply Runs_setter; [apply Setter_setSignatures|].
    ready_set HR.
Qed.

Lemma ensureConventions_runs D c :
  Ready mo D l c ->
  Runs c (if conventions c is None then s ← new; setConventions s else mret tt) []
    (fun _ c' => Ready mo (Conventions :: D) l c').
Proof.
  intros HR. destruct (conventions c) as [cv|] eqn:E.
  - apply Runs_ret. apply Ready_add; [done | simpl; by rewrite E | discriminate..].
  - fresh_object o. apply Runs_setter; [apply Setter_setConventions|].
    ready_set HR.
Qed.

Lemma filled_nil m : filled (Some {| mapId := m; entries := ∅ |}) [].
Proof. eexists. split; [done|]. simpl. unfold ids. simpl. by rewrite dom_empty_L. Qed.

Lemma filled_defined o seen : filled o seen -> is_Some o.
Proof. intros (m & -> & _). by eexists. Qed.

Lemma dataflowAnalysisOf_runs D seen x c :
  Dataflows ∉ D -> Ready mo D l c -> filled (dataflows c) seen ->
  Runs c (dataflowAnalysisOf env x)
    [Run DataflowAnalyzer (Some (Naming.identity x))]
    (fun _ c' => Ready mo D l c' /\ filled (dataflows c') (seen ++ [x])).
Proof.
  intros Hn HR Hfill. unfold dataflowAnalysisOf. log. fresh_object o.
  apply Runs_runCancellable_bind.
  apply Runs_deref_bind; [destruct Hfill as (m & -> & _); by eexists | intros m Em].
  apply Runs_setter; [apply Setter_putDataflows|]. split.
  - frame HR.
  - unfold afterSet. simpl. by eapply filled_emplace.
Qed.

Lemma dataflowAnalysis_runs D c :
  Ready mo D l c -> Functions ∈ D -> Dataflows ∉ D ->
  Runs c (dataflowAnalysis env)
    (l ≫= fun f => [Run DataflowAnalyzer (Some (Naming.identity f)); Poll])
    (fun _ c' =>
       Ready mo (Dataflows :: Hooks :: Conventions :: Signatures :: D) l c').
Proof.
  intros HR Hf Hn. unfold dataflowAnalysis. log.
  apply Runs_getContext_bind.
  eapply (Runs_bind_eq _ _ _ _ []);
    [reflexivity | by apply ensureSignatures_runs | intros ? c1 H1; cbv beta in H1].
  apply Runs_getContext_bind.
  eapply (Runs_bind_eq _ _ _ _ []);
    [reflexivity | by apply ensureConventions_runs | intros ? c2 H2; cbv beta in H2].
  fresh_object h.
  apply Runs_deref_bind; [defined H2 Conventions | intros cv _].
  apply Runs_deref_bind; [defined H2 Signatures | intros sg _].
  apply Runs_setter_bind; [apply Setter_setHooks|].
  fresh_object d.
  apply Runs_setter_bind; [apply Setter_setDataflows|].
  match goal with |- PipelineRun.Runs _ ?c3 _ _ _ => set (c' := c3) end.
  assert (H3 : Ready mo (Hooks :: Conventions :: Signatures :: D) l c').
  { assert (Dataflows ∉ Conventions :: Signatures :: D) by set_solver.
    apply Ready_add; [frame H2 | by eexists | discriminate..]. }
  destruct (proj1 (proj2 (proj2 H3))) as (F & HF & HlF); [set_solver|].
  apply Runs_deref_bind; [by eexists | intros F' HF'].
  assert (F' = F) as -> by congruence. rewrite HlF.
  eapply Runs_weaken.
  - apply (Runs_foreach env l _
             (fun f => [Run DataflowAnalyzer (Some (Naming.identity f)); Poll])
             (fun seen c1 =>
                Ready mo (Hooks :: Conventions :: Signatures :: D) l c1 /\
                filled (dataflows c1) seen)).
    + intros seen x c3 Hx [HR3 Hfill].
      eapply (Runs_bind_eq _ _ _ _
                [Run DataflowAnalyzer (Some (Naming.identity x))] [Poll]);
        [reflexivity
        | apply (dataflowAnalysisOf_runs
                   (Hooks :: Conventions :: Signatures :: D) seen x c3);
          [set_solver | done | done]
        |].
      intros ? c4 H4. cbv beta in H4. by apply Runs_poll.
    + split; [done|]. apply filled_nil.
  - intros ? c3 [HR3 Hfill]. apply Ready_add; try done. exact (filled_defined _ _ Hfill).
Qed.

Lemma reconstructSignatures_runs D c :
  Ready mo D l c -> Dataflows ∈ D -> Hooks ∈ D ->
  Runs c (reconstructSignatures env) [Run SignatureAnalyzer None]
    (fun _ c' => Ready mo (Signatures :: D) l c').
Proof.
  intros HR Hd Hh. unfold reconstructSignatures. log. fresh_object o.
  apply Runs_deref_bind; [defined HR Dataflows | intros ? _].
  apply Runs_deref_bind; [defined HR Hooks | intros ? _].
  apply Runs_runCancellable_bind.
  apply Runs_setter; [apply Setter_setSignatures|].
  ready_set HR.
Qed.

Lemma reconstructVariables_runs D c :
  Ready mo D l c -> Dataflows ∈ D ->
  Runs c reconstructVariables [Run VariableAnalyzer None]
    (fun _ c' => Ready mo (Variables :: D) l c').
Proof.
  intros HR Hd. unfold reconstructVariables. log. fresh_object o.
  apply Runs_deref_bind; [defined HR Dataflows | intros ? _].
  apply Runs_run_bind.
  apply Runs_setter; [apply Setter_setVariables|].
  ready_set HR.
Qed.

Lemma structuralAnalysisOf_runs D seen x c :
  Graphs ∉ D -> Dataflows ∈ D -> x ∈ l ->
  Ready mo D l c -> filled (graphs c) seen ->
  Runs c (structuralAnalysisOf x)
    [Run GraphBuilder (Some (Naming.identity x));
     Run StructureAnalyzer (Some (Naming.identity x))]
    (fun _ c' => Ready mo D l c' /\ filled (graphs c') (seen ++ [x])).
Proof.
  intros Hn Hd Hx HR Hfill. unfold structuralAnalysisOf. log. fresh_object o.
  apply Runs_run_bind.
  pose proof (proj1 (proj2 (proj2 (proj2 HR))) Hd) as Hdf.
  apply Runs_deref_bind; [destruct Hdf as (m & -> & _); by eexists | intros m Em].
  apply Runs_at_bind; [by eapply filled_lookup | intros ?].
  apply Runs_run_bind.
  apply Runs_deref_bind; [destruct Hfill as (g & -> & _); by eexists | intros g Eg].
  apply Runs_setter; [apply Setter_putGraphs|]. split.
  - frame HR.
  - unfold afterSet. simpl. by eapply filled_emplace.
Qed.

Lemma structuralAnalysis_runs D c :
  Ready mo D l c -> Functions ∈ D -> Dataflows ∈ D -> Graphs ∉ D ->
  Runs c (structuralAnalysis env)
    (l ≫= fun f => [Run GraphBuilder (Some (Naming.identity f));
                    Run StructureAnalyzer (Some (Naming.identity f)); Poll])
    (fun _ c' => Ready mo (Graphs :: D) l c').
Proof.
  intros HR Hf Hd Hn. unfold structuralAnalysis. log. fresh_object g.
  apply Runs_setter_bind; [apply Setter_setGraphs|].
  match goal with |- PipelineRun.Runs _ ?c3 _ _ _ => set (c' := c3) end.
  assert (H3 : Ready mo D l c') by frame HR.
  destruct (proj1 (proj2 (proj2 H3))) as (F & HF & HlF); [done|].
  apply Runs_deref_bind; [by eexists | intros F' HF'].
  assert (F' = F) as -> by congruence. rewrite HlF.
  eapply Runs_weaken.
  - apply (Runs_foreach env l _
             (fun f => [Run GraphBuilder (Some (Naming.identity f));
                        Run StructureAnalyzer (Some (Naming.identity f)); Poll])
             (fun seen c1 => Ready mo D l c1 /\ filled (graphs c1) seen)).
    + intros seen x c3 Hx [HR3 Hfill].
      eapply (Runs_bind_eq _ _ _ _
                [Run GraphBuilder (Some (Naming.identity x));
                 Run StructureAnalyzer (Some (Naming.identity x))] [Poll]);
        [reflexivity | by apply (structuralAnalysisOf_runs D seen x c3) |].
      intros ? c4 H4. cbv beta in H4. by apply Runs_poll.
    + split; [done|]. apply filled_nil.
  - intros ? c3 [HR3 Hfill]. apply Ready_add; try done. exact (filled_defined _ _ Hfill).
Qed.

Lemma livenessAnalysisOf_runs D seen x c :
  Livenesses ∉ D -> Dataflows ∈ D -> Graphs ∈ D -> Hooks ∈ D ->
  Signatures ∈ D -> x ∈ l ->
  Ready mo D l c -> filled (livenesses c) seen ->
  Runs c (livenessAnalysisOf x)
    [Run LivenessAnalyzer (Some (Naming.identity x))]
    (fun _ c' => Ready mo D l c' /\ filled (livenesses c') (seen ++ [x])).
Proof.
  intros Hn Hd Hg Hh Hs Hx HR Hfill. unfold livenessAnalysisOf. log.
  fresh_object o.
  pose proof (proj1 (proj2 (proj2 (proj2 HR))) Hd) as Hdf.
  pose proof (proj1 (proj2 (proj2 (proj2 (proj2 HR)))) Hg) as Hgr.
  apply Runs_deref_bind; [destruct Hdf as (m & -> & _); by eexists | intros m Em].
  apply Runs_at_bind; [by eapply filled_lookup | intros ?].
  apply Runs_deref_bind; [destruct Hgr as (g & -> & _); by eexists | intros g Eg].
  apply Runs_at_bind; [by eapply filled_lookup | intros ?].
  apply Runs_deref_bind; [defined HR Hooks | intros ? _].
  apply Runs_deref_bind; [defined HR Signatures | intros ? _].
  apply Runs_run_bind.
  apply Runs_deref_bind; [destruct Hfill as (v & -> & _); by eexists | intros v Ev].
  apply Runs_setter; [apply Setter_putLivenesses|]. split.
  - frame HR.
  - unfold afterSet. simpl. by eapply filled_emplace.
Qed.

Lemma livenessAnalysis_runs D c :
  Ready mo D l c -> Functions ∈ D -> Dataflows ∈ D -> Graphs ∈ D ->
  Hooks ∈ D -> Signatures ∈ D -> Livenesses ∉ D ->
  Runs c livenessAnalysis
    (l ≫= fun f => [Run LivenessAnalyzer (Some (Naming.identity f))])
    (fun _ c' => Ready mo (Livenesses :: D) l c').
Proof.
  intros HR Hf Hd Hg Hh Hs Hn. unfold livenessAnalysis. log. fresh_object v.
  apply Runs_setter_bind; [apply Setter_setLivenesses|].
  match goal with |- PipelineRun.Runs _ ?c3 _ _ _ => set (c' := c3) end.
  assert (H3 : Ready mo D l c') by frame HR.
  destruct (proj1 (proj2 (proj2 H3))) as (F & HF & HlF); [done|].
  apply Runs_deref_bind; [by eexists | intros F' HF'].
  assert (F' = F) as -> by congruence. rewrite HlF.
  eapply Runs_weaken.
  - apply (Runs_foreach env l _
             (fun f => [Run LivenessAnalyzer (Some (Naming.identity f))])
             (fun seen c1 => Ready mo D l c1 /\ filled (livenesses c1) seen)).
    + intros seen x c3 Hx [HR3 Hfill]. by apply livenessAnalysisOf_runs.
    + split; [done|]. apply filled_nil.
  - intros ? c3 [HR3 Hfill]. apply Ready_add; try done. exact (filled_defined _ _ Hfill).
Qed.

Lemma reconstructTypes_runs D c :
  Ready mo D l c ->
  Functions ∈ D -> Dataflows ∈ D -> Variables ∈ D -> Livenesses ∈ D ->
  Hooks ∈ D -> Signatures ∈ D ->
  Runs c (reconstructTypes env) [Run TypeAnalyzer None]
    (fun _ c' => Ready mo (Types :: D) l c').
Proof.
  intros HR ? ? ? ? ? ?. unfold reconstructTypes. log. fresh_object o.
  apply Runs_deref_bind; [defined HR Functions | intros ? _].
  apply Runs_deref_bind; [defined HR Dataflows | intros ? _].
  apply Runs_deref_bind; [defined HR Variables | intros ? _].
  apply Runs_deref_bind; [defined HR Livenesses | intros ? _].
  apply Runs_deref_bind; [defined HR Hooks | intros ? _].
  apply Runs_deref_bind; [defined HR Signatures | intros ? _].
  apply Runs_runCancellable_bind.
  apply Runs_setter; [apply Setter_setTypes|].
  ready_set HR.
Qed.

Lemma generateTree_runs D c :
  Ready mo D l c ->
  Functions ∈ D -> Hooks ∈ D -> Signatures ∈ D -> Dataflows ∈ D ->
  Variables ∈ D -> Graphs ∈ D -> Livenesses ∈ D -> Types ∈ D ->
  Runs c (generateTree env) [Run CodeGenerator None]
    (fun _ c' => Ready mo (Tree :: D) l c').
Proof.
  intros HR ? ? ? ? ? ? ? ?. unfold generateTree. log. fresh_object o.
  apply Runs_deref_bind; [defined HR Functions | intros ? _].
  apply Runs_deref_bind; [defined HR Hooks | intros ? _].
  apply Runs_deref_bind; [defined HR Signatures | intros ? _].
  apply Runs_deref_bind; [defined HR Dataflows | intros ? _].
  apply Runs_deref_bind; [defined HR Variables | intros ? _].
  apply Runs_deref_bind; [defined HR Graphs | intros ? _].
  apply Runs_deref_bind; [defined HR Livenesses | intros ? _].
  apply Runs_deref_bind; [defined HR Types | intros ? _].
  apply Runs_runCancellable_bind.
  apply Runs_setter; [apply Setter_setTree|].
  ready_set HR.
Qed.

Lemma checkTree_runs D c :
  Ready mo D l c -> Functions ∈ D -> Tree ∈ D ->
  Runs c checkTree [Run TreeChecker None] (fun _ c' => Ready mo D l c').
Proof.
  intros HR ? ?. unfold checkTree. log.
  apply Runs_deref_bind; [defined HR Functions | intros ? _].
  apply Runs_deref_bind; [defined HR Tree | intros ? _].
  intros s Hs. unfold run, emit. simpl. rewrite steps_app. split; [done|].
  by rewrite Hs.
Qed.

Lemma computeTermToFunctionMapping_runs D c :
  Ready mo D l c ->
  Runs c computeTermToFunctionMapping []
    (fun _ c' => Ready mo (TermToFunction :: D) l c').
Proof.
  intros HR. unfold computeTermToFunctionMapping. log. fresh_object o.
  apply Runs_setter; [apply Setter_setTermToFunction|].
  ready_set HR.
Qed.

End Phases.

(** ** The run *)

(** The steps of the per-function loops. *)
Definition dataflowSteps (function : N) : list Event :=
  [Run DataflowAnalyzer (Some function); Poll].

Definition structuralSteps (function : N) : list Event :=
  [Run GraphBuilder (Some function); Run StructureAnalyzer (Some function); Poll].

Definition livenessSteps (function : N) : list Event :=
  [Run LivenessAnalyzer (Some function)].

(** The steps of a run of [decompile] that is not cancelled, for the
    functions [fs]: each phase is followed by a poll; the loops of the
    dataflow and the structural analysis poll after each function, the
    loop of the liveness analysis does not. *)
Definition pipeline (checks : bool) (fs : list N) : list Event :=
  [Run IRGenerator None; Poll;
   Run FunctionsGenerator None; Poll] ++
  (fs ≫= dataflowSteps) ++
  [Poll; Run SignatureAnalyzer None; Poll] ++
  (fs ≫= dataflowSteps) ++
  [Poll; Run VariableAnalyzer None; Poll] ++
  (fs ≫= structuralSteps) ++
  [Poll] ++
  (fs ≫= livenessSteps) ++
  [Poll; Run TypeAnalyzer None; Poll;
   Run CodeGenerator None; Poll] ++
  (if checks then [Run TreeChecker None; Poll] else []) ++
  [Poll].

(** The slots set when [decompile] is over. *)
Definition allSlots : list Slot :=
  [TermToFunction; Tree; Types; Livenesses; Graphs; Variables;
   Dataflows; Hooks; Conventions; Signatures;
   Hooks; Conventions; Signatures; Functions; Program].

(** The functions of the run: those [FunctionsGenerator] finds, with
    the names picked for them. *)
Definition namedFunctions (env : Environment) (mo : Naming.CoreModule) :
    list Naming.Function :=
  Naming.pickFunctionName (cleanName env) mo <$> makeFunctions env.

Lemma identity_pickFunctionName cn mo f :
  Naming.identity (Naming.pickFunctionName cn mo f) = Naming.identity f.
Proof.
  unfold Naming.pickFunctionName.
  destruct (Naming.entry f) as [[[a|]]|]; try done.
  destruct (negb _); [|done]. cbv zeta.
  destruct (Naming.contains _ _), (decide _); done.
Qed.

Lemma identity_namedFunctions env mo :
  Naming.identity <$> namedFunctions env mo
  = Naming.identity <$> makeFunctions env.
Proof.
  unfold namedFunctions. rewrite <- list_fmap_compose.
  apply list_fmap_ext. intros i f _. apply identity_pickFunctionName.
Qed.

Lemma bind_identity (g : N -> list Event) (l : list Naming.Function) :
  l ≫= (fun f => g (Naming.identity f)) = (Naming.identity <$> l) ≫= g.
Proof.
  induction l as [|f l IH]; [done|].
  rewrite fmap_cons, !bind_cons. by rewrite IH.
Qed.

Lemma Runs_logToken env c msg (Q : unit -> Context -> Prop) :
  Q tt c -> Runs env c (logToken msg) [] Q.
Proof.
  intros HQ s Hs. simpl. rewrite steps_app, Hs. simpl. by rewrite !app_nil_r.
Qed.

Lemma Ready_start c l : Ready (module c) [] l c.
Proof.
  split; [done|]. split; [intros slot H; by apply elem_of_nil in H|].
  repeat split; intros H; by apply elem_of_nil in H.
Qed.

Lemma decompile_runs env c :
  Runs env c (decompile env)
    (pipeline (NC_TREE_CHECKS env) (Naming.identity <$> makeFunctions env))
    (fun _ c' => Ready (module c) allSlots (namedFunctions env (module c)) c').
Proof.
  set (mo := module c). set (l := namedFunctions env mo).
  rewrite <- (identity_namedFunctions env mo). fold l.
  unfold pipeline, dataflowSteps, structuralSteps, livenessSteps.
  rewrite <- !bind_identity.
  pose proof (Ready_start c l) as H0. fold mo in H0.
  unfold decompile.
  apply Runs_silent_bind; [apply Silent_logToken | intros _].
  eapply (Runs_bind_eq _ _ _ _ [Run IRGenerator None]);
    [reflexivity | by apply createProgram_runs | intros ? c1 H1; cbv beta in H1].
  apply Runs_poll_bind.
  eapply (Runs_bind_eq _ _ _ _ [Run FunctionsGenerator None]);
    [reflexivity
    | apply (createFunctions_runs env mo l _ c1 H1); [set_solver..|done]
    | intros ? c2 H2; cbv beta in H2].
  apply Runs_poll_bind.
  eapply Runs_bind_eq;
    [reflexivity
    | apply (dataflowAnalysis_runs env mo l _ c2 H2); set_solver
    | intros ? c3 H3; cbv beta in H3].
  apply Runs_poll_bind.
  eapply (Runs_bind_eq _ _ _ _ [Run SignatureAnalyzer None]);
    [reflexivity
    | apply (reconstructSignatures_runs env mo l _ c3 H3); set_solver
    | intros ? c4 H4; cbv beta in H4].
  apply Runs_poll_bind.
  assert (H4' : Ready mo [Hooks; Conventions; Signatures; Functions; Program] l c4).
  { eapply Ready_weaken; [exact H4 | set_solver]. }
  eapply Runs_bind_eq;
    [reflexivity
    | apply (dataflowAnalysis_runs env mo l _ c4 H4'); set_solver
    | intros ? c5 H5; cbv beta in H5].
  apply Runs_poll_bind.
  eapply (Runs_bind_eq _ _ _ _ [Run VariableAnalyzer None]);
    [reflexivity
    | apply (reconstructVariables_runs env mo l _ c5 H5); set_solver
    | intros ? c6 H6; cbv beta in H6].
  apply Runs_poll_bind.
  eapply Runs_bind_eq;
    [reflexivity
    | apply (structuralAnalysis_runs env mo l _ c6 H6); set_solver
    | intros ? c7 H7; cbv beta in H7].
  apply Runs_poll_bind.
  eapply Runs_bind_eq;
    [reflexivity
    | apply (livenessAnalysis_runs env mo l _ c7 H7); set_solver
    | intros ? c8 H8; cbv beta in H8].
  apply Runs_poll_bind.
  eapply (Runs_bind_eq _ _ _ _ [Run TypeAnalyzer None]);
    [reflexivity
    | apply (reconstructTypes_runs env mo l _ c8 H8); set_solver
    | intros ? c9 H9; cbv beta in H9].
  apply Runs_poll_bind.
  eapply (Runs_bind_eq _ _ _ _ [Run CodeGenerator None]);
    [reflexivity
    | apply (generateTree_runs env mo l _ c9 H9); set_solver
    | intros ? c10 H10; cbv beta in H10].
  apply Runs_poll_bind.
  eapply (Runs_bind_eq _ _ _ _
            (if NC_TREE_CHECKS env then [Run TreeChecker None; Poll] else [])
            [Poll] _ (fun _ c' => Ready mo _ l c'));
    [reflexivity | | intros ? c11 H11].
  { destruct (NC_TREE_CHECKS env).
    - eapply (Runs_bind_eq _ _ _ _ [Run TreeChecker None] [Poll]);
        [reflexivity
        | apply (checkTree_runs env mo l _ c10 H10); set_solver
        | intros ? c11 H11; cbv beta in H11].
      by apply Runs_poll.
    - by apply Runs_ret. }
  eapply (Runs_bind_eq _ _ _ _ [] [Poll]);
    [reflexivity
    | apply (computeTermToFunctionMapping_runs env mo l _ c11 H11)
    | intros ? c12 H12; cbv beta in H12].
  apply Runs_poll_bind. by apply Runs_logToken.
Qed.

Lemma polls_append t1 t2 : polls (t1 ++ t2) = polls t1 + polls t2.
Proof. unfold polls. by rewrite filter_app, length_app. Qed.

Lemma polls_steps t : polls (steps t) = polls t.
Proof.
  unfold polls, steps. induction t as [|e t IH]; [done|].
  destruct e; cbn [omap list_omap isStep]; rewrite ?filter_cons; simpl;
    by rewrite IH.
Qed.

Lemma polls_loop (g : N -> list Event) k fs :
  (forall f, polls (g f) = k) -> polls (fs ≫= g) = k * length fs.
Proof.
  intros Hg. induction fs as [|f fs IH].
  - cbn [length]. by rewrite Nat.mul_0_r.
  - rewrite bind_cons, polls_append, Hg, IH. cbn [length]. lia.
Qed.

Lemma polls_pipeline checks fs :
  polls (pipeline checks fs) = 11 + (if checks then 1 else 0) + 3 * length fs.
Proof.
  unfold pipeline. rewrite !polls_append.
  rewrite !(polls_loop dataflowSteps 1), (polls_loop structuralSteps 1),
    (polls_loop livenessSteps 0) by done.
  destruct checks; vm_compute polls; lia.
Qed.



(** X12.  Given a context with its module, and collaborators that
    return, the controller itself never stops at a slot that is not set
    nor at a function missing from a map, whatever the slots hold when
    [decompile] starts: each [*context.x()] comes after the phase that
    sets the slot, each [at(function)] after the loop that has put the
    function in the map. *)
Theorem decompile_meets_no_unset_slot env s e s' :
  decompile env s = Raise e s' -> e <> NullPointer /\ e <> OutOfRange.
Proof.
  intros E. pose proof (decompile_runs env (context s) s eq_refl) as H.
  rewrite E in H. by destruct H as ((-> & _) & _).
Qed.

Lemma decompile_meets_no_unset_slot_witness :
  decompile Examples.cancelledDuringStructure
    (start (newContext Examples.exampleModule))
  = Raise Cancelled
      (final (decompile Examples.cancelledDuringStructure
                (start (newContext Examples.exampleModule)))) /\
  Cancelled <> NullPointer /\ Cancelled <> OutOfRange.
Proof.
  assert (E : decompile Examples.cancelledDuringStructure
                (start (newContext Examples.exampleModule))
              = Raise Cancelled
                  (final (decompile Examples.cancelledDuringStructure
                            (start (newContext Examples.exampleModule)))))
    by (vm_compute; reflexivity).
  split; [exact E|].
  exact (decompile_meets_no_unset_slot _ _ _ _ E).
Defined.

(** X10.  When [decompile] returns, every slot of the context points to an
    object; the functions are the ones [FunctionsGenerator] found, with
    the names picked for them; and the [Dataflows], the [Graphs] and the
    [Livenesses] hold an object for each of these functions and for
    nothing else. *)
Theorem decompile_fills_the_context env s s' :
  decompile env s = Ok tt s' ->
  (forall slot, isDefined slot (context s')) /\
  (exists F, functions (context s') = Some F /\
             list_ F = namedFunctions env (module (context s))) /\
  (exists d g v,
     dataflows (context s') = Some d /\
     graphs (context s') = Some g /\
     livenesses (context s') = Some v /\
     dom (entries d) = list_to_set (Naming.identity <$> makeFunctions env) /\
     dom (entries g) = list_to_set (Naming.identity <$> makeFunctions env) /\
     dom (entries v) = list_to_set (Naming.identity <$> makeFunctions env)).
Proof.
  intros E. pose proof (decompile_runs env (context s) s eq_refl) as H.
  rewrite E in H. destruct H as (_ & _ & Hd & Hf & Hdf & Hg & Hl).
  split; [|split].
  - intros slot. apply Hd. unfold allSlots. destruct slot; set_solver.
  - apply Hf. unfold allSlots. set_solver.
  - destruct Hdf as (d & Ed & Dd); [unfold allSlots; set_solver|].
    destruct Hg as (g & Eg & Dg); [unfold allSlots; set_solver|].
    destruct Hl as (v & Ev & Dv); [unfold allSlots; set_solver|].
    exists d, g, v. unfold ids in *.
    rewrite identity_namedFunctions in Dd, Dg, Dv. done.
Qed.

Lemma decompile_fills_the_context_witness :
  isDefined TermToFunction
    (context (final (decompile Examples.exampleEnvironment
                       (start (newContext Examples.exampleModule))))) /\
  exists F,
    functions
      (context (final (decompile Examples.exampleEnvironment
                         (start (newContext Examples.exampleModule)))))
    = Some F /\
    list_ F = namedFunctions Examples.exampleEnvironment Examples.exampleModule.
Proof.
  destruct (decompile_fills_the_context Examples.exampleEnvironment
              (start (newContext Examples.exampleModule))
              (final (decompile Examples.exampleEnvironment
                        (start (newContext Examples.exampleModule)))))
    as (Hd & Hf & _).
  - vm_compute. reflexivity.
  - split; [apply Hd | exact Hf].
Defined.

(** X11.  A run of [decompile] that returns has taken the steps of the
    pipeline in their order: it ran the collaborators phase by phase,
    each function through the dataflow analysis twice and through the
    structural and the liveness analysis once, and polled the
    cancellation token after each phase and after each function in the
    loops of the dataflow and the structural analysis: eleven times,
    once more when the tree is checked, and thrice for each function. *)
Theorem decompile_takes_the_steps_of_the_pipeline env s s' :
  decompile env s = Ok tt s' ->
  steps (trace s')
  = steps (trace s)
    ++ pipeline (NC_TREE_CHECKS env) (Naming.identity <$> makeFunctions env) /\
  polls (trace s')
  = polls (trace s) + 11 + (if NC_TREE_CHECKS env then 1 else 0)
    + 3 * length (makeFunctions env).
Proof.
  intros E. pose proof (decompile_runs env (context s) s eq_refl) as H.
  rewrite E in H. destruct H as [Ht _]. split; [done|].
  rewrite <- (polls_steps (trace s')), Ht, polls_append, polls_steps,
    polls_pipeline, length_fmap.
  lia.
Qed.

Lemma decompile_takes_the_steps_of_the_pipeline_witness :
  steps (trace (final (decompile Examples.exampleEnvironment
                         (start (newContext Examples.exampleModule)))))
  = steps (trace (start (newContext Examples.exampleModule)))
    ++ pipeline (NC_TREE_CHECKS Examples.exampleEnvironment)
         (Naming.identity <$> makeFunctions Examples.exampleEnvironment) /\
  polls (trace (final (decompile Examples.exampleEnvironment
                         (start (newContext Examples.exampleModule)))))
  = polls (trace (start (newContext Examples.exampleModule))) + 11
    + (if NC_TREE_CHECKS Examples.exampleEnvironment then 1 else 0)
    + 3 * length (makeFunctions Examples.exampleEnvironment).
Proof.
  apply (decompile_takes_the_steps_of_the_pipeline Examples.exampleEnvironment).
  vm_compute. reflexivity.
Defined.
End PipelineRun.
